(** * ProgProject4: a two-field locked record replayed by trace players

    Shallow embedding of [src/main.cpp] and the properties its specification
    states about it.

    The C++ [int] is modelled as [Z] (no claim below depends on 32-bit
    wrap-around of field values), [size_t] as [Z] reduced modulo [2^64],
    [std::string] as [string], [std::vector] as [list], [std::array<T,2>] as
    a pair.  The methods of [SafeStruct] are written once, as small programs
    over the primitive effects they perform (mutex lock and unlock,
    [std::lock], array load and store).  Two readings of these programs are
    given: [run], which plays one program alone against the record, and
    [step], the interleaving semantics of several threads that share it. *)

From Stdlib Require Import ZArith Lia Ascii String QArith Floats.
From stdpp Require Import base tactics option list relations.

Local Open Scope Z_scope.

(** ** [std::array<T, 2>] *)

Module Array2.

Definition t (A : Type) : Type := (A * A)%type.

(** [a.size()] *)
Definition size : nat := 2.

(** [a[i]], for an index already checked to lie in [0, 2). *)
Definition at_ {A : Type} (a : t A) (i : Z) : A :=
  if i =? 0 then fst a else snd a.

(** [a[i] = v], for an index already checked to lie in [0, 2). *)
Definition assign {A : Type} (a : t A) (i : Z) (v : A) : t A :=
  if i =? 0 then (v, snd a) else (fst a, v).

End Array2.

(** ** The shared record *)

(** [class SafeStruct]: [data{0, 0}] and one [std::mutex] per field.  A
    mutex is modelled by its locked flag. *)
Record SafeStruct : Type := mkSafeStruct {
  data : Array2.t Z;
  mutexes : Array2.t bool
}.

(** A default-constructed [SafeStruct]. *)
Definition SafeStruct_init : SafeStruct :=
  {| data := (0, 0); mutexes := (false, false) |}.

Definition locked (s : SafeStruct) (m : Z) : bool := Array2.at_ (mutexes s) m.

Definition acquire (m : Z) (s : SafeStruct) : SafeStruct :=
  {| data := data s; mutexes := Array2.assign (mutexes s) m true |}.

Definition release (m : Z) (s : SafeStruct) : SafeStruct :=
  {| data := data s; mutexes := Array2.assign (mutexes s) m false |}.

Definition write (f v : Z) (s : SafeStruct) : SafeStruct :=
  {| data := Array2.assign (data s) f v; mutexes := mutexes s |}.

(** ** Programs over the record *)

(** The state of a call to [std::lock(lock0, lock1)].  The library locks one
    mutex with a blocking [lock()], then calls [try_lock()] on the other; when
    that fails it unlocks the one it holds and starts again.  [Want i]: holds
    nothing, about to block on mutex [i].  [Hold i]: holds mutex [i], about to
    try the other one. *)
Inductive phase : Type :=
| Want (i : Z)
| Hold (i : Z).

Definition other (i : Z) : Z := if i =? 0 then 1 else 0.

Inductive prog (A : Type) : Type :=
| Ret (a : A)
| Lock (m : Z) (k : prog A)
| Unlock (m : Z) (k : prog A)
| StdLock (ph : phase) (k : prog A)
| Load (f : Z) (k : Z -> prog A)
| Store (f : Z) (v : Z) (k : prog A).

Arguments Ret {A} a.
Arguments Lock {A} m k.
Arguments Unlock {A} m k.
Arguments StdLock {A} ph k.
Arguments Load {A} f k.
Arguments Store {A} f v k.

Fixpoint bind {A B : Type} (p : prog A) (q : A -> prog B) : prog B :=
  match p with
  | Ret a => q a
  | Lock m k => Lock m (bind k q)
  | Unlock m k => Unlock m (bind k q)
  | StdLock ph k => StdLock ph (bind k q)
  | Load f k => Load f (fun v => bind (k v) q)
  | Store f v k => Store f v (bind k q)
  end.

Notation "x <- p ;; q" := (bind p (fun x => q))
  (at level 100, p at next level, right associativity).
Notation "p ;; q" := (bind p (fun _ => q))
  (at level 100, right associativity).

Definition lock (m : Z) : prog unit := Lock m (Ret tt).
Definition unlock (m : Z) : prog unit := Unlock m (Ret tt).
Definition std_lock : prog unit := StdLock (Want 0) (Ret tt).
Definition load (f : Z) : prog Z := Load f Ret.
Definition store (f v : Z) : prog unit := Store f v (Ret tt).

(** ** [std::to_string(int)] *)

Definition digit_char (d : Z) : ascii := ascii_of_nat (48 + Z.to_nat d).

(** The decimal digits of [n], most significant first, in front of [acc];
    [fuel] bounds the number of digits. *)
Fixpoint digits_of (fuel : nat) (n : Z) (acc : string) : string :=
  match fuel with
  | O => acc
  | S fuel' =>
      let acc' := String (digit_char (n mod 10)) acc in
      if n <? 10 then acc' else digits_of fuel' (n / 10) acc'
  end.

Definition to_string (val : Z) : string :=
  let neg := val <? 0 in
  let uval := if neg then - val else val in
  let ds := digits_of (S (Z.to_nat (Z.log2 uval))) uval EmptyString in
  if neg then String "-"%char ds else ds.

(** ** Methods of [SafeStruct] *)

(** [void set(int field, int value)] *)
Definition set (field value : Z) : prog unit :=
  if (field <? 0) || (field >=? Z.of_nat Array2.size) then Ret tt
  else
    lock field ;;
    store field value ;;
    unlock field.

(** [int get(int field) const] *)
Definition get (field : Z) : prog Z :=
  if (field <? 0) || (field >=? Z.of_nat Array2.size) then Ret 0
  else
    lock field ;;
    v <- load field ;;
    unlock field ;;
    Ret v.

(** [explicit operator std::string() const]: both locks are taken with
    [std::lock]; they are released in reverse order of construction once the
    string is built. *)
Definition to_std_string : prog string :=
  std_lock ;;
  d0 <- load 0 ;;
  d1 <- load 1 ;;
  let r := (to_string d0 ++ " " ++ to_string d1)%string in
  unlock 1 ;;
  unlock 0 ;;
  Ret r.

(** ** Traces *)

Inductive Op : Type := READ | WRITE | STR.

Record Action : Type := mkAction {
  op : Op;
  field : Z;
  value : Z
}.

(** The member initialisers of [struct Action]. *)
Definition Action_op (o : Op) : Action := {| op := o; field := -1; value := 0 |}.
Definition Action_op_field (o : Op) (f : Z) : Action :=
  {| op := o; field := f; value := 0 |}.

(** The body of the loop of [execute]. *)
Definition execute_one (a : Action) : prog unit :=
  match op a with
  | READ => val <- get (field a) ;; Ret tt
  | WRITE => set (field a) (value a)
  | STR => tmp <- to_std_string ;; Ret tt
  end.

(** [void execute(const std::vector<Action>& actions, SafeStruct& s)] *)
Fixpoint execute (actions : list Action) : prog unit :=
  match actions with
  | [] => Ret tt
  | a :: rest => execute_one a ;; execute rest
  end.

(** ** One program alone *)

(** [run p s]: the result and final record of [p] started on [s] with no
    other thread running, or [None] when [p] blocks on a mutex that is
    already locked (nobody is there to unlock it). *)
Fixpoint run {A : Type} (p : prog A) (s : SafeStruct) : option (A * SafeStruct) :=
  match p with
  | Ret a => Some (a, s)
  | Lock m k => if locked s m then None else run k (acquire m s)
  | Unlock m k => run k (release m s)
  | StdLock (Want i) k =>
      if locked s i then None
      else if locked s (other i) then None
      else run k (acquire (other i) (acquire i s))
  | StdLock (Hold i) k =>
      if locked s (other i) then None
      else run k (acquire (other i) s)
  | Load f k => run (k (Array2.at_ (data s) f)) s
  | Store f v k => run k (write f v s)
  end.

(** ** Several threads on one record *)

(** The steps a thread whose remaining program is [p] can take on the record
    [s], each with the record and the remaining program after it.  The empty
    list means the thread is blocked on a mutex, or has returned.  A failed
    [try_lock] inside [std::lock] releases the mutex held and starts again on
    either mutex: the library leaves the choice open. *)
Definition tsteps {A : Type} (s : SafeStruct) (p : prog A)
  : list (SafeStruct * prog A) :=
  match p with
  | Ret _ => []
  | Lock m k => if locked s m then [] else [(acquire m s, k)]
  | Unlock m k => [(release m s, k)]
  | StdLock (Want i) k =>
      if locked s i then [] else [(acquire i s, StdLock (Hold i) k)]
  | StdLock (Hold i) k =>
      if locked s (other i)
      then [(release i s, StdLock (Want 0) k); (release i s, StdLock (Want 1) k)]
      else [(acquire (other i) s, k)]
  | Load f k => [(s, k (Array2.at_ (data s) f))]
  | Store f v k => [(write f v s, k)]
  end.

(** A run in progress: the record and what is left of each thread. *)
Record config : Type := mkConfig {
  shared : SafeStruct;
  threads : list (prog unit)
}.

(** One step of one thread, chosen by the scheduler. *)
Inductive step : config -> config -> Prop :=
| step_thread (s s' : SafeStruct) (ts : list (prog unit)) (t : nat)
    (p p' : prog unit) :
    ts !! t = Some p ->
    (s', p') ∈ tsteps s p ->
    step {| shared := s; threads := ts |}
         {| shared := s'; threads := <[t := p']> ts |}.

(** [run_once] at the moment its threads are created: one [execute] per
    action list, all on the record [s]. *)
Definition run_once (s : SafeStruct) (action_lists : list (list Action)) : config :=
  {| shared := s; threads := map execute action_lists |}.

(** Every thread has returned, so every [join] of [run_once] returns. *)
Definition joined (c : config) : Prop :=
  Forall (fun p => p = Ret tt) (threads c).

(** [run_once] can return with the record in state [s']. *)
Definition completes (c : config) (s' : SafeStruct) : Prop :=
  exists c', rtc step c c' /\ joined c' /\ shared c' = s'.

(** A configuration is deadlocked when some thread has not returned and no
    thread can take a step. *)
Definition deadlocked (c : config) : Prop :=
  ~ joined c /\ forall c', ~ step c c'.

(** *** Lock discipline *)

Definition valid_index (i : Z) : Prop := i = 0 \/ i = 1.

Definition none_held : Array2.t bool := (false, false).
Definition both_held : Array2.t bool := (true, true).

(** [disciplined h p]: a thread that holds exactly the mutexes flagged in [h]
    and still has to run [p] blocks only while it holds nothing, touches a
    field only under that field's mutex, unlocks only what it holds, and
    returns holding nothing. *)
Inductive disciplined {A : Type} : Array2.t bool -> prog A -> Prop :=
| d_ret a : disciplined none_held (Ret a)
| d_lock m k :
    valid_index m ->
    disciplined (Array2.assign none_held m true) k ->
    disciplined none_held (Lock m k)
| d_unlock h m k :
    valid_index m ->
    Array2.at_ h m = true ->
    disciplined (Array2.assign h m false) k ->
    disciplined h (Unlock m k)
| d_want i k :
    valid_index i ->
    disciplined both_held k ->
    disciplined none_held (StdLock (Want i) k)
| d_hold i k :
    valid_index i ->
    disciplined both_held k ->
    disciplined (Array2.assign none_held i true) (StdLock (Hold i) k)
| d_load h f k :
    valid_index f ->
    Array2.at_ h f = true ->
    (forall v, disciplined h (k v)) ->
    disciplined h (Load f k)
| d_store h f v k :
    valid_index f ->
    Array2.at_ h f = true ->
    disciplined h k ->
    disciplined h (Store f v k).

(** The mutexes thread [t] holds when [owner] records who holds each. *)
Definition held_by (owner : Array2.t (option nat)) (t : nat) : Array2.t bool :=
  (bool_decide (fst owner = Some t), bool_decide (snd owner = Some t)).

(** The invariant of a run: every locked mutex has an owner among the
    threads, and every thread follows the lock discipline for what it
    owns. *)
Definition lock_invariant (c : config) : Prop :=
  exists owner : Array2.t (option nat),
    (forall m, valid_index m ->
       locked (shared c) m = bool_decide (is_Some (Array2.at_ owner m))) /\
    (forall m t, valid_index m -> Array2.at_ owner m = Some t ->
       is_Some (threads c !! t)) /\
    (forall t p, threads c !! t = Some p -> disciplined (held_by owner t) p).

(** ** Reading a trace file *)

(** The part of a [std::istringstream] the parser uses: the characters not
    yet read and the two state bits. *)
Record istream : Type := mkIstream {
  rest : string;
  eofbit : bool;
  failbit : bool
}.

Definition good (st : istream) : bool := negb (eofbit st) && negb (failbit st).

(** [std::isspace] in the "C" locale: space, and the controls 9 to 13. *)
Definition isspace (c : ascii) : bool :=
  let n := nat_of_ascii c in
  Nat.eqb n 32 || (Nat.leb 9 n && Nat.leb n 13).

Definition isdigit (c : ascii) : bool :=
  let n := nat_of_ascii c in
  Nat.leb 48 n && Nat.leb n 57.

Definition is_empty (s : string) : bool :=
  match s with
  | EmptyString => true
  | String _ _ => false
  end.

Fixpoint skipws (s : string) : string :=
  match s with
  | EmptyString => EmptyString
  | String c s' => if isspace c then skipws s' else s
  end.

(** The sentry every formatted extraction starts with: a stream that is not
    good fails at once; otherwise white space is skipped, and reaching the
    end while skipping sets both bits. *)
Definition sentry (st : istream) : bool * istream :=
  if good st then
    match skipws (rest st) with
    | EmptyString => (false, {| rest := EmptyString; eofbit := true; failbit := true |})
    | r => (true, {| rest := r; eofbit := false; failbit := false |})
    end
  else (false, {| rest := rest st; eofbit := eofbit st; failbit := true |}).

(** Characters up to the next white space, and what follows them. *)
Fixpoint take_word (s : string) : string * string :=
  match s with
  | EmptyString => (EmptyString, EmptyString)
  | String c s' =>
      if isspace c then (EmptyString, s)
      else let (w, r) := take_word s' in (String c w, r)
  end.

(** [st >> str] for a [std::string]: [str] is left alone when the sentry
    fails. *)
Definition extract_string (st : istream) (str : string) : string * istream :=
  let (ok, st1) := sentry st in
  if ok then
    let (w, r) := take_word (rest st1) in
    (w, {| rest := r; eofbit := is_empty r; failbit := false |})
  else (str, st1).

(** The digits in front of [s] read in base ten on top of [acc], whether
    there was one, and what follows them. *)
Fixpoint take_digits (s : string) (acc : Z) (seen : bool) : Z * bool * string :=
  match s with
  | EmptyString => (acc, seen, EmptyString)
  | String c s' =>
      if isdigit c
      then take_digits s' (10 * acc + (Z.of_nat (nat_of_ascii c) - 48)) true
      else (acc, seen, s)
  end.

Definition INT_MAX : Z := 2 ^ 31 - 1.
Definition INT_MIN : Z := - 2 ^ 31.

(** [st >> n] for an [int]: [n] is left alone when the sentry fails; it
    becomes 0 when no digit follows the optional sign, and the nearest end of
    the [int] range when the number does not fit, and the fail bit is set in
    both cases. *)
Definition extract_int (st : istream) (n : Z) : Z * istream :=
  let (ok, st1) := sentry st in
  if ok then
    let (neg, r1) :=
      match rest st1 with
      | String c r =>
          if Ascii.eqb c "-" then (true, r)
          else if Ascii.eqb c "+" then (false, r)
          else (false, rest st1)
      | EmptyString => (false, EmptyString)
      end in
    let '(mag, seen, r2) := take_digits r1 0 false in
    let v := if neg then - mag else mag in
    if negb seen then (0, {| rest := r2; eofbit := is_empty r2; failbit := true |})
    else if v >? INT_MAX
    then (INT_MAX, {| rest := r2; eofbit := is_empty r2; failbit := true |})
    else if v <? INT_MIN
    then (INT_MIN, {| rest := r2; eofbit := is_empty r2; failbit := true |})
    else (v, {| rest := r2; eofbit := is_empty r2; failbit := false |})
  else (n, st1).

(** The body of the [while] loop of [parse_file] on one line.  [f0] and [v0]
    are what the locals [f] and [v], declared without an initialiser, hold
    before the extraction. *)
Definition parse_line (f0 v0 : Z) (line : string) : option Action :=
  let iss := {| rest := line; eofbit := false; failbit := false |} in
  let (cmd, iss) := extract_string iss EmptyString in
  if String.eqb cmd "read" then
    let (f, iss) := extract_int iss f0 in
    Some (Action_op_field READ f)
  else if String.eqb cmd "write" then
    let (f, iss) := extract_int iss f0 in
    let (v, iss) := extract_int iss v0 in
    Some {| op := WRITE; field := f; value := v |}
  else if String.eqb cmd "string" then
    Some (Action_op STR)
  else None.

Definition newline : ascii := ascii_of_nat 10.

(** The lines [std::getline] returns one after the other: [cur] is the part
    of the current line read so far.  At the end of the input a last line
    without its newline is still returned, unless it is empty. *)
Fixpoint getlines (s : string) (cur : string) : list string :=
  match s with
  | EmptyString => if is_empty cur then [] else [cur]
  | String c s' =>
      if Ascii.eqb c newline then cur :: getlines s' EmptyString
      else getlines s' (cur ++ String c EmptyString)
  end.

(** The actions pushed for the lines [lines], the first of which is line
    number [n]. *)
Fixpoint parse_lines (junk : nat -> Z * Z) (n : nat) (lines : list string)
  : list Action :=
  match lines with
  | [] => []
  | line :: lines' =>
      match parse_line (fst (junk n)) (snd (junk n)) line with
      | Some a => a :: parse_lines junk (S n) lines'
      | None => parse_lines junk (S n) lines'
      end
  end.

(** [parse_file]: [fs] maps a file name to the contents of the file, [None]
    when it cannot be opened. *)
Definition parse_file (fs : string -> option string) (junk : nat -> Z * Z)
  (filename : string) : list Action :=
  match fs filename with
  | None => []
  | Some contents => parse_lines junk 0 (getlines contents EmptyString)
  end.

(** The words of a line, as a reader of the trace format sees them. *)
Fixpoint words_from (s : string) (cur : string) : list string :=
  match s with
  | EmptyString => if is_empty cur then [] else [cur]
  | String c s' =>
      if isspace c
      then (if is_empty cur then words_from s' EmptyString
            else cur :: words_from s' EmptyString)
      else words_from s' (cur ++ String c EmptyString)
  end.

Definition words (line : string) : list string := words_from line EmptyString.

Fixpoint all_digits (s : string) : bool :=
  match s with
  | EmptyString => true
  | String c s' => isdigit c && all_digits s'
  end.

(** An integer written in decimal: an optional minus sign and at least one
    digit. *)
Definition integer_word (w : string) : bool :=
  match w with
  | String c ds =>
      if Ascii.eqb c "-" then negb (is_empty ds) && all_digits ds
      else all_digits w
  | EmptyString => false
  end.

(** The three forms of the trace format: [read <field>],
    [write <field> <value>] and [string]. *)
Definition trace_form (line : string) : bool :=
  match words line with
  | [cmd; f] => String.eqb cmd "read" && integer_word f
  | [cmd; f; v] => String.eqb cmd "write" && integer_word f && integer_word v
  | [cmd] => String.eqb cmd "string"
  | _ => false
  end.

(** The first word of a line names a command. *)
Definition command_word (line : string) : option Op :=
  match words line with
  | cmd :: _ =>
      if String.eqb cmd "read" then Some READ
      else if String.eqb cmd "write" then Some WRITE
      else if String.eqb cmd "string" then Some STR
      else None
  | [] => None
  end.

(** ** Decimal numerals *)

(** What a string of digits denotes, read on top of [acc]. *)
Fixpoint digits_value (s : string) (acc : Z) : option Z :=
  match s with
  | EmptyString => Some acc
  | String c s' =>
      if isdigit c
      then digits_value s' (10 * acc + (Z.of_nat (nat_of_ascii c) - 48))
      else None
  end.

(** The integer a decimal numeral denotes: digits, after a minus sign for a
    negative number. *)
Definition decimal_value (s : string) : option Z :=
  match s with
  | EmptyString => None
  | String c ds =>
      if Ascii.eqb c "-"
      then (if is_empty ds then None else option_map Z.opp (digits_value ds 0))
      else digits_value s 0
  end.

(** A numeral is in normal form when it has no redundant leading zero and
    zero is not given a sign. *)
Definition leading_zero (s : string) : bool :=
  match s with
  | String c _ => Ascii.eqb c "0"
  | EmptyString => false
  end.

Definition normal_numeral (s : string) : bool :=
  match s with
  | EmptyString => false
  | String c ds =>
      if Ascii.eqb c "-" then negb (is_empty ds) && negb (leading_zero ds)
      else is_empty ds || negb (leading_zero s)
  end.

(** [s] is the decimal representation of [z]. *)
Definition decimal_repr (z : Z) (s : string) : Prop :=
  decimal_value s = Some z /\ normal_numeral s = true.

(** ** Generating the trace files *)

(** [size_t] is 64 bits wide, [int] 32. *)
Definition to_size_t (z : Z) : Z := z mod 2 ^ 64.
Definition to_int (z : Z) : Z := (z + 2 ^ 31) mod 2 ^ 32 - 2 ^ 31.

(** The integers [lo], [lo + 1], ..., [hi - 1]: the values a [for] loop
    counter takes. *)
Definition int_range (lo hi : Z) : list Z :=
  map (fun k => lo + Z.of_nat k) (seq 0 (Z.to_nat (hi - lo))).

(** [nops] for piece [i] of [t]: [base + (i < (int)rem ? 1 : 0)], where the
    [int] [t] is converted to [size_t] for the division. *)
Definition piece_nops (num_ops t i : Z) : Z :=
  let base := num_ops / to_size_t t in
  let rem := num_ops mod to_size_t t in
  to_size_t (base + (if i <? to_int rem then 1 else 0)).

(** ["input_" + tags[variant] + "_" + to_string(t) + "_" + to_string(i) + ".txt"] *)
Definition trace_filename (tags : list string) (variant : nat) (t i : Z) : string :=
  ("input_" ++ nth variant tags EmptyString ++ "_" ++ to_string t ++ "_"
   ++ to_string i ++ ".txt")%string.

(** One call [generate_file(filename, nops, all_probs[variant])]. *)
Record generate_call : Type := mkCall {
  call_filename : string;
  call_nops : Z;
  call_variant : nat
}.

(** The innermost loop of [generate_all_files]. *)
Definition generate_pieces (num_ops : Z) (tags : list string) (t : Z)
  (variant : nat) : list generate_call :=
  map (fun i => {| call_filename := trace_filename tags variant t i;
                   call_nops := piece_nops num_ops t i;
                   call_variant := variant |})
      (int_range 0 t).

(** [generate_all_files], as the calls to [generate_file] it makes, in
    order. *)
Definition generate_all_files (num_ops max_threads : Z) (tags : list string)
  : list generate_call :=
  flat_map (fun t =>
    flat_map (fun variant => generate_pieces num_ops tags t variant) (seq 0 3))
    (int_range 1 (max_threads + 1)).

Definition sum_nops (calls : list generate_call) : Z :=
  fold_right (fun c acc => call_nops c + acc) 0 calls.

(** ** Timing *)

(** The conversion of an [int] to [double]. *)
Definition double_of_int (z : Z) : float :=
  if z <? 0 then PrimFloat.opp (PrimFloat.of_uint63 (Uint63.of_Z (- z)))
  else PrimFloat.of_uint63 (Uint63.of_Z z).

Section Harness.

(** The trace files on disk, and the junk in uninitialised locals. *)
Variable fs : string -> option string.
Variable junk : nat -> Z * Z.

(** [elapsed n s action_lists]: the seconds the steady clock counts while the
    [n]-th call of [run_once(s, action_lists)] of the process runs. *)
Variable elapsed : nat -> SafeStruct -> list (list Action) -> float.

(** [measure_time], as call number [n]: a new [SafeStruct] is handed to
    [run_once]. *)
Definition measure_time (n : nat) (action_lists : list (list Action)) : float :=
  let s := SafeStruct_init in
  elapsed n s action_lists.

(** The files of one repeat, parsed. *)
Definition load_action_lists (tags : list string) (variant : nat) (t : Z)
  : list (list Action) :=
  map (fun i => parse_file fs junk (trace_filename tags variant t i)) (int_range 0 t).

(** The loop over [r]: [total_time] after the repeats, and the number of
    calls of [measure_time] made so far. *)
Definition repeat_loop (tags : list string) (variant : nat) (t : Z)
  (repeats : Z) (n0 : nat) : float * nat :=
  fold_left
    (fun '(total_time, n) _ =>
       let action_lists := load_action_lists tags variant t in
       (PrimFloat.add total_time (measure_time n action_lists), S n))
    (int_range 0 repeats) (PrimFloat.zero, n0).

(** [results[variant][t - 1] = x].  The table has 3 rows of 3 cells; a write
    outside it is undefined behaviour in the source and is dropped here, and
    the properties below are stated for writes inside it. *)
Definition store_result (results : list (list float)) (variant : nat) (t : Z)
  (x : float) : list (list float) :=
  match results !! variant with
  | Some row => <[variant := <[Z.to_nat (t - 1) := x]> row]> results
  | None => results
  end.

(** The loop over [t] for one variant. *)
Definition thread_loop (tags : list string) (variant : nat) (max_threads repeats : Z)
  (results : list (list float)) (n0 : nat) : list (list float) * nat :=
  fold_left
    (fun '(results, n) t =>
       let '(total_time, n') := repeat_loop tags variant t repeats n in
       (store_result results variant t
          (PrimFloat.div total_time (double_of_int repeats)), n'))
    (int_range 1 (max_threads + 1)) (results, n0).

(** [measure_all]: the table after the run, and the number of measurements
    made. *)
Definition measure_all (results : list (list float)) (max_threads : Z)
  (tags : list string) (repeats : Z) : list (list float) * nat :=
  fold_left
    (fun '(results, n) variant => thread_loop tags variant max_threads repeats results n)
    (seq 0 3) (results, 0%nat).

End Harness.

(** The durations of [R] measurements in a row, the first of which is
    measurement number [n0] of the process: each is taken on a new record. *)
Definition durations (elapsed : nat -> SafeStruct -> list (list Action) -> float)
  (action_lists : list (list Action)) (n0 R : nat) : list float :=
  map (fun k => elapsed (n0 + k)%nat SafeStruct_init action_lists) (seq 0 R).

(** [double results[3][3]] *)
Definition table_3x3 (results : list (list float)) : Prop :=
  length results = 3%nat /\ Forall (fun row => length row = 3%nat) results.

(** [int repeats = 5] *)
Definition default_repeats : Z := 5.

(** [double results[3][3] = {}] *)
Definition results_init : list (list float) :=
  replicate 3 (replicate 3 PrimFloat.zero).

(** [results[variant][t - 1]] *)
Definition result_at (results : list (list float)) (variant : nat) (t : Z)
  : option float :=
  row ← results !! variant; row !! Z.to_nat (t - 1).

(** The real number a finite [double] stands for. *)
Definition exact_value (x : float) : option Q :=
  match Prim2SF x with
  | S754_zero _ => Some 0%Q
  | S754_finite sign m e =>
      Some ((if sign then -1 else 1) * inject_Z (Z.pos m) * Qpower 2 e)%Q
  | S754_infinity _ => None
  | S754_nan => None
  end.

(** The arithmetic mean of durations, over the reals. *)
Definition exact_mean (durations : list float) : option Q :=
  match mapM exact_value durations with
  | Some qs =>
      Some (fold_right Qplus 0%Q qs / inject_Z (Z.of_nat (length durations)))%Q
  | None => None
  end.

(** The mean as [measure_all] computes it: the durations added one after the
    other to 0.0 and the total divided by the count, each operation rounded
    to the nearest [double]. *)
Definition rounded_mean (durations : list float) (repeats : Z) : float :=
  PrimFloat.div (fold_left PrimFloat.add durations PrimFloat.zero)
                (double_of_int repeats).

(** ** Auxiliary notions for the properties *)

(** One step of a single thread, as a relation on the record and what is
    left of the thread's program. *)
Definition thread_step {A : Type} (x y : SafeStruct * prog A) : Prop :=
  y ∈ tsteps (fst x) (snd x).

(** A program that never stores into a field. *)
Fixpoint read_only {A : Type} (p : prog A) : Prop :=
  match p with
  | Ret _ => True
  | Lock _ k => read_only k
  | Unlock _ k => read_only k
  | StdLock _ k => read_only k
  | Load _ k => forall v, read_only (k v)
  | Store _ _ _ => False
  end.

(** What [measure_all] reports for [variant] and [t], when the first
    measurement for that cell is number [n] of the process. *)
Definition cell (fs : string -> option string) (junk : nat -> Z * Z)
  (elapsed : nat -> SafeStruct -> list (list Action) -> float)
  (tags : list string) (repeats : Z) (variant : nat) (t : Z) (n : nat) : float :=
  rounded_mean
    (durations elapsed (load_action_lists fs junk tags variant t) n (Z.to_nat repeats))
    repeats.

(** A tail at which a run of digits ends. *)
Definition stops_digits (tail : string) : Prop :=
  match tail with
  | EmptyString => True
  | String c _ => isdigit c = false
  end.

(** The tags of [main], and a clock for examples: the first run of the
    process takes one second, every later one no time at all. *)
Definition main_tags : list string :=
  ["A_variant"; "B_variant"; "C_variant"]%string.

Definition first_run_one_second (n : nat) (s : SafeStruct)
  (action_lists : list (list Action)) : float :=
  if Nat.eqb n 0 then 1%float else 0%float.

(** Unfolds the slots of the two-element arrays. *)
Ltac slots :=
  unfold locked, acquire, release, write, other, held_by, none_held, both_held,
    Array2.at_, Array2.assign in *;
  simpl in *.

(** ** Notions for the further properties *)

(** What one action does to the two fields when it runs undisturbed: a
    write to a field of the record stores its value there, everything else
    leaves the fields as they are. *)
Definition apply_action (d : Array2.t Z) (a : Action) : Array2.t Z :=
  match op a with
  | WRITE =>
      if (field a <? 0) || (field a >=? Z.of_nat Array2.size) then d
      else Array2.assign d (field a) (value a)
  | READ => d
  | STR => d
  end.

(** The next thing the program does is load or store field [f]. *)
Definition at_access {A : Type} (p : prog A) (f : Z) : Prop :=
  match p with
  | Load g _ => g = f
  | Store g _ _ => g = f
  | _ => False
  end.

(** Every store the program can ever make satisfies [P]. *)
Fixpoint stores_only {A : Type} (P : Z -> Z -> Prop) (p : prog A) : Prop :=
  match p with
  | Ret _ => True
  | Lock _ k => stores_only P k
  | Unlock _ k => stores_only P k
  | StdLock _ k => stores_only P k
  | Load _ k => forall v, stores_only P (k v)
  | Store f v k => P f v /\ stores_only P k
  end.

(** Some workload of the run writes [v] to field [f] of the record. *)
Definition written_by (action_lists : list (list Action)) (f v : Z) : Prop :=
  valid_index f /\
  exists actions a,
    actions ∈ action_lists /\ a ∈ actions /\
    op a = WRITE /\ field a = f /\ value a = v.

(** What is left of a thread replaying a single snapshot, once it has loaded
    both fields, and once it has loaded the first: used in examples. *)
Definition after_loads (d0 d1 : Z) : prog unit := Unlock 1 (Unlock 0 (Ret tt)).
Definition after_load0 (d0 : Z) : prog unit := Load 1 (after_loads d0).

(** ** Writing the trace files *)

(** The line [generate_file] writes for a value [op_type] drawn from the
    distribution, without its newline: the [switch]. *)
Definition line_of_draw (op_type : Z) : string :=
  if op_type =? 0 then "read 0"
  else if op_type =? 1 then "write 0 1"
  else if op_type =? 2 then "read 1"
  else if op_type =? 3 then "write 1 1"
  else "string".

(** What [generate_file] writes for the values [draws], drawn in that
    order. *)
Fixpoint generate_lines (draws : list Z) : string :=
  match draws with
  | [] => EmptyString
  | op_type :: rest =>
      (line_of_draw op_type ++ String newline (generate_lines rest))%string
  end.

(** The disk after [name] has been opened for writing, which empties it, and
    [contents] written. *)
Definition write_file (fs : string -> option string) (name contents : string)
  : string -> option string :=
  fun n => if String.eqb n name then Some contents else fs n.

(** [generate_file]: [writable] tells whether the file can be opened for
    writing, [draw i] is the value [dist(gen)] returns in round [i] of the
    loop.  When the file cannot be opened nothing is written. *)
Definition generate_file (writable : string -> bool) (draw : nat -> Z)
  (fs : string -> option string) (filename : string) (num_ops : Z)
  : string -> option string :=
  if writable filename
  then write_file fs filename (generate_lines (map draw (seq 0 (Z.to_nat num_ops))))
  else fs.

(** The disk after the calls [calls] of [generate_file], made in order, the
    first of them being call number [k] of the process: [rng k] gives the
    draws of call [k], whose generator is seeded anew. *)
Fixpoint write_all (writable : string -> bool) (rng : nat -> nat -> Z) (k : nat)
  (fs : string -> option string) (calls : list generate_call)
  : string -> option string :=
  match calls with
  | [] => fs
  | c :: rest =>
      write_all writable rng (S k)
        (generate_file writable (rng k) fs (call_filename c) (call_nops c)) rest
  end.

(** The action a drawn value stands for. *)
Definition action_of_draw (op_type : Z) : Action :=
  if op_type =? 0 then {| op := READ; field := 0; value := 0 |}
  else if op_type =? 1 then {| op := WRITE; field := 0; value := 1 |}
  else if op_type =? 2 then {| op := READ; field := 1; value := 0 |}
  else if op_type =? 3 then {| op := WRITE; field := 1; value := 1 |}
  else {| op := STR; field := -1; value := 0 |}.

(** [main], up to the table it hands to [print_results]: 400000 operations,
    up to 3 threads, 5 runs, the tags of the three variants. *)
Definition main_table (writable : string -> bool) (rng : nat -> nat -> Z)
  (fs : string -> option string) (junk : nat -> Z * Z)
  (elapsed : nat -> SafeStruct -> list (list Action) -> float)
  : list (list float) :=
  let num_ops := 400000 in
  let max_threads := 3 in
  let runs := 5 in
  let fs' := write_all writable rng 0 fs
               (generate_all_files num_ops max_threads main_tags) in
  fst (measure_all fs' junk elapsed results_init max_threads main_tags runs).

(** The stores a program makes, in order, as pairs of a field and a value,
    when every load is taken to return 0. *)
Fixpoint writes {A : Type} (p : prog A) : list (Z * Z) :=
  match p with
  | Ret _ => []
  | Lock _ k => writes k
  | Unlock _ k => writes k
  | StdLock _ k => writes k
  | Load _ k => writes (k 0)
  | Store f v k => (f, v) :: writes k
  end.

(** The stores of the program do not depend on what its loads return. *)
Fixpoint load_blind {A : Type} (p : prog A) : Prop :=
  match p with
  | Ret _ => True
  | Lock _ k => load_blind k
  | Unlock _ k => load_blind k
  | StdLock _ k => load_blind k
  | Load _ k => forall v, writes (k v) = writes (k 0) /\ load_blind (k v)
  | Store _ _ k => load_blind k
  end.

Definition apply_write (d : Array2.t Z) (w : Z * Z) : Array2.t Z :=
  Array2.assign d (fst w) (snd w).

(** ** What a line of the trace format spells *)

(** The nearest [int] to a number: the number itself when it fits. *)
Definition clamp_int (z : Z) : Z :=
  if z >? INT_MAX then INT_MAX
  else if z <? INT_MIN then INT_MIN
  else z.

Definition fits_int (z : Z) : bool := (INT_MIN <=? z) && (z <=? INT_MAX).

(** The [int] an operand word denotes, when it denotes one. *)
Definition int_operand (w : string) : option Z :=
  match decimal_value w with
  | Some z => if fits_int z then Some z else None
  | None => None
  end.

(** The operation a line of one of the three forms spells, its operands
    being [int]s: [read <field>] a read of the field, [write <field> <value>]
    a write of the value to the field, [string] a snapshot. *)
Definition trace_action (line : string) : option Action :=
  if trace_form line then
    match words line with
    | [_; fw] =>
        match int_operand fw with
        | Some f => Some {| op := READ; field := f; value := 0 |}
        | None => None
        end
    | [_; fw; vw] =>
        match int_operand fw, int_operand vw with
        | Some f, Some v => Some {| op := WRITE; field := f; value := v |}
        | _, _ => None
        end
    | _ => Some {| op := STR; field := -1; value := 0 |}
    end
  else None.

(** * Properties *)

(** ** Slots of a two-element array *)

Lemma at_assign_same {A : Type} (a : Array2.t A) (i : Z) (v : A) :
  Array2.at_ (Array2.assign a i v) i = v.
Proof. unfold Array2.at_, Array2.assign. destruct (i =? 0); reflexivity. Qed.

Lemma at_assign_other {A : Type} (a : Array2.t A) (i j : Z) (v : A) :
  valid_index i -> valid_index j -> i <> j ->
  Array2.at_ (Array2.assign a i v) j = Array2.at_ a j.
Proof.
  unfold Array2.at_, Array2.assign.
  intros [-> | ->] [-> | ->] Hne; try congruence; reflexivity.
Qed.

Lemma assign_at {A : Type} (a : Array2.t A) (i : Z) :
  Array2.assign a i (Array2.at_ a i) = a.
Proof.
  unfold Array2.at_, Array2.assign. destruct a, (i =? 0); reflexivity.
Qed.

Lemma assign_assign {A : Type} (a : Array2.t A) (i : Z) (v w : A) :
  Array2.assign (Array2.assign a i v) i w = Array2.assign a i w.
Proof. unfold Array2.assign. destruct (i =? 0); reflexivity. Qed.

Lemma release_acquire (s : SafeStruct) (m : Z) :
  locked s m = false -> release m (acquire m s) = s.
Proof.
  unfold locked, release, acquire. intros Hfree. destruct s as [d ms]. simpl in *.
  rewrite assign_assign, <- Hfree, assign_at. reflexivity.
Qed.

Lemma valid_index_guard (field : Z) :
  (field <? 0) || (field >=? Z.of_nat Array2.size) = false <-> valid_index field.
Proof.
  unfold valid_index, Array2.size. rewrite orb_false_iff, Z.ltb_ge, Z.geb_leb, Z.leb_gt.
  lia.
Qed.

(** ** Running one program alone *)

Lemma run_bind {A B : Type} (p : prog A) (q : A -> prog B) (s : SafeStruct) :
  run (bind p q) s =
  match run p s with
  | Some (a, s') => run (q a) s'
  | None => None
  end.
Proof.
  revert s. induction p as [a | m k IH | m k IH | ph k IH | f k IH | f v k IH];
    intros s; simpl.
  - reflexivity.
  - destruct (locked s m); [reflexivity | apply IH].
  - apply IH.
  - destruct ph as [i | i].
    + destruct (locked s i); [reflexivity |].
      destruct (locked s (other i)); [reflexivity | apply IH].
    + destruct (locked s (other i)); [reflexivity | apply IH].
  - apply IH.
  - apply IH.
Qed.

Lemma run_set_valid (field v : Z) (s : SafeStruct) :
  valid_index field -> locked s field = false ->
  run (set field v) s = Some (tt, write field v s).
Proof.
  intros Hv Hfree. unfold set.
  rewrite (proj2 (valid_index_guard field) Hv). simpl. rewrite Hfree.
  f_equal. f_equal. unfold release, write, acquire. simpl.
  destruct s as [d ms]. unfold locked in Hfree. simpl in *.
  rewrite assign_assign, <- Hfree, assign_at. reflexivity.
Qed.

Lemma run_get_valid (field : Z) (s : SafeStruct) :
  valid_index field -> locked s field = false ->
  run (get field) s = Some (Array2.at_ (data s) field, s).
Proof.
  intros Hv Hfree. unfold get.
  rewrite (proj2 (valid_index_guard field) Hv). simpl. rewrite Hfree.
  rewrite release_acquire by assumption. reflexivity.
Qed.

Lemma run_get_blocked (field : Z) (s : SafeStruct) :
  valid_index field -> locked s field = true -> run (get field) s = None.
Proof.
  intros Hv Hl. unfold get.
  rewrite (proj2 (valid_index_guard field) Hv). simpl. rewrite Hl. reflexivity.
Qed.

Lemma get_invalid (field : Z) : ~ valid_index field -> get field = Ret 0.
Proof.
  intros Hn. unfold get.
  destruct ((field <? 0) || (field >=? Z.of_nat Array2.size)) eqn:E; auto.
  apply valid_index_guard in E. contradiction.
Qed.

Lemma set_invalid (field v : Z) : ~ valid_index field -> set field v = Ret tt.
Proof.
  intros Hn. unfold set.
  destruct ((field <? 0) || (field >=? Z.of_nat Array2.size)) eqn:E; auto.
  apply valid_index_guard in E. contradiction.
Qed.

(** ** The lock discipline of the methods *)

Lemma disciplined_bind {A B : Type} (h : Array2.t bool) (p : prog A)
  (q : A -> prog B) :
  disciplined h p ->
  (forall a, disciplined none_held (q a)) ->
  disciplined h (bind p q).
Proof.
  intros Hp Hq. induction Hp; simpl; try (constructor; auto; fail).
  apply Hq.
Qed.

Lemma disciplined_set (field v : Z) : disciplined none_held (set field v).
Proof.
  unfold set.
  destruct ((field <? 0) || (field >=? Z.of_nat Array2.size)) eqn:E.
  - constructor.
  - apply valid_index_guard in E. simpl.
    apply d_lock; [assumption |].
    apply d_store; [assumption | apply at_assign_same |].
    apply d_unlock; [assumption | apply at_assign_same |].
    rewrite assign_assign.
    replace (Array2.assign none_held field false) with none_held
      by (destruct E as [-> | ->]; reflexivity).
    constructor.
Qed.

Lemma disciplined_get (field : Z) : disciplined none_held (get field).
Proof.
  unfold get.
  destruct ((field <? 0) || (field >=? Z.of_nat Array2.size)) eqn:E.
  - constructor.
  - apply valid_index_guard in E. simpl.
    apply d_lock; [assumption |].
    apply d_load; [assumption | apply at_assign_same |]. intros v.
    apply d_unlock; [assumption | apply at_assign_same |].
    rewrite assign_assign.
    replace (Array2.assign none_held field false) with none_held
      by (destruct E as [-> | ->]; reflexivity).
    constructor.
Qed.

Lemma disciplined_to_std_string : disciplined none_held to_std_string.
Proof.
  unfold to_std_string. simpl.
  apply d_want; [left; reflexivity |].
  apply d_load; [left; reflexivity | reflexivity |]. intros d0.
  apply d_load; [right; reflexivity | reflexivity |]. intros d1.
  apply d_unlock; [right; reflexivity | reflexivity |].
  apply d_unlock; [left; reflexivity | reflexivity |].
  constructor.
Qed.

Lemma disciplined_execute_one (a : Action) : disciplined none_held (execute_one a).
Proof.
  unfold execute_one. destruct (op a).
  - apply disciplined_bind; [apply disciplined_get | constructor].
  - apply disciplined_set.
  - apply disciplined_bind; [apply disciplined_to_std_string | constructor].
Qed.

Lemma disciplined_execute (actions : list Action) :
  disciplined none_held (execute actions).
Proof.
  induction actions as [| a rest IH]; simpl.
  - constructor.
  - apply disciplined_bind; [apply disciplined_execute_one | intros _; exact IH].
Qed.

(** ** Who holds what *)

Lemma at_held_by (owner : Array2.t (option nat)) (t : nat) (m : Z) :
  Array2.at_ (held_by owner t) m = bool_decide (Array2.at_ owner m = Some t).
Proof. unfold Array2.at_, held_by. destruct (m =? 0); reflexivity. Qed.

Lemma held_by_assign_self (owner : Array2.t (option nat)) (t : nat) (m : Z) :
  held_by (Array2.assign owner m (Some t)) t
  = Array2.assign (held_by owner t) m true.
Proof.
  unfold held_by, Array2.assign. destruct owner as [o0 o1].
  destruct (m =? 0); simpl;
    rewrite (bool_decide_eq_true_2 (Some t = Some t)) by reflexivity;
    reflexivity.
Qed.

Lemma held_by_assign_none (owner : Array2.t (option nat)) (t : nat) (m : Z) :
  held_by (Array2.assign owner m None) t
  = Array2.assign (held_by owner t) m false.
Proof. unfold held_by, Array2.assign. destruct (m =? 0); reflexivity. Qed.

Lemma held_by_assign_frame (owner : Array2.t (option nat)) (o : option nat)
  (t : nat) (m : Z) :
  Array2.at_ owner m <> Some t -> o <> Some t ->
  held_by (Array2.assign owner m o) t = held_by owner t.
Proof.
  unfold held_by, Array2.assign, Array2.at_. intros H1 H2.
  destruct (m =? 0); simpl; f_equal;
    rewrite !bool_decide_eq_false_2; auto.
Qed.

Lemma not_none_held (h : Array2.t bool) (m : Z) :
  Array2.at_ h m = true -> h <> none_held.
Proof.
  unfold Array2.at_, none_held. intros H ->. destruct (m =? 0); discriminate.
Qed.

Lemma other_valid (i : Z) : valid_index (other i).
Proof. unfold other, valid_index. destruct (i =? 0); auto. Qed.

Lemma assign_both (i : Z) :
  valid_index i ->
  Array2.assign (Array2.assign none_held i true) (other i) true = both_held.
Proof. intros [-> | ->]; reflexivity. Qed.

Lemma assign_none_false (i : Z) : Array2.assign none_held i false = none_held.
Proof. unfold Array2.assign, none_held. destruct (i =? 0); reflexivity. Qed.

(** ** The invariant is kept by every step *)

Lemma locked_acquire_same (s : SafeStruct) (m : Z) : locked (acquire m s) m = true.
Proof. apply at_assign_same. Qed.

Lemma locked_release_same (s : SafeStruct) (m : Z) : locked (release m s) m = false.
Proof. apply at_assign_same. Qed.

Lemma locked_acquire_other (s : SafeStruct) (m m' : Z) :
  valid_index m -> valid_index m' -> m <> m' ->
  locked (acquire m s) m' = locked s m'.
Proof. apply at_assign_other. Qed.

Lemma locked_release_other (s : SafeStruct) (m m' : Z) :
  valid_index m -> valid_index m' -> m <> m' ->
  locked (release m s) m' = locked s m'.
Proof. apply at_assign_other. Qed.

Lemma valid_index_eq_dec (m m' : Z) : valid_index m -> valid_index m' -> m = m' \/ m <> m'.
Proof. intros _ _. lia. Qed.

(** Thread [t] takes mutex [m], which nobody owned. *)
Lemma invariant_take (owner : Array2.t (option nat)) (s : SafeStruct)
  (ts : list (prog unit)) (t : nat) (m : Z) (p' : prog unit) :
  valid_index m ->
  (t < length ts)%nat ->
  locked s m = false ->
  (forall m', valid_index m' ->
     locked s m' = bool_decide (is_Some (Array2.at_ owner m'))) ->
  (forall m' t', valid_index m' -> Array2.at_ owner m' = Some t' ->
     is_Some (ts !! t')) ->
  (forall t' q, ts !! t' = Some q -> disciplined (held_by owner t') q) ->
  disciplined (Array2.assign (held_by owner t) m true) p' ->
  lock_invariant {| shared := acquire m s; threads := <[t := p']> ts |}.
Proof.
  intros Hm Hlt Hfree Hl Ho Hd Hp'.
  assert (Hnone : Array2.at_ owner m = None).
  { specialize (Hl m Hm). rewrite Hfree in Hl. symmetry in Hl.
    apply bool_decide_eq_false in Hl.
    destruct (Array2.at_ owner m); [exfalso; apply Hl; eauto | reflexivity]. }
  exists (Array2.assign owner m (Some t)). simpl. split; [| split].
  - intros m' Hm'. destruct (valid_index_eq_dec m m' Hm Hm') as [<- | Hne].
    + rewrite locked_acquire_same, at_assign_same.
      symmetry. apply bool_decide_eq_true. eauto.
    + rewrite locked_acquire_other, at_assign_other by assumption. auto.
  - intros m' t' Hm' Hown. apply lookup_lt_is_Some. rewrite length_insert.
    destruct (valid_index_eq_dec m m' Hm Hm') as [<- | Hne].
    + rewrite at_assign_same in Hown. congruence.
    + rewrite at_assign_other in Hown by assumption.
      apply lookup_lt_is_Some. eauto.
  - intros t' q Hq. destruct (decide (t' = t)) as [-> | Hne].
    + rewrite list_lookup_insert_eq in Hq by assumption.
      injection Hq as <-. rewrite held_by_assign_self. exact Hp'.
    + rewrite list_lookup_insert_ne in Hq by congruence.
      rewrite held_by_assign_frame; [auto | rewrite Hnone; discriminate | congruence].
Qed.

(** Thread [t] gives back mutex [m], which it owned. *)
Lemma invariant_give (owner : Array2.t (option nat)) (s : SafeStruct)
  (ts : list (prog unit)) (t : nat) (m : Z) (p' : prog unit) :
  valid_index m ->
  (t < length ts)%nat ->
  Array2.at_ (held_by owner t) m = true ->
  (forall m', valid_index m' ->
     locked s m' = bool_decide (is_Some (Array2.at_ owner m'))) ->
  (forall m' t', valid_index m' -> Array2.at_ owner m' = Some t' ->
     is_Some (ts !! t')) ->
  (forall t' q, ts !! t' = Some q -> disciplined (held_by owner t') q) ->
  disciplined (Array2.assign (held_by owner t) m false) p' ->
  lock_invariant {| shared := release m s; threads := <[t := p']> ts |}.
Proof.
  intros Hm Hlt Hheld Hl Ho Hd Hp'.
  assert (Hown : Array2.at_ owner m = Some t).
  { rewrite at_held_by in Hheld. apply bool_decide_eq_true in Hheld. exact Hheld. }
  exists (Array2.assign owner m None). simpl. split; [| split].
  - intros m' Hm'. destruct (valid_index_eq_dec m m' Hm Hm') as [<- | Hne].
    + rewrite locked_release_same, at_assign_same.
      symmetry. apply bool_decide_eq_false. intros [x Hx]. discriminate.
    + rewrite locked_release_other, at_assign_other by assumption. auto.
  - intros m' t' Hm' Hown'. apply lookup_lt_is_Some. rewrite length_insert.
    destruct (valid_index_eq_dec m m' Hm Hm') as [<- | Hne].
    + rewrite at_assign_same in Hown'. discriminate.
    + rewrite at_assign_other in Hown' by assumption.
      apply lookup_lt_is_Some. eauto.
  - intros t' q Hq. destruct (decide (t' = t)) as [-> | Hne].
    + rewrite list_lookup_insert_eq in Hq by assumption.
      injection Hq as <-. rewrite held_by_assign_none. exact Hp'.
    + rewrite list_lookup_insert_ne in Hq by congruence.
      rewrite held_by_assign_frame; [auto | rewrite Hown; congruence | discriminate].
Qed.

(** Thread [t] moves on without touching a mutex. *)
Lemma invariant_keep (owner : Array2.t (option nat)) (s s' : SafeStruct)
  (ts : list (prog unit)) (t : nat) (p' : prog unit) :
  (t < length ts)%nat ->
  mutexes s' = mutexes s ->
  (forall m', valid_index m' ->
     locked s m' = bool_decide (is_Some (Array2.at_ owner m'))) ->
  (forall m' t', valid_index m' -> Array2.at_ owner m' = Some t' ->
     is_Some (ts !! t')) ->
  (forall t' q, ts !! t' = Some q -> disciplined (held_by owner t') q) ->
  disciplined (held_by owner t) p' ->
  lock_invariant {| shared := s'; threads := <[t := p']> ts |}.
Proof.
  intros Hlt Hmx Hl Ho Hd Hp'.
  exists owner. simpl. split; [| split].
  - intros m' Hm'. unfold locked. rewrite Hmx. apply Hl. assumption.
  - intros m' t' Hm' Hown'. apply lookup_lt_is_Some. rewrite length_insert.
    apply lookup_lt_is_Some. eauto.
  - intros t' q Hq. destruct (decide (t' = t)) as [-> | Hne].
    + rewrite list_lookup_insert_eq in Hq by assumption.
      injection Hq as <-. exact Hp'.
    + rewrite list_lookup_insert_ne in Hq by congruence. auto.
Qed.

Lemma lock_invariant_step (c c' : config) :
  lock_invariant c -> step c c' -> lock_invariant c'.
Proof.
  intros (owner & Hl & Ho & Hd) Hstep.
  destruct Hstep as [s s' ts t p p' Hlook Hin]. simpl in *.
  assert (Hlt : (t < length ts)%nat) by (eapply lookup_lt_Some; eauto).
  pose proof (Hd t p Hlook) as Hp.
  remember (held_by owner t) as h eqn:Hh.
  destruct Hp as [a | m k Hm Hk | h m k Hm Hheld Hk | i k Hi Hk | i k Hi Hk
                 | h f k Hf Hheld Hk | h f v k Hf Hheld Hk]; simpl in Hin.
  - apply elem_of_nil in Hin. contradiction.
  - destruct (locked s m) eqn:Hfree; [apply elem_of_nil in Hin; contradiction |].
    apply list_elem_of_singleton in Hin. injection Hin as -> ->.
    apply (invariant_take owner); auto. rewrite <- Hh. exact Hk.
  - apply list_elem_of_singleton in Hin. injection Hin as -> ->.
    apply (invariant_give owner); auto; rewrite <- Hh; assumption.
  - destruct (locked s i) eqn:Hfree; [apply elem_of_nil in Hin; contradiction |].
    apply list_elem_of_singleton in Hin. injection Hin as -> ->.
    apply (invariant_take owner); auto. rewrite <- Hh.
    apply d_hold; assumption.
  - destruct (locked s (other i)) eqn:Hfree.
    + assert (Hw : forall j, valid_index j ->
                lock_invariant {| shared := release i s;
                                  threads := <[t := StdLock (Want j) k]> ts |}).
      { intros j Hj. apply (invariant_give owner); auto.
        - rewrite <- Hh. apply at_assign_same.
        - rewrite <- Hh, assign_assign, assign_none_false.
          apply d_want; assumption. }
      apply elem_of_cons in Hin. destruct Hin as [Hin | Hin].
      * injection Hin as -> ->. apply Hw. left; reflexivity.
      * apply list_elem_of_singleton in Hin. injection Hin as -> ->.
        apply Hw. right; reflexivity.
    + apply list_elem_of_singleton in Hin. injection Hin as -> ->.
      apply (invariant_take owner); auto using other_valid.
      rewrite <- Hh, assign_both by assumption. exact Hk.
  - apply list_elem_of_singleton in Hin. injection Hin as -> ->.
    apply (invariant_keep owner s); auto. rewrite <- Hh. apply Hk.
  - apply list_elem_of_singleton in Hin. injection Hin as -> ->.
    apply (invariant_keep owner s); auto. rewrite <- Hh. exact Hk.
Qed.

Lemma lock_invariant_rtc (c c' : config) :
  lock_invariant c -> rtc step c c' -> lock_invariant c'.
Proof.
  intros Hinv Hsteps. induction Hsteps as [c | c c1 c2 Hstep _ IH]; auto.
  apply IH. eapply lock_invariant_step; eauto.
Qed.

Lemma lock_invariant_run_once (d : Array2.t Z) (action_lists : list (list Action)) :
  lock_invariant (run_once {| data := d; mutexes := (false, false) |} action_lists).
Proof.
  exists (None, None). unfold run_once. simpl. split; [| split].
  - intros m [-> | ->]; reflexivity.
  - intros m t [-> | ->]; discriminate.
  - intros t p Hp. apply list_lookup_fmap_Some in Hp as (actions & -> & _).
    apply disciplined_execute.
Qed.

(** ** Some thread can always move *)

Lemma holder_enabled {A : Type} (h : Array2.t bool) (p : prog A) (s : SafeStruct) :
  disciplined h p -> h <> none_held -> tsteps s p <> [].
Proof.
  intros Hp Hne. destruct Hp; simpl; try congruence.
  destruct (locked s (other i)); discriminate.
Qed.

Lemma free_enabled {A : Type} (h : Array2.t bool) (p : prog A) (s : SafeStruct) :
  disciplined h p ->
  (forall m, valid_index m -> locked s m = false) ->
  (exists a, p = Ret a) \/ tsteps s p <> [].
Proof.
  intros Hp Hfree. destruct Hp; simpl; eauto; right; try discriminate.
  - rewrite Hfree by assumption. discriminate.
  - rewrite Hfree by assumption. discriminate.
  - destruct (locked s (other i)); discriminate.
Qed.

Lemma enabled_step (s : SafeStruct) (ts : list (prog unit)) (t : nat)
  (p : prog unit) :
  ts !! t = Some p -> tsteps s p <> [] ->
  exists c', step {| shared := s; threads := ts |} c'.
Proof.
  intros Hlook Hen. destruct (tsteps s p) as [| [s' p'] rest] eqn:E; [congruence |].
  eexists. eapply (step_thread s s' ts t p p'); [exact Hlook |].
  rewrite E. apply elem_of_cons. left; reflexivity.
Qed.

Lemma returned_dec (p : prog unit) : {p = Ret tt} + {p <> Ret tt}.
Proof.
  destruct p as [[] | | | | |]; [left; reflexivity | right; discriminate ..].
Qed.

Lemma lock_invariant_progress (c : config) :
  lock_invariant c -> joined c \/ exists c', step c c'.
Proof.
  intros (owner & Hl & Ho & Hd). destruct c as [s ts]. simpl in *.
  destruct (Array2.at_ owner 0) as [t |] eqn:E0.
  { right. destruct (Ho 0 t) as [p Hp]; [left; reflexivity | exact E0 |].
    apply (enabled_step s ts t p Hp).
    apply (holder_enabled (held_by owner t)); [auto |].
    apply (not_none_held _ 0). rewrite at_held_by, E0.
    apply bool_decide_eq_true. reflexivity. }
  destruct (Array2.at_ owner 1) as [t |] eqn:E1.
  { right. destruct (Ho 1 t) as [p Hp]; [right; reflexivity | exact E1 |].
    apply (enabled_step s ts t p Hp).
    apply (holder_enabled (held_by owner t)); [auto |].
    apply (not_none_held _ 1). rewrite at_held_by, E1.
    apply bool_decide_eq_true. reflexivity. }
  assert (Hfree : forall m, valid_index m -> locked s m = false).
  { intros m Hm. rewrite (Hl m Hm). apply bool_decide_eq_false.
    destruct Hm as [-> | ->]; [rewrite E0 | rewrite E1]; intros [x Hx]; discriminate. }
  destruct (Forall_Exists_dec _ _ returned_dec ts) as [Hall | Hex].
  - left. exact Hall.
  - right. apply Exists_exists in Hex as (p & Hin & Hnot).
    apply list_elem_of_lookup in Hin as [t Hp].
    apply (enabled_step s ts t p Hp).
    destruct (free_enabled _ p s (Hd t p Hp) Hfree) as [[[] ->] | Hen]; congruence.
Qed.

(** ** Calls with a field outside the record *)

(** C2: for a field outside {0, 1}, [set] returns at once: it performs no
    lock, load or store at all, so whatever the state of the record (even
    with its mutexes held by others) the call returns and leaves the record
    as it was. *)
Theorem set_out_of_range_no_effect (field value : Z) (s : SafeStruct) :
  field <> 0 -> field <> 1 ->
  set field value = Ret tt /\ run (set field value) s = Some (tt, s).
Proof.
  intros H0 H1.
  assert (Hset : set field value = Ret tt).
  { apply set_invalid. unfold valid_index. lia. }
  rewrite Hset. split; reflexivity.
Qed.

Lemma set_out_of_range_no_effect_witness :
  set 2 5 = Ret tt /\
  run (set 2 5) {| data := (3, 4); mutexes := (true, false) |}
  = Some (tt, {| data := (3, 4); mutexes := (true, false) |}).
Proof. apply set_out_of_range_no_effect; lia. Defined.

(** C3: for a field outside {0, 1}, [get] returns 0 in every state of the
    record, without touching it. *)
Theorem get_out_of_range_returns_zero (field : Z) (s : SafeStruct) :
  field <> 0 -> field <> 1 ->
  run (get field) s = Some (0, s).
Proof.
  intros H0 H1. rewrite get_invalid; [reflexivity |]. unfold valid_index. lia.
Qed.

Lemma get_out_of_range_returns_zero_witness :
  run (get (-1)) {| data := (3, 4); mutexes := (false, true) |}
  = Some (0, {| data := (3, 4); mutexes := (false, true) |}).
Proof. apply get_out_of_range_returns_zero; lia. Defined.

(** ** Programs that only read *)

Lemma thread_step_read_only {A : Type} (s s' : SafeStruct) (p p' : prog A) :
  read_only p -> thread_step (s, p) (s', p') ->
  read_only p' /\ data s' = data s.
Proof.
  unfold thread_step. simpl. intros Hro Hin.
  destruct p as [a | m k | m k | [i | i] k | f k | f v k]; simpl in *.
  - apply elem_of_nil in Hin. contradiction.
  - destruct (locked s m); [apply elem_of_nil in Hin; contradiction |].
    apply list_elem_of_singleton in Hin. injection Hin as -> ->. auto.
  - apply list_elem_of_singleton in Hin. injection Hin as -> ->. auto.
  - destruct (locked s i); [apply elem_of_nil in Hin; contradiction |].
    apply list_elem_of_singleton in Hin. injection Hin as -> ->. auto.
  - destruct (locked s (other i)).
    + apply elem_of_cons in Hin. destruct Hin as [Hin | Hin].
      * injection Hin as -> ->. auto.
      * apply list_elem_of_singleton in Hin. injection Hin as -> ->. auto.
    + apply list_elem_of_singleton in Hin. injection Hin as -> ->. auto.
  - apply list_elem_of_singleton in Hin. injection Hin as -> ->. auto.
  - contradiction.
Qed.

Lemma rtc_thread_step_read_only {A : Type} (x y : SafeStruct * prog A) :
  rtc thread_step x y -> read_only (snd x) ->
  read_only (snd y) /\ data (fst y) = data (fst x).
Proof.
  induction 1 as [x | x y z Hstep _ IH]; [auto |].
  intros Hro. destruct x as [s p], y as [s1 p1]. simpl in *.
  destruct (thread_step_read_only s s1 p p1 Hro Hstep) as [Hro1 Hd].
  destruct (IH Hro1) as [Hroz Hdz]. split; [assumption | congruence].
Qed.

Lemma read_only_get (field : Z) : read_only (get field).
Proof.
  unfold get. destruct ((field <? 0) || (field >=? Z.of_nat Array2.size)); simpl; auto.
Qed.

(** C10: [get] leaves both fields unchanged, for every field argument and in
    every state: a call that returns hands back the record it found, the
    call does return whenever the field is out of range or its mutex is
    free, and no step the call takes while other threads run changes a
    field. *)
Theorem get_leaves_fields_unchanged (field : Z) (s : SafeStruct) :
  (forall v s', run (get field) s = Some (v, s') -> s' = s) /\
  (~ valid_index field \/ locked s field = false ->
   exists v, run (get field) s = Some (v, s)) /\
  (forall s' p', rtc thread_step (s, get field) (s', p') -> data s' = data s).
Proof.
  assert (Hcases : valid_index field \/ ~ valid_index field)
    by (unfold valid_index; lia).
  split; [| split].
  - intros v s' Hrun. destruct Hcases as [Hv | Hn].
    + destruct (locked s field) eqn:Hl.
      * rewrite run_get_blocked in Hrun by assumption. discriminate.
      * rewrite run_get_valid in Hrun by assumption. congruence.
    + rewrite get_invalid in Hrun by assumption. simpl in Hrun. congruence.
  - intros [Hn | Hfree].
    + exists 0. rewrite get_invalid by assumption. reflexivity.
    + destruct Hcases as [Hv | Hn].
      * eexists. apply run_get_valid; assumption.
      * exists 0. rewrite get_invalid by assumption. reflexivity.
  - intros s' p' Hsteps.
    apply (rtc_thread_step_read_only _ _ Hsteps). apply read_only_get.
Qed.

Lemma get_leaves_fields_unchanged_witness :
  exists v, run (get 1) {| data := (3, 4); mutexes := (true, false) |}
            = Some (v, {| data := (3, 4); mutexes := (true, false) |}).
Proof.
  apply (proj1 (proj2 (get_leaves_fields_unchanged 1
                         {| data := (3, 4); mutexes := (true, false) |}))).
  right. reflexivity.
Defined.

(** ** The empty workload *)

(** C6: on a workload of length 0 the trace player has nothing to do: it is
    the program that returns at once, and run on any record it returns that
    record as it was. *)
Theorem execute_empty_no_effect (actions : list Action) (s : SafeStruct) :
  length actions = 0%nat ->
  execute actions = Ret tt /\ run (execute actions) s = Some (tt, s).
Proof.
  intros Hlen. destruct actions as [| a rest]; [| discriminate].
  split; reflexivity.
Qed.

Lemma execute_empty_no_effect_witness :
  execute [] = Ret tt /\
  run (execute []) {| data := (3, 4); mutexes := (false, false) |}
  = Some (tt, {| data := (3, 4); mutexes := (false, false) |}).
Proof. apply execute_empty_no_effect. reflexivity. Defined.

(** ** One thread's steps and [run] agree *)

Lemma locked_acquire_other_slot (s : SafeStruct) (i : Z) :
  locked (acquire i s) (other i) = locked s (other i).
Proof.
  unfold locked, acquire, other, Array2.at_, Array2.assign. simpl.
  destruct (i =? 0); reflexivity.
Qed.

Lemma thread_step_run {A : Type} (s s' : SafeStruct) (p p' : prog A) :
  thread_step (s, p) (s', p') -> run p s = run p' s'.
Proof.
  unfold thread_step. simpl. intros Hin.
  destruct p as [a | m k | m k | [i | i] k | f k | f v k]; simpl in *.
  - apply elem_of_nil in Hin. contradiction.
  - destruct (locked s m); [apply elem_of_nil in Hin; contradiction |].
    apply list_elem_of_singleton in Hin. injection Hin as -> ->. reflexivity.
  - apply list_elem_of_singleton in Hin. injection Hin as -> ->. reflexivity.
  - destruct (locked s i); [apply elem_of_nil in Hin; contradiction |].
    apply list_elem_of_singleton in Hin. injection Hin as -> ->. simpl.
    rewrite locked_acquire_other_slot. destruct (locked s (other i)); reflexivity.
  - destruct (locked s (other i)) eqn:Hl.
    + assert (Hw : forall j, j = 0 \/ j = 1 ->
                run (StdLock (Want j) k) (release i s) = None).
      { intros j Hj. simpl.
        unfold locked, release, other, Array2.at_, Array2.assign in *. simpl in *.
        destruct s as [d [b0 b1]]. simpl in *.
        destruct Hj as [-> | ->]; destruct (i =? 0); simpl in *; subst;
          try reflexivity; destruct b0, b1; reflexivity. }
      apply elem_of_cons in Hin. destruct Hin as [Hin | Hin].
      * injection Hin as -> ->. symmetry. apply Hw. left; reflexivity.
      * apply list_elem_of_singleton in Hin. injection Hin as -> ->.
        symmetry. apply Hw. right; reflexivity.
    + apply list_elem_of_singleton in Hin. injection Hin as -> ->. reflexivity.
  - apply list_elem_of_singleton in Hin. injection Hin as -> ->. reflexivity.
  - apply list_elem_of_singleton in Hin. injection Hin as -> ->. reflexivity.
Qed.

(** A run with one thread: the thread stays alone, and [run] of what is left
    never changes. *)
Lemma single_thread_rtc (c c' : config) :
  rtc step c c' ->
  forall p, threads c = [p] ->
  exists p', threads c' = [p'] /\ run p' (shared c') = run p (shared c).
Proof.
  induction 1 as [c | c c1 c2 Hstep _ IH]; intros p Hp.
  - exists p. auto.
  - destruct Hstep as [s s1 ts t q q1 Hlook Hin]. simpl in *. subst ts.
    destruct t as [| t]; [| destruct t; discriminate].
    injection Hlook as <-.
    destruct (IH q1 eq_refl) as (p' & Hth & Hrun). exists p'. split; [exact Hth |].
    rewrite Hrun. simpl. symmetry. apply thread_step_run. exact Hin.
Qed.

(** The steps of one thread are steps of the whole run. *)
Lemma thread_steps_lift (x y : SafeStruct * prog unit) :
  rtc thread_step x y ->
  forall (ts : list (prog unit)) (t : nat),
    ts !! t = Some (snd x) ->
    rtc step {| shared := fst x; threads := ts |}
             {| shared := fst y; threads := <[t := snd y]> ts |}.
Proof.
  induction 1 as [x | x y z Hstep _ IH]; intros ts t Hlook.
  - rewrite list_insert_id by assumption. apply rtc_refl.
  - destruct x as [s p], y as [s1 p1]. simpl in *.
    eapply rtc_l.
    + apply (step_thread s s1 ts t p p1); [exact Hlook | exact Hstep].
    + specialize (IH (<[t := p1]> ts) t).
      rewrite list_insert_insert_eq in IH. apply IH.
      apply list_lookup_insert_eq. eapply lookup_lt_Some; eauto.
Qed.

(** ** Every run can be completed *)

Lemma thread_step_one {A : Type} (s s' : SafeStruct) (p p' : prog A)
  (y : SafeStruct * prog A) :
  tsteps s p = [(s', p')] -> rtc thread_step (s', p') y -> rtc thread_step (s, p) y.
Proof.
  intros Hsteps Hrest. eapply rtc_l; [| exact Hrest].
  unfold thread_step. simpl. rewrite Hsteps. apply list_elem_of_singleton. reflexivity.
Qed.

(** A thread that holds [h] while every other mutex is free runs to its end,
    and leaves every mutex free. *)
Lemma thread_completes {A : Type} (h : Array2.t bool) (p : prog A) :
  disciplined h p ->
  forall s, (forall m, valid_index m -> locked s m = Array2.at_ h m) ->
  exists a s', rtc thread_step (s, p) (s', Ret a) /\
               (forall m, valid_index m -> locked s' m = false).
Proof.
  induction 1 as [a | m k Hm Hk IH | h m k Hm Hheld Hk IH | i k Hi Hk IH
                 | i k Hi Hk IH | h f k Hf Hheld Hk IH | h f v k Hf Hheld Hk IH];
    intros s Hs.
  - exists a, s. split; [apply rtc_refl |].
    intros m Hm. rewrite (Hs m Hm). destruct Hm as [-> | ->]; reflexivity.
  - destruct (IH (acquire m s)) as (a & s' & Hpath & Hfree).
    { intros m' Hm'. pose proof (Hs m' Hm') as E. pose proof (Hs m Hm) as E'.
      destruct Hm as [-> | ->], Hm' as [-> | ->]; slots; auto. }
    exists a, s'. split; [| exact Hfree].
    eapply thread_step_one; [| exact Hpath].
    simpl. rewrite (Hs m Hm). destruct Hm as [-> | ->]; reflexivity.
  - destruct (IH (release m s)) as (a & s' & Hpath & Hfree).
    { intros m' Hm'. pose proof (Hs m' Hm') as E.
      destruct Hm as [-> | ->], Hm' as [-> | ->]; slots; auto. }
    exists a, s'. split; [| exact Hfree].
    eapply thread_step_one; [reflexivity | exact Hpath].
  - destruct (IH (acquire (other i) (acquire i s))) as (a & s' & Hpath & Hfree).
    { intros m' Hm'. destruct Hi as [-> | ->], Hm' as [-> | ->]; reflexivity. }
    exists a, s'. split; [| exact Hfree].
    pose proof (Hs 0 (or_introl eq_refl)) as E0.
    pose proof (Hs 1 (or_intror eq_refl)) as E1.
    eapply (thread_step_one s (acquire i s)).
    { simpl. destruct Hi as [-> | ->]; [rewrite E0 | rewrite E1]; reflexivity. }
    eapply thread_step_one; [| exact Hpath].
    simpl. rewrite locked_acquire_other_slot.
    destruct Hi as [-> | ->]; unfold other; simpl; [rewrite E1 | rewrite E0];
      reflexivity.
  - destruct (IH (acquire (other i) s)) as (a & s' & Hpath & Hfree).
    { intros m' Hm'. pose proof (Hs m' Hm') as E.
      destruct Hi as [-> | ->], Hm' as [-> | ->]; slots; auto. }
    exists a, s'. split; [| exact Hfree].
    eapply thread_step_one; [| exact Hpath].
    simpl. rewrite (Hs (other i) (other_valid i)).
    destruct Hi as [-> | ->]; reflexivity.
  - destruct (IH (Array2.at_ (data s) f) s Hs) as (a & s' & Hpath & Hfree).
    exists a, s'. split; [| exact Hfree].
    eapply thread_step_one; [reflexivity | exact Hpath].
  - destruct (IH (write f v s) Hs) as (a & s' & Hpath & Hfree).
    exists a, s'. split; [| exact Hfree].
    eapply thread_step_one; [reflexivity | exact Hpath].
Qed.

(** A thread that holds [h] can always go on, whatever the others hold,
    until it holds nothing; the mutexes of the others are left as they
    were. *)
Lemma thread_drains {A : Type} (h : Array2.t bool) (p : prog A) :
  disciplined h p ->
  forall s, (forall m, valid_index m -> Array2.at_ h m = true -> locked s m = true) ->
  exists s' p', rtc thread_step (s, p) (s', p') /\
    (forall m, valid_index m -> locked s' m = locked s m && negb (Array2.at_ h m)).
Proof.
  induction 1 as [a | m k Hm Hk IH | h m k Hm Hheld Hk IH | i k Hi Hk IH
                 | i k Hi Hk IH | h f k Hf Hheld Hk IH | h f v k Hf Hheld Hk IH];
    intros s Hs.
  - exists s, (Ret a). split; [apply rtc_refl |].
    intros m [-> | ->]; slots; rewrite andb_true_r; reflexivity.
  - exists s, (Lock m k). split; [apply rtc_refl |].
    intros m' [-> | ->]; slots; rewrite andb_true_r; reflexivity.
  - destruct (IH (release m s)) as (s' & p' & Hpath & Hflags).
    { intros m' Hm' Hh. pose proof (Hs m' Hm') as E.
      destruct Hm as [-> | ->], Hm' as [-> | ->]; slots; auto; discriminate. }
    exists s', p'. split.
    + eapply thread_step_one; [reflexivity | exact Hpath].
    + intros m' Hm'. rewrite (Hflags m' Hm').
      pose proof (Hs m Hm Hheld) as E.
      destruct Hm as [-> | ->], Hm' as [-> | ->]; slots;
        rewrite ?E, ?Hheld; reflexivity.
  - exists s, (StdLock (Want i) k). split; [apply rtc_refl |].
    intros m' [-> | ->]; slots; rewrite andb_true_r; reflexivity.
  - destruct (locked s (other i)) eqn:Hl.
    + exists (release i s), (StdLock (Want 0) k). split.
      * eapply rtc_l; [| apply rtc_refl]. unfold thread_step. simpl.
        rewrite Hl. apply elem_of_cons. left; reflexivity.
      * intros m' Hm'.
        pose proof (Hs i Hi) as E.
        destruct Hi as [-> | ->], Hm' as [-> | ->]; slots;
          rewrite ?andb_true_r, ?andb_false_r; reflexivity.
    + destruct (IH (acquire (other i) s)) as (s' & p' & Hpath & Hflags).
      { intros m' Hm' _. pose proof (Hs m' Hm') as E.
        destruct Hi as [-> | ->], Hm' as [-> | ->]; slots; auto. }
      exists s', p'. split.
      * eapply thread_step_one; [| exact Hpath]. simpl. rewrite Hl. reflexivity.
      * intros m' Hm'. rewrite (Hflags m' Hm').
        destruct Hi as [-> | ->], Hm' as [-> | ->]; slots;
          rewrite ?Hl, ?andb_false_r; reflexivity.
  - destruct (IH (Array2.at_ (data s) f) s Hs) as (s' & p' & Hpath & Hflags).
    exists s', p'. split; [| exact Hflags].
    eapply thread_step_one; [reflexivity | exact Hpath].
  - destruct (IH (write f v s) Hs) as (s' & p' & Hpath & Hflags).
    exists s', p'. split; [| exact Hflags].
    eapply thread_step_one; [reflexivity | exact Hpath].
Qed.

(** The thread that holds mutex [m] can be run until [m] is free; no mutex
    becomes locked on the way. *)
Lemma holder_lets_go (c : config) (m : Z) :
  lock_invariant c -> valid_index m -> locked (shared c) m = true ->
  exists c', rtc step c c' /\ locked (shared c') m = false /\
    (forall m', valid_index m' -> locked (shared c) m' = false ->
                locked (shared c') m' = false).
Proof.
  intros (owner & Hl & Ho & Hd) Hm Hlocked. destruct c as [s ts]. simpl in *.
  assert (Hown : exists t, Array2.at_ owner m = Some t).
  { rewrite (Hl m Hm) in Hlocked. apply bool_decide_eq_true in Hlocked.
    destruct Hlocked as [t Ht]. eauto. }
  destruct Hown as [t Hown].
  destruct (Ho m t Hm Hown) as [p Hp].
  destruct (thread_drains (held_by owner t) p (Hd t p Hp) s) as (s' & p' & Hpath & Hflags).
  { intros m' Hm' Hheld. rewrite at_held_by in Hheld.
    apply bool_decide_eq_true in Hheld. rewrite (Hl m' Hm').
    apply bool_decide_eq_true. eauto. }
  exists {| shared := s'; threads := <[t := p']> ts |}. split; [| split].
  - apply (thread_steps_lift (s, p) (s', p') Hpath ts t Hp).
  - simpl. rewrite (Hflags m Hm), at_held_by, Hown.
    rewrite bool_decide_eq_true_2 by reflexivity. apply andb_false_r.
  - simpl. intros m' Hm' Hfree. rewrite (Hflags m' Hm'), Hfree. reflexivity.
Qed.

(** From every state of a run, a state with both mutexes free can be
    reached. *)
Lemma run_quiesces (c : config) :
  lock_invariant c ->
  exists c', rtc step c c' /\ forall m, valid_index m -> locked (shared c') m = false.
Proof.
  intros Hinv.
  assert (H0 : exists c1, rtc step c c1 /\ locked (shared c1) 0 = false).
  { destruct (locked (shared c) 0) eqn:E.
    - destruct (holder_lets_go c 0 Hinv (or_introl eq_refl) E) as (c1 & Hp & Hf & _).
      eauto.
    - exists c. split; [apply rtc_refl | exact E]. }
  destruct H0 as (c1 & Hpath1 & Hfree0).
  pose proof (lock_invariant_rtc c c1 Hinv Hpath1) as Hinv1.
  destruct (locked (shared c1) 1) eqn:E.
  - destruct (holder_lets_go c1 1 Hinv1 (or_intror eq_refl) E) as (c2 & Hp & Hf & Hmono).
    exists c2. split; [eapply rtc_trans; eauto |].
    intros m [-> | ->]; [apply Hmono; [left; reflexivity | exact Hfree0] | exact Hf].
  - exists c1. split; [exact Hpath1 |]. intros m [-> | ->]; assumption.
Qed.

Lemma free_holds_nothing (owner : Array2.t (option nat)) (s : SafeStruct) (t : nat) :
  (forall m, valid_index m ->
     locked s m = bool_decide (is_Some (Array2.at_ owner m))) ->
  (forall m, valid_index m -> locked s m = false) ->
  held_by owner t = none_held.
Proof.
  intros Hl Hfree.
  assert (Hnone : forall m, valid_index m -> Array2.at_ owner m = None).
  { intros m Hm. pose proof (Hl m Hm) as E. rewrite (Hfree m Hm) in E.
    symmetry in E. apply bool_decide_eq_false in E.
    destruct (Array2.at_ owner m); [exfalso; apply E; eauto | reflexivity]. }
  pose proof (Hnone 0 (or_introl eq_refl)) as E0.
  pose proof (Hnone 1 (or_intror eq_refl)) as E1.
  unfold held_by, none_held. unfold Array2.at_ in E0, E1. simpl in *.
  rewrite E0, E1. reflexivity.
Qed.

(** With both mutexes free, the threads can be run to their ends one after
    the other: the first [n] of them here. *)
Lemma first_threads_finish (n : nat) (c : config) :
  lock_invariant c ->
  (forall m, valid_index m -> locked (shared c) m = false) ->
  (n <= length (threads c))%nat ->
  exists c', rtc step c c' /\
    (forall m, valid_index m -> locked (shared c') m = false) /\
    length (threads c') = length (threads c) /\
    (forall t, (t < n)%nat -> threads c' !! t = Some (Ret tt)).
Proof.
  intros Hinv Hfree. induction n as [| n IH]; intros Hn.
  - exists c. split; [apply rtc_refl |]. split; [exact Hfree |].
    split; [reflexivity |]. intros t Ht. lia.
  - destruct IH as (c1 & Hpath1 & Hfree1 & Hlen1 & Hdone1); [lia |].
    pose proof (lock_invariant_rtc c c1 Hinv Hpath1) as (owner & Hl & Ho & Hd).
    destruct c1 as [s1 ts1]. simpl in *.
    destruct (lookup_lt_is_Some_2 ts1 n) as [p Hp]; [lia |].
    pose proof (Hd n p Hp) as Hdisc.
    rewrite (free_holds_nothing owner s1 n Hl Hfree1) in Hdisc.
    destruct (thread_completes none_held p Hdisc s1) as ([] & s2 & Hpath2 & Hfree2).
    { intros m Hm. rewrite (Hfree1 m Hm). destruct Hm as [-> | ->]; reflexivity. }
    exists {| shared := s2; threads := <[n := Ret tt]> ts1 |}. simpl.
    split; [| split; [| split]].
    + eapply rtc_trans; [exact Hpath1 |].
      apply (thread_steps_lift (s1, p) (s2, Ret tt) Hpath2 ts1 n Hp).
    + exact Hfree2.
    + rewrite length_insert. exact Hlen1.
    + intros t Ht. destruct (decide (t = n)) as [-> | Hne].
      * apply list_lookup_insert_eq. lia.
      * rewrite list_lookup_insert_ne by congruence. apply Hdone1. lia.
Qed.

(** Whatever state a run is in, there is a way for it to go on until every
    thread has returned. *)
Lemma run_can_complete (c : config) :
  lock_invariant c -> exists s', completes c s'.
Proof.
  intros Hinv.
  destruct (run_quiesces c Hinv) as (c1 & Hpath1 & Hfree1).
  pose proof (lock_invariant_rtc c c1 Hinv Hpath1) as Hinv1.
  destruct (first_threads_finish (length (threads c1)) c1 Hinv1 Hfree1 (le_n _))
    as (c2 & Hpath2 & _ & Hlen & Hdone).
  exists (shared c2), c2. split; [eapply rtc_trans; eauto |].
  split; [| reflexivity].
  unfold joined. apply Forall_lookup. intros t p Hp.
  rewrite Hdone in Hp; [congruence |].
  rewrite <- Hlen. eapply lookup_lt_Some; eauto.
Qed.

(** Alone on a record whose mutexes are free, the trace player always
    returns, and leaves the mutexes free. *)
Lemma execute_returns (actions : list Action) (s : SafeStruct) :
  (forall m, valid_index m -> locked s m = false) ->
  exists s', run (execute actions) s = Some (tt, s') /\
             (forall m, valid_index m -> locked s' m = false).
Proof.
  intros Hfree.
  destruct (thread_completes none_held (execute actions)
              (disciplined_execute actions) s) as ([] & s' & Hpath & Hfree').
  { intros m Hm. rewrite (Hfree m Hm). destruct Hm as [-> | ->]; reflexivity. }
  exists s'. split; [| exact Hfree'].
  assert (Hrun : forall x y : SafeStruct * prog unit,
            rtc thread_step x y -> run (snd x) (fst x) = run (snd y) (fst y)).
  { induction 1 as [x | [s1 p1] [s2 p2] z Hstep _ IH]; [reflexivity |].
    rewrite <- IH. apply thread_step_run. exact Hstep. }
  apply (Hrun _ _ Hpath).
Qed.

(** ** Write, then read *)

(** C4: a single worker replaying [Write(0, 7)] then [Read(0)] on a new
    record can always finish, and however its run went, the record it
    leaves has 7 in field 0, which is what a [get(0)] then observes. *)
Theorem write_then_read_field0 :
  let c0 := run_once SafeStruct_init
              [[ {| op := WRITE; field := 0; value := 7 |};
                 {| op := READ; field := 0; value := 0 |} ]] in
  (exists s', completes c0 s') /\
  (forall s', completes c0 s' ->
     Array2.at_ (data s') 0 = 7 /\ run (get 0) s' = Some (7, s')).
Proof.
  intros c0. split.
  - apply run_can_complete. apply (lock_invariant_run_once (0, 0)).
  - intros s' (c' & Hpath & Hjoined & Hs').
    destruct (single_thread_rtc c0 c' Hpath _ eq_refl) as (p' & Hth & Hrun).
    unfold joined in Hjoined. rewrite Hth in Hjoined.
    apply Forall_cons in Hjoined as [-> _].
    simpl in Hrun. rewrite Hs' in Hrun.
    vm_compute in Hrun. injection Hrun as ->. split; reflexivity.
Qed.

(** ** No deadlock *)

(** C8: threads replaying any workloads on one record never deadlock.  In
    every state a run of [run_once] can reach, either every thread has
    returned or some thread can take a step; and from every such state the
    run can still be brought to its end.  The snapshot takes its two mutexes
    through [std::lock], which never blocks on one mutex while holding the
    other; [get] and [set] hold one mutex and never ask for a second. *)
Theorem snapshot_never_deadlocks (d : Array2.t Z)
  (action_lists : list (list Action)) (c : config) :
  rtc step (run_once {| data := d; mutexes := (false, false) |} action_lists) c ->
  ~ deadlocked c /\ exists s', completes c s'.
Proof.
  intros Hreach.
  assert (Hinv : lock_invariant c).
  { eapply lock_invariant_rtc; [apply lock_invariant_run_once | exact Hreach]. }
  split.
  - intros [Hnot Hstuck].
    destruct (lock_invariant_progress c Hinv) as [Hj | [c' Hstep]].
    + exact (Hnot Hj).
    + exact (Hstuck c' Hstep).
  - apply run_can_complete. exact Hinv.
Qed.

Lemma snapshot_never_deadlocks_witness :
  let c :=
    {| shared := acquire 0 SafeStruct_init;
       threads :=
         [ StdLock (Hold 0)
             (Load 0 (fun d0 => Load 1 (fun d1 =>
                Unlock 1 (Unlock 0 (execute [])))));
           execute [ {| op := WRITE; field := 1; value := 5 |} ];
           execute [ {| op := STR; field := -1; value := 0 |} ] ] |} in
  ~ deadlocked c /\ exists s', completes c s'.
Proof.
  intros c.
  apply (snapshot_never_deadlocks (0, 0)
           [ [ {| op := STR; field := -1; value := 0 |} ];
             [ {| op := WRITE; field := 1; value := 5 |} ];
             [ {| op := STR; field := -1; value := 0 |} ] ]).
  apply rtc_once.
  refine (step_thread SafeStruct_init (acquire 0 SafeStruct_init)
            (map execute
               [ [ {| op := STR; field := -1; value := 0 |} ];
                 [ {| op := WRITE; field := 1; value := 5 |} ];
                 [ {| op := STR; field := -1; value := 0 |} ] ])
            0 (execute [ {| op := STR; field := -1; value := 0 |} ])
            (StdLock (Hold 0)
               (Load 0 (fun d0 => Load 1 (fun d1 =>
                  Unlock 1 (Unlock 0 (execute []))))))
            _ _).
  - reflexivity.
  - simpl. apply list_elem_of_singleton. reflexivity.
Defined.

(** ** [to_string] writes decimal numerals *)

Lemma string_app_assoc (a b c : string) :
  ((a ++ b) ++ c = a ++ (b ++ c))%string.
Proof. induction a as [| x a IH]; simpl; [reflexivity | rewrite IH; reflexivity]. Qed.

Lemma digit_char_spec (d : Z) :
  0 <= d < 10 ->
  isdigit (digit_char d) = true /\
  Z.of_nat (nat_of_ascii (digit_char d)) - 48 = d /\
  (Ascii.eqb (digit_char d) "-" = false) /\
  (Ascii.eqb (digit_char d) "0" = (d =? 0)).
Proof.
  intros Hd.
  assert (H : d = 0 \/ d = 1 \/ d = 2 \/ d = 3 \/ d = 4 \/ d = 5 \/ d = 6 \/
              d = 7 \/ d = 8 \/ d = 9) by lia.
  repeat (destruct H as [-> | H]; [repeat split; reflexivity |]).
  subst d. repeat split; reflexivity.
Qed.

(** The digits come out last digit last. *)
Lemma digits_of_acc (fuel : nat) (n : Z) (acc : string) :
  digits_of fuel n acc = (digits_of fuel n EmptyString ++ acc)%string.
Proof.
  revert n acc. induction fuel as [| fuel IH]; intros n acc; simpl; [reflexivity |].
  destruct (n <? 10); [reflexivity |].
  rewrite (IH (n / 10) (String _ acc)), (IH (n / 10) (String _ EmptyString)).
  rewrite string_app_assoc. reflexivity.
Qed.

Lemma digits_of_last (fuel : nat) (n : Z) :
  digits_of (S fuel) n EmptyString =
  ((if (n <? 10)%Z then EmptyString else digits_of fuel (n / 10)%Z EmptyString)
   ++ String (digit_char (n mod 10)%Z) EmptyString)%string.
Proof.
  simpl. destruct (n <? 10); [reflexivity |]. apply digits_of_acc.
Qed.

Lemma digits_value_last (s : string) (c : ascii) (acc : Z) :
  isdigit c = true ->
  digits_value (s ++ String c EmptyString) acc =
  option_map (fun v => 10 * v + (Z.of_nat (nat_of_ascii c) - 48)) (digits_value s acc).
Proof.
  intros Hc. revert acc. induction s as [| x s IH]; intros acc; simpl.
  - rewrite Hc. reflexivity.
  - destruct (isdigit x); [apply IH | reflexivity].
Qed.

Lemma digits_of_value (fuel : nat) (n : Z) :
  0 <= n < 10 ^ Z.of_nat fuel ->
  digits_value (digits_of fuel n EmptyString) 0 = Some n.
Proof.
  revert n. induction fuel as [| fuel IH]; intros n Hn.
  - simpl in *. f_equal. lia.
  - rewrite digits_of_last.
    destruct (digit_char_spec (n mod 10)) as (Hdig & Hval & _);
      [apply Z.mod_pos_bound; lia |].
    rewrite digits_value_last by exact Hdig. rewrite Hval.
    destruct (n <? 10) eqn:E.
    + apply Z.ltb_lt in E. simpl. f_equal. rewrite Z.mod_small by lia. lia.
    + apply Z.ltb_ge in E. rewrite IH.
      * simpl. f_equal. pose proof (Z.div_mod n 10). lia.
      * rewrite Nat2Z.inj_succ, Z.pow_succ_r in Hn by lia. split.
        -- apply Z.div_pos; lia.
        -- apply Z.div_lt_upper_bound; lia.
Qed.

(** A positive number starts with a digit other than 0, and a number below
    ten is one digit. *)
Lemma digits_of_head (fuel : nat) (n : Z) :
  0 <= n ->
  exists c rest,
    digits_of (S fuel) n EmptyString = String c rest /\
    isdigit c = true /\
    (0 < n < 10 ^ Z.of_nat (S fuel) -> Ascii.eqb c "0" = false) /\
    (n < 10 -> rest = EmptyString).
Proof.
  revert n. induction fuel as [| fuel IH]; intros n Hn.
  - destruct (digit_char_spec (n mod 10)) as (Hdig & _ & _ & Hz);
      [apply Z.mod_pos_bound; lia |].
    exists (digit_char (n mod 10)), EmptyString.
    split; [simpl; destruct (n <? 10); reflexivity |].
    split; [exact Hdig |]. split; [| reflexivity].
    intros Hpos. change (10 ^ Z.of_nat 1) with 10 in Hpos.
    rewrite Hz. apply Z.eqb_neq. rewrite Z.mod_small; lia.
  - rewrite digits_of_last. destruct (n <? 10) eqn:E.
    + destruct (digit_char_spec (n mod 10)) as (Hdig & _ & _ & Hz);
        [apply Z.mod_pos_bound; lia |].
      apply Z.ltb_lt in E. simpl. eexists _, _. split; [reflexivity |].
      split; [exact Hdig |]. split; auto.
      intros Hpos. rewrite Hz. apply Z.eqb_neq. rewrite Z.mod_small; lia.
    + apply Z.ltb_ge in E.
      destruct (IH (n / 10)) as (c & rest & Heq & Hdig & Hnz & _);
        [apply Z.div_pos; lia |].
      rewrite Heq. simpl. eexists _, _. split; [reflexivity |].
      split; [exact Hdig |]. split.
      * intros Hpos. apply Hnz.
        rewrite (Nat2Z.inj_succ (S fuel)), Z.pow_succ_r in Hpos by lia. split.
        -- apply Z.div_str_pos. lia.
        -- apply Z.div_lt_upper_bound; lia.
      * intros Hlt. lia.
Qed.

Lemma isdigit_not_minus (c : ascii) : isdigit c = true -> Ascii.eqb c "-" = false.
Proof.
  intros Hc. destruct (Ascii.eqb c "-") eqn:E; [| reflexivity].
  apply Ascii.eqb_eq in E. subst c. discriminate.
Qed.

Lemma enough_fuel (n : Z) :
  0 <= n -> n < 10 ^ Z.of_nat (S (Z.to_nat (Z.log2 n))).
Proof.
  intros Hn. rewrite Nat2Z.inj_succ, Z2Nat.id by apply Z.log2_nonneg.
  destruct (Z.eq_dec n 0) as [-> | Hne]; [reflexivity |].
  pose proof (Z.log2_spec n ltac:(lia)) as [_ Hlt].
  eapply Z.lt_le_trans; [exact Hlt |].
  apply Z.pow_le_mono_l. pose proof (Z.log2_nonneg n). lia.
Qed.

(** [to_string] produces the decimal representation of its argument. *)
Lemma to_string_decimal (z : Z) : decimal_repr z (to_string z).
Proof.
  unfold decimal_repr, to_string.
  destruct (z <? 0) eqn:Hneg.
  - apply Z.ltb_lt in Hneg.
    pose proof (enough_fuel (- z) ltac:(lia)) as Hfuel.
    destruct (digits_of_head (Z.to_nat (Z.log2 (- z))) (- z) ltac:(lia))
      as (c & rest & Heq & Hdig & Hnz & _).
    assert (Hnn : 0 <= - z) by lia.
    pose proof (digits_of_value _ (- z) (conj Hnn Hfuel)) as Hval.
    unfold decimal_value, normal_numeral.
    change (Ascii.eqb "-" "-") with true. cbv iota.
    rewrite Hval, Heq. simpl. rewrite Hnz by lia. split; [f_equal; lia | reflexivity].
  - apply Z.ltb_ge in Hneg.
    pose proof (enough_fuel z Hneg) as Hfuel.
    destruct (digits_of_head (Z.to_nat (Z.log2 z)) z Hneg)
      as (c & rest & Heq & Hdig & Hnz & Hone).
    pose proof (digits_of_value _ z (conj Hneg Hfuel)) as Hval.
    unfold decimal_value, normal_numeral. rewrite Heq in *.
    rewrite (isdigit_not_minus c Hdig). split; [exact Hval |].
    destruct (Z.eq_dec z 0) as [-> | Hne].
    + rewrite Hone by lia. reflexivity.
    + simpl. rewrite Hnz by lia. apply orb_true_r.
Qed.

(** *** The decimal representation is unique *)

Lemma string_snoc_ind (P : string -> Prop) :
  P EmptyString ->
  (forall s c, P s -> P (s ++ String c EmptyString)%string) ->
  forall s, P s.
Proof.
  intros Hnil Hsnoc s.
  rewrite <- (string_of_list_ascii_of_string s).
  induction (list_ascii_of_string s) as [| c l IH] using rev_ind; [exact Hnil |].
  replace (string_of_list_ascii (l ++ [c]))
    with (string_of_list_ascii l ++ String c EmptyString)%string; [apply Hsnoc, IH |].
  clear. induction l as [| x l IH]; simpl; [reflexivity | rewrite IH; reflexivity].
Qed.

Lemma digits_value_snoc (s : string) (c : ascii) (acc : Z) :
  digits_value (s ++ String c EmptyString) acc =
  match digits_value s acc with
  | Some v => if isdigit c then Some (10 * v + (Z.of_nat (nat_of_ascii c) - 48)) else None
  | None => None
  end.
Proof.
  revert acc. induction s as [| x s IH]; intros acc; simpl.
  - destruct (isdigit c); reflexivity.
  - destruct (isdigit x); [apply IH | reflexivity].
Qed.

Lemma isdigit_value (c : ascii) :
  isdigit c = true ->
  0 <= Z.of_nat (nat_of_ascii c) - 48 < 10 /\
  digit_char (Z.of_nat (nat_of_ascii c) - 48) = c.
Proof.
  unfold isdigit, digit_char. intros H. apply andb_true_iff in H as [H1 H2].
  apply Nat.leb_le in H1. apply Nat.leb_le in H2. split; [lia |].
  replace (48 + Z.to_nat (Z.of_nat (nat_of_ascii c) - 48))%nat with (nat_of_ascii c)
    by lia.
  apply ascii_nat_embedding.
Qed.

Lemma leading_zero_snoc (s : string) (c : ascii) :
  is_empty s = false ->
  leading_zero (s ++ String c EmptyString) = leading_zero s.
Proof. destruct s; [discriminate | reflexivity]. Qed.

(** Digits without a leading zero are the digits [to_string] writes for the
    number they denote. *)
Lemma digits_canonical (s : string) :
  leading_zero s = false ->
  forall n, digits_value s 0 = Some n ->
  (s = EmptyString /\ n = 0) \/
  (0 < n /\ forall fuel, n < 10 ^ Z.of_nat fuel -> digits_of fuel n EmptyString = s).
Proof.
  induction s as [| s c IH] using string_snoc_ind; intros Hlz n Hn.
  - left. simpl in Hn. split; congruence.
  - right. rewrite digits_value_snoc in Hn.
    destruct (digits_value s 0) as [m |] eqn:Hm; [| discriminate].
    destruct (isdigit c) eqn:Hc; [| discriminate]. injection Hn as <-.
    destruct (isdigit_value c Hc) as [Hd Hchar].
    set (d := Z.of_nat (nat_of_ascii c) - 48) in *.
    destruct s as [| x s'] eqn:Es.
    + simpl in Hm. injection Hm as <-. simpl in Hlz.
      assert (Hd0 : d <> 0).
      { intros E. rewrite E in Hchar. rewrite <- Hchar in Hlz. discriminate. }
      split; [lia |]. intros fuel Hfuel.
      destruct fuel as [| fuel]; [simpl in Hfuel; lia |].
      rewrite digits_of_last.
      replace (10 * 0 + d <? 10) with true by (symmetry; apply Z.ltb_lt; lia).
      cbn [String.append]. rewrite Z.mod_small by lia.
      rewrite Z.mul_0_r, Z.add_0_l, Hchar. reflexivity.
    + rewrite <- Es in *.
      assert (Hne : is_empty s = false) by (rewrite Es; reflexivity).
      rewrite leading_zero_snoc in Hlz by exact Hne.
      destruct (IH Hlz m eq_refl) as [[E _] | [Hpos Hcanon]];
        [rewrite E in Hne; discriminate |].
      split; [lia |]. intros fuel Hfuel.
      destruct fuel as [| fuel]; [simpl in Hfuel; lia |].
      rewrite digits_of_last.
      replace (10 * m + d <? 10) with false by (symmetry; apply Z.ltb_ge; lia).
      replace ((10 * m + d) / 10) with m by (apply Z.div_unique with d; lia).
      replace ((10 * m + d) mod 10) with d by (apply Z.mod_unique with m; lia).
      rewrite Hchar, Hcanon; [reflexivity |].
      rewrite Nat2Z.inj_succ, Z.pow_succ_r in Hfuel by lia. lia.
Qed.

(** A number has one decimal representation: the one [to_string] writes. *)
Lemma decimal_repr_unique (z : Z) (s : string) :
  decimal_repr z s -> s = to_string z.
Proof.
  intros [Hval Hnorm]. unfold decimal_value, normal_numeral in *.
  destruct s as [| c ds]; [discriminate |].
  destruct (Ascii.eqb c "-") eqn:Hc.
  - apply Ascii.eqb_eq in Hc. subst c.
    destruct (is_empty ds) eqn:He; [discriminate |]. simpl in Hnorm.
    apply negb_true_iff in Hnorm.
    destruct (digits_value ds 0) as [m |] eqn:Hm; [| discriminate].
    injection Hval as <-.
    destruct (digits_canonical ds Hnorm m Hm) as [[E _] | [Hpos Hcanon]];
      [rewrite E in He; discriminate |].
    unfold to_string.
    replace (- m <? 0) with true by (symmetry; apply Z.ltb_lt; lia).
    rewrite Z.opp_involutive. f_equal. symmetry. apply Hcanon.
    apply enough_fuel. lia.
  - destruct (is_empty ds) eqn:He.
    + destruct ds; [| discriminate]. simpl in Hval.
      destruct (isdigit c) eqn:Hd; [| discriminate]. injection Hval as <-.
      destruct (isdigit_value c Hd) as [Hrange Hchar].
      unfold to_string. rewrite Z.mul_0_r, Z.add_0_l.
      set (d := Z.of_nat (nat_of_ascii c) - 48) in *.
      replace (d <? 0) with false by (symmetry; apply Z.ltb_ge; lia).
      rewrite digits_of_last.
      replace (d <? 10) with true by (symmetry; apply Z.ltb_lt; lia).
      cbn [String.append]. rewrite Z.mod_small by lia. rewrite Hchar. reflexivity.
    + simpl in Hnorm. apply negb_true_iff in Hnorm.
      destruct (digits_canonical (String c ds) Hnorm z Hval) as [[E _] | [Hpos Hcanon]];
        [discriminate |].
      unfold to_string.
      replace (z <? 0) with false by (symmetry; apply Z.ltb_ge; lia).
      symmetry. apply Hcanon. apply enough_fuel. lia.
Qed.

(** ** The snapshot *)

Lemma run_to_std_string (s : SafeStruct) :
  run to_std_string s =
  if locked s 0 || locked s 1 then None
  else Some ((to_string (Array2.at_ (data s) 0) ++ " "
              ++ to_string (Array2.at_ (data s) 1))%string, s).
Proof.
  unfold to_std_string. simpl. change (other 0) with 1.
  destruct s as [d [b0 b1]]. unfold locked. simpl.
  destruct b0; [reflexivity |]. destruct b1; reflexivity.
Qed.

(** C9: the snapshot returns the decimal representation of field 0, one
    space, and the decimal representation of field 1, in that order.  It
    returns as soon as both mutexes are free, leaving the record as it was,
    and it returns nothing else. *)
Theorem snapshot_returns_both_fields (s : SafeStruct) (a b : string) :
  decimal_repr (Array2.at_ (data s) 0) a ->
  decimal_repr (Array2.at_ (data s) 1) b ->
  (locked s 0 = false -> locked s 1 = false ->
   run to_std_string s = Some ((a ++ " " ++ b)%string, s)) /\
  (forall r s', run to_std_string s = Some (r, s') ->
                r = (a ++ " " ++ b)%string /\ s' = s).
Proof.
  intros Ha Hb.
  rewrite (decimal_repr_unique _ a Ha), (decimal_repr_unique _ b Hb).
  rewrite run_to_std_string. split.
  - intros -> ->. reflexivity.
  - intros r s' Hrun. destruct (locked s 0 || locked s 1); [discriminate |].
    injection Hrun as <- <-. split; reflexivity.
Qed.

Lemma snapshot_returns_both_fields_witness :
  run to_std_string {| data := (-5, 120); mutexes := (false, false) |}
  = Some ("-5 120"%string, {| data := (-5, 120); mutexes := (false, false) |}).
Proof.
  refine (proj1 (snapshot_returns_both_fields
                   {| data := (-5, 120); mutexes := (false, false) |}
                   "-5" "120" _ _) eq_refl eq_refl).
  - split; reflexivity.
  - split; reflexivity.
Defined.

Example snapshot_of_minus5_120 :
  run to_std_string {| data := (-5, 120); mutexes := (false, false) |}
  = Some ("-5 120"%string, {| data := (-5, 120); mutexes := (false, false) |}).
Proof. reflexivity. Qed.

(** ** Cutting a workload into pieces *)

Lemma piece_nops_spec (num_ops t i : Z) :
  0 <= num_ops < 2 ^ 64 -> 1 <= t < 2 ^ 31 -> 0 <= i ->
  piece_nops num_ops t i = num_ops / t + (if i <? num_ops mod t then 1 else 0).
Proof.
  intros Hn Ht Hi. unfold piece_nops, to_size_t, to_int.
  change (2 ^ 64) with 18446744073709551616 in *.
  change (2 ^ 32) with 4294967296 in *.
  change (2 ^ 31) with 2147483648 in *.
  rewrite (Z.mod_small t) by lia.
  pose proof (Z.mod_pos_bound num_ops t ltac:(lia)) as Hrem.
  pose proof (Z.div_mod num_ops t ltac:(lia)) as Hdm.
  assert (Hbase : 0 <= num_ops / t) by (apply Z.div_pos; lia).
  replace ((num_ops mod t + 2147483648) mod 4294967296 - 2147483648)
    with (num_ops mod t)
    by (rewrite (Z.mod_small (num_ops mod t + 2147483648)); lia).
  apply Z.mod_small. destruct (i <? num_ops mod t) eqn:E.
  - apply Z.ltb_lt in E. nia.
  - nia.
Qed.

Lemma sum_nops_app (l1 l2 : list generate_call) :
  sum_nops (l1 ++ l2) = sum_nops l1 + sum_nops l2.
Proof.
  unfold sum_nops. induction l1 as [| c l1 IH]; simpl; [reflexivity | lia].
Qed.

Lemma sum_nops_pieces (num_ops t : Z) (tags : list string) (variant : nat) (n : nat) :
  0 <= num_ops < 2 ^ 64 -> 1 <= t < 2 ^ 31 ->
  sum_nops
    (map (fun i => {| call_filename := trace_filename tags variant t i;
                      call_nops := piece_nops num_ops t i;
                      call_variant := variant |})
         (map (fun k => 0 + Z.of_nat k) (seq 0 n)))
  = Z.of_nat n * (num_ops / t) + Z.min (Z.of_nat n) (num_ops mod t).
Proof.
  intros Hn Ht.
  pose proof (Z.mod_pos_bound num_ops t ltac:(lia)) as Hrem.
  induction n as [| n IH].
  - simpl. lia.
  - rewrite seq_S, !map_app, sum_nops_app, IH. simpl.
    rewrite piece_nops_spec by lia. unfold sum_nops. simpl.
    rewrite Z.add_0_l, Nat2Z.inj_succ.
    destruct (Z.of_nat n <? num_ops mod t) eqn:E.
    + apply Z.ltb_lt in E. lia.
    + apply Z.ltb_ge in E. lia.
Qed.

(** C1: cutting [num_ops] operations into [t >= 1] pieces gives [t] pieces;
    the first [num_ops mod t] of them have [num_ops / t + 1] operations, the
    others [num_ops / t], and together they have exactly [num_ops]. *)
Theorem partition_sizes (num_ops t : Z) (tags : list string) (variant : nat) :
  0 <= num_ops < 2 ^ 64 -> 1 <= t < 2 ^ 31 ->
  length (generate_pieces num_ops tags t variant) = Z.to_nat t /\
  (forall (i : nat) (c : generate_call),
     generate_pieces num_ops tags t variant !! i = Some c ->
     call_nops c =
       if Z.of_nat i <? num_ops mod t then num_ops / t + 1 else num_ops / t) /\
  sum_nops (generate_pieces num_ops tags t variant) = num_ops.
Proof.
  intros Hn Ht. unfold generate_pieces, int_range. rewrite Z.sub_0_r.
  split; [| split].
  - rewrite !length_map, length_seq. reflexivity.
  - intros i c Hc.
    apply list_lookup_fmap_Some in Hc as (z & -> & Hz).
    apply list_lookup_fmap_Some in Hz as (k & -> & Hk).
    apply lookup_seq in Hk as [-> _]. simpl.
    rewrite piece_nops_spec by lia. rewrite ?Z.add_0_l.
    destruct (Z.of_nat i <? num_ops mod t); lia.
  - rewrite sum_nops_pieces by assumption.
    pose proof (Z.mod_pos_bound num_ops t ltac:(lia)) as Hrem.
    pose proof (Z.div_mod num_ops t ltac:(lia)) as Hdm.
    rewrite Z2Nat.id by lia. lia.
Qed.

Lemma partition_sizes_witness :
  length (generate_pieces 400000 ["A_variant"; "B_variant"; "C_variant"]%string 3 0)
  = Z.to_nat 3 /\
  (forall (i : nat) (c : generate_call),
     generate_pieces 400000 ["A_variant"; "B_variant"; "C_variant"]%string 3 0 !! i
     = Some c ->
     call_nops c =
       if Z.of_nat i <? 400000 mod 3 then 400000 / 3 + 1 else 400000 / 3) /\
  sum_nops (generate_pieces 400000 ["A_variant"; "B_variant"; "C_variant"]%string 3 0)
  = 400000.
Proof. apply partition_sizes; lia. Defined.

Example pieces_of_main :
  map call_nops
    (generate_pieces 400000 ["A_variant"; "B_variant"; "C_variant"]%string 3 0)
  = [133334; 133333; 133333].
Proof. reflexivity. Qed.

(** The pieces are what [generate_all_files] asks [generate_file] for. *)
Lemma generate_all_files_pieces (num_ops max_threads t : Z) (tags : list string)
  (variant : nat) (c : generate_call) :
  1 <= t <= max_threads -> (variant < 3)%nat ->
  c ∈ generate_pieces num_ops tags t variant ->
  c ∈ generate_all_files num_ops max_threads tags.
Proof.
  intros Ht Hv Hc. unfold generate_all_files.
  apply list_elem_of_In, in_flat_map. exists t. split.
  - unfold int_range. apply in_map_iff. exists (Z.to_nat (t - 1)). split; [lia |].
    apply in_seq. lia.
  - apply in_flat_map. exists variant. split; [apply in_seq; lia |].
    apply list_elem_of_In. exact Hc.
Qed.

(** ** What the parser makes of a line *)

Lemma string_app_nil_r (s : string) : (s ++ EmptyString)%string = s.
Proof. induction s as [| c s IH]; simpl; [reflexivity | rewrite IH; reflexivity]. Qed.

Lemma skipws_head (s : string) (c : ascii) (r : string) :
  skipws s = String c r -> isspace c = false.
Proof.
  induction s as [| x s IH]; simpl; [discriminate |].
  destruct (isspace x) eqn:E; [exact IH |]. intros [= <- _]. exact E.
Qed.

Lemma words_from_skipws (s : string) :
  words_from s EmptyString = words_from (skipws s) EmptyString.
Proof.
  induction s as [| c s IH]; simpl; [reflexivity |].
  destruct (isspace c) eqn:E; simpl; [exact IH | rewrite E; reflexivity].
Qed.

(** The word under construction, completed, is the next word. *)
Lemma words_from_take_word (s cur : string) :
  is_empty (cur ++ fst (take_word s))%string = false ->
  words_from s cur =
  (cur ++ fst (take_word s))%string :: words_from (snd (take_word s)) EmptyString.
Proof.
  revert cur. induction s as [| c s IH]; intros cur Hne; simpl in *.
  - rewrite string_app_nil_r in *. rewrite Hne. reflexivity.
  - destruct (isspace c) eqn:E; simpl in *.
    + rewrite string_app_nil_r in *. rewrite Hne, E. reflexivity.
    + destruct (take_word s) as [w r] eqn:Ew. simpl in *.
      rewrite (IH (cur ++ String c EmptyString)%string).
      * rewrite string_app_assoc. reflexivity.
      * rewrite string_app_assoc. exact Hne.
Qed.

(** [iss >> cmd] on a fresh stream reads the first word of the line, and
    leaves [cmd] empty when the line has none. *)
Lemma extract_string_first_word (line : string) :
  fst (extract_string {| rest := line; eofbit := false; failbit := false |} EmptyString)
  = match words line with
    | w :: _ => w
    | [] => EmptyString
    end.
Proof.
  unfold extract_string, sentry, words. simpl.
  rewrite words_from_skipws.
  destruct (skipws line) as [| c r] eqn:Es; [reflexivity |].
  pose proof (skipws_head line c r Es) as Hc. cbn [rest].
  rewrite words_from_take_word.
  - destruct (take_word (String c r)) as [w r']. reflexivity.
  - simpl. rewrite Hc. destruct (take_word r). reflexivity.
Qed.

(** The kind of operation pushed for a line is decided by its first word
    alone. *)
Lemma parse_line_command_word (f0 v0 : Z) (line : string) :
  match command_word line with
  | Some o => exists a, parse_line f0 v0 line = Some a /\ op a = o
  | None => parse_line f0 v0 line = None
  end.
Proof.
  pose proof (extract_string_first_word line) as Hcmd.
  unfold parse_line, command_word.
  destruct (extract_string _ EmptyString) as [cmd iss]. simpl in Hcmd.
  assert (Hgoal :
    match (if String.eqb cmd "read" then Some READ
           else if String.eqb cmd "write" then Some WRITE
           else if String.eqb cmd "string" then Some STR else None) with
    | Some o =>
        exists a,
          (if String.eqb cmd "read"
           then let (f, _) := extract_int iss f0 in Some (Action_op_field READ f)
           else if String.eqb cmd "write"
           then let (f, iss1) := extract_int iss f0 in
                let (v, _) := extract_int iss1 v0 in
                Some {| op := WRITE; field := f; value := v |}
           else if String.eqb cmd "string" then Some (Action_op STR) else None)
          = Some a /\ op a = o
    | None =>
        (if String.eqb cmd "read"
         then let (f, _) := extract_int iss f0 in Some (Action_op_field READ f)
         else if String.eqb cmd "write"
         then let (f, iss1) := extract_int iss f0 in
              let (v, _) := extract_int iss1 v0 in
              Some {| op := WRITE; field := f; value := v |}
         else if String.eqb cmd "string" then Some (Action_op STR) else None)
        = None
    end).
  { destruct (String.eqb cmd "read").
    - destruct (extract_int iss f0) as [f iss1]. eexists. split; reflexivity.
    - destruct (String.eqb cmd "write").
      + destruct (extract_int iss f0) as [f iss1].
        destruct (extract_int iss1 v0) as [v iss2]. eexists. split; reflexivity.
      + destruct (String.eqb cmd "string"); [eexists; split; reflexivity | reflexivity]. }
  destruct (words line) as [| w ws]; subst cmd; exact Hgoal.
Qed.

Lemma parse_lines_ops (junk : nat -> Z * Z) (n : nat) (lines : list string) :
  map op (parse_lines junk n lines) = omap command_word lines.
Proof.
  revert n. induction lines as [| line lines IH]; intros n; simpl; [reflexivity |].
  pose proof (parse_line_command_word (fst (junk n)) (snd (junk n)) line) as H.
  destruct (command_word line) as [o |].
  - destruct H as (a & -> & <-). simpl. rewrite IH. reflexivity.
  - rewrite H. apply IH.
Qed.

(** ** Lines in the trace format are read back *)

Lemma take_digits_app (ds tail : string) (acc v : Z) (seen : bool) :
  digits_value ds acc = Some v -> stops_digits tail ->
  take_digits (ds ++ tail) acc seen = (v, seen || negb (is_empty ds), tail).
Proof.
  intros Hv Htail. revert acc seen Hv.
  induction ds as [| c ds IH]; intros acc seen Hv; simpl in *.
  - injection Hv as <-. rewrite orb_false_r.
    destruct tail as [| c tail]; [reflexivity |]. simpl in *. rewrite Htail. reflexivity.
  - destruct (isdigit c); [| discriminate].
    rewrite (IH _ true Hv). rewrite orb_true_r. reflexivity.
Qed.

Lemma isdigit_not_space (c : ascii) : isdigit c = true -> isspace c = false.
Proof.
  unfold isdigit, isspace. intros H. apply andb_true_iff in H as [H1 H2].
  apply Nat.leb_le in H1. apply Nat.leb_le in H2.
  apply orb_false_iff. split.
  - apply Nat.eqb_neq. lia.
  - apply andb_false_iff. right. apply Nat.leb_gt. lia.
Qed.

Lemma isdigit_not_plus (c : ascii) : isdigit c = true -> Ascii.eqb c "+" = false.
Proof.
  intros Hc. destruct (Ascii.eqb c "+") eqn:E; [| reflexivity].
  apply Ascii.eqb_eq in E. subst c. discriminate.
Qed.

Lemma sentry_after_space (s : string) :
  sentry {| rest := String " " s; eofbit := false; failbit := false |}
  = sentry {| rest := s; eofbit := false; failbit := false |}.
Proof. reflexivity. Qed.

Lemma sentry_at_word (c : ascii) (r : string) :
  isspace c = false ->
  sentry {| rest := String c r; eofbit := false; failbit := false |}
  = (true, {| rest := String c r; eofbit := false; failbit := false |}).
Proof. intros Hc. unfold sentry. simpl. rewrite Hc. reflexivity. Qed.

Lemma in_int_range (z : Z) :
  INT_MIN <= z <= INT_MAX -> (z >? INT_MAX) = false /\ (z <? INT_MIN) = false.
Proof.
  intros Hz. split; [| apply Z.ltb_ge; lia].
  destruct (z >? INT_MAX) eqn:E; [rewrite Z.gtb_gt in E; lia | reflexivity].
Qed.

(** [st >> n] reads back what [to_string] wrote, after any white space and
    up to the next character that is not a digit. *)
Lemma extract_int_to_string (z n : Z) (tail : string) :
  INT_MIN <= z <= INT_MAX -> stops_digits tail ->
  extract_int {| rest := String " " (to_string z ++ tail);
                 eofbit := false; failbit := false |} n
  = (z, {| rest := tail; eofbit := is_empty tail; failbit := false |}).
Proof.
  intros Hz Htail. destruct (in_int_range z Hz) as [Hmax Hmin].
  unfold extract_int. rewrite sentry_after_space. unfold to_string.
  destruct (z <? 0) eqn:Hneg.
  - apply Z.ltb_lt in Hneg.
    assert (Hnn : 0 <= - z) by lia.
    pose proof (digits_of_value _ (- z) (conj Hnn (enough_fuel (- z) Hnn))) as Hval.
    change (String "-" ?ds ++ tail)%string with (String "-" (ds ++ tail)%string).
    rewrite sentry_at_word by reflexivity. cbn [rest].
    change (Ascii.eqb "-" "-") with true. cbv iota.
    rewrite (take_digits_app _ tail 0 (- z) false Hval Htail).
    destruct (digits_of_head (Z.to_nat (Z.log2 (- z))) (- z) Hnn)
      as (c & r & -> & _).
    cbn [is_empty negb orb]. rewrite Z.opp_involutive, Hmax, Hmin. reflexivity.
  - apply Z.ltb_ge in Hneg.
    pose proof (digits_of_value _ z (conj Hneg (enough_fuel z Hneg))) as Hval.
    pose proof (take_digits_app _ tail 0 z false Hval Htail) as Htake.
    destruct (digits_of_head (Z.to_nat (Z.log2 z)) z Hneg)
      as (c & r & Heq & Hdig & _ & _).
    rewrite Heq in *.
    change (String c r ++ tail)%string with (String c (r ++ tail)%string) in *.
    rewrite sentry_at_word by (apply isdigit_not_space; exact Hdig). cbn [rest].
    rewrite (isdigit_not_minus c Hdig), (isdigit_not_plus c Hdig), Htake.
    cbn [is_empty negb orb]. rewrite Hmax, Hmin. reflexivity.
Qed.

Lemma stops_digits_nil : stops_digits EmptyString.
Proof. exact I. Qed.

Lemma parse_line_read (f0 v0 f : Z) :
  INT_MIN <= f <= INT_MAX ->
  parse_line f0 v0 ("read " ++ to_string f) = Some (Action_op_field READ f).
Proof.
  intros Hf. unfold parse_line.
  change (extract_string
            {| rest := ("read " ++ to_string f)%string; eofbit := false; failbit := false |}
            EmptyString)
    with ("read"%string,
          {| rest := String " " (to_string f); eofbit := false; failbit := false |}).
  cbv iota beta. change (String.eqb "read" "read") with true. cbv iota.
  rewrite <- (string_app_nil_r (to_string f)).
  rewrite (extract_int_to_string f f0 EmptyString Hf stops_digits_nil). reflexivity.
Qed.

Lemma parse_line_write (f0 v0 f v : Z) :
  INT_MIN <= f <= INT_MAX -> INT_MIN <= v <= INT_MAX ->
  parse_line f0 v0 ("write " ++ to_string f ++ " " ++ to_string v)
  = Some {| op := WRITE; field := f; value := v |}.
Proof.
  intros Hf Hv. unfold parse_line.
  change (extract_string
            {| rest := ("write " ++ to_string f ++ " " ++ to_string v)%string;
               eofbit := false; failbit := false |}
            EmptyString)
    with ("write"%string,
          {| rest := String " " (to_string f ++ String " " (to_string v));
             eofbit := false; failbit := false |}).
  cbv iota beta. change (String.eqb "write" "read") with false.
  change (String.eqb "write" "write") with true. cbv iota.
  rewrite (extract_int_to_string f f0 (String " " (to_string v)) Hf eq_refl).
  change (is_empty (String " " (to_string v))) with false.
  rewrite <- (string_app_nil_r (to_string v)).
  rewrite (extract_int_to_string v v0 EmptyString Hv stops_digits_nil). reflexivity.
Qed.

Lemma parse_line_string (f0 v0 : Z) :
  parse_line f0 v0 "string" = Some (Action_op STR).
Proof. reflexivity. Qed.

(** The five lines [generate_file] writes. *)
Example parse_generated_lines (f0 v0 : Z) :
  map (parse_line f0 v0) ["read 0"; "write 0 1"; "read 1"; "write 1 1"; "string"]%string
  = [ Some {| op := READ; field := 0; value := 0 |};
      Some {| op := WRITE; field := 0; value := 1 |};
      Some {| op := READ; field := 1; value := 0 |};
      Some {| op := WRITE; field := 1; value := 1 |};
      Some {| op := STR; field := -1; value := 0 |} ].
Proof. reflexivity. Qed.

(** A file that cannot be opened gives the empty workload. *)
Lemma parse_file_missing (fs : string -> option string) (junk : nat -> Z * Z)
  (filename : string) :
  fs filename = None -> parse_file fs junk filename = [].
Proof. intros H. unfold parse_file. rewrite H. reflexivity. Qed.

(** ** Lines of the three forms *)

(** A word and what follows it make up the text they were taken from, and
    what follows a word is the end of the line or white space. *)
Lemma take_word_app (s : string) :
  s = (fst (take_word s) ++ snd (take_word s))%string.
Proof.
  induction s as [| c s IH]; simpl; [reflexivity |].
  destruct (isspace c); [reflexivity |].
  destruct (take_word s) as [w r]. simpl in *. rewrite <- IH. reflexivity.
Qed.

Lemma take_word_stops (s : string) : stops_digits (snd (take_word s)).
Proof.
  induction s as [| c s IH]; simpl; [exact I |].
  destruct (isspace c) eqn:E.
  - simpl. destruct (isdigit c) eqn:Ed; [| reflexivity].
    apply isdigit_not_space in Ed. congruence.
  - destruct (take_word s) as [w r]. exact IH.
Qed.

(** The first of the words left in a text is what [take_word] reads after
    the white space, and the other words are those of what follows it. *)
Lemma words_from_cons (s w : string) (ws : list string) :
  words_from s EmptyString = w :: ws ->
  exists c r0,
    skipws s = String c r0 /\ isspace c = false /\
    fst (take_word (String c r0)) = w /\
    words_from (snd (take_word (String c r0))) EmptyString = ws.
Proof.
  rewrite words_from_skipws.
  destruct (skipws s) as [| c r0] eqn:Es; [discriminate |].
  pose proof (skipws_head s c r0 Es) as Hc.
  rewrite words_from_take_word.
  - intros [= Hw Hws]. exists c, r0. auto.
  - simpl. rewrite Hc. destruct (take_word r0). reflexivity.
Qed.

Lemma words_from_nonempty (s w : string) (ws : list string) :
  words_from s EmptyString = w :: ws -> is_empty s = false.
Proof. destruct s; [discriminate | reflexivity]. Qed.

(** [iss >> cmd] on a fresh stream reads the first word of the line and
    leaves the other words in the stream. *)
Lemma extract_string_words (line w : string) (ws : list string) :
  words line = w :: ws ->
  exists r,
    extract_string {| rest := line; eofbit := false; failbit := false |} EmptyString
    = (w, {| rest := r; eofbit := is_empty r; failbit := false |}) /\
    words_from r EmptyString = ws.
Proof.
  intros Hw. apply words_from_cons in Hw as (c & r0 & Es & Hc & Hw & Hws).
  exists (snd (take_word (String c r0))). split; [| exact Hws].
  unfold extract_string, sentry. cbn [good rest eofbit failbit negb andb].
  rewrite Es. cbn [rest].
  destruct (take_word (String c r0)) as [w' r']. simpl in *. subst w'. reflexivity.
Qed.

Lemma all_digits_value (s : string) (acc : Z) :
  all_digits s = true -> exists v, digits_value s acc = Some v.
Proof.
  revert acc. induction s as [| c s IH]; intros acc H; simpl in *; [eauto |].
  apply andb_true_iff in H as [Hc Hs]. rewrite Hc. apply IH. exact Hs.
Qed.

(** An integer word denotes an integer. *)
Lemma integer_word_value (w : string) :
  integer_word w = true -> exists z, decimal_value w = Some z.
Proof.
  destruct w as [| c ds]; [discriminate |]. unfold integer_word, decimal_value.
  destruct (Ascii.eqb c "-").
  - intros H. apply andb_true_iff in H as [Hne Hd].
    destruct (is_empty ds); [discriminate |].
    destruct (all_digits_value ds 0 Hd) as [v ->]. simpl. eauto.
  - apply all_digits_value.
Qed.

(** How [st >> n] ends once the number is read: a number that does not fit
    an [int] is replaced by the nearest one, and [failbit] is set. *)
Lemma extract_int_clamps (z : Z) (r : string) :
  (if z >? INT_MAX
   then (INT_MAX, {| rest := r; eofbit := is_empty r; failbit := true |})
   else if z <? INT_MIN
   then (INT_MIN, {| rest := r; eofbit := is_empty r; failbit := true |})
   else (z, {| rest := r; eofbit := is_empty r; failbit := false |}))
  = (clamp_int z, {| rest := r; eofbit := is_empty r; failbit := negb (fits_int z) |}).
Proof.
  unfold clamp_int, fits_int.
  destruct (z >? INT_MAX) eqn:E1.
  - apply Z.gtb_gt in E1.
    replace (z <=? INT_MAX) with false by (symmetry; apply Z.leb_gt; lia).
    rewrite andb_false_r. reflexivity.
  - assert (H1 : z <= INT_MAX).
    { destruct (Z_le_gt_dec z INT_MAX) as [H | H]; [exact H |].
      apply Z.gtb_gt in H. congruence. }
    destruct (z <? INT_MIN) eqn:E2.
    + apply Z.ltb_lt in E2.
      replace (INT_MIN <=? z) with false by (symmetry; apply Z.leb_gt; lia).
      reflexivity.
    + apply Z.ltb_ge in E2.
      replace (INT_MIN <=? z) with true by (symmetry; apply Z.leb_le; lia).
      replace (z <=? INT_MAX) with true by (symmetry; apply Z.leb_le; lia).
      reflexivity.
Qed.

(** [st >> n] on a good stream whose next word is an integer word: the word
    is read whole, [n] becomes the nearest [int] to the number it denotes,
    and the other words are left in the stream. *)
Lemma extract_int_word (r fw : string) (ws : list string) (n0 z : Z) :
  words_from r EmptyString = fw :: ws ->
  integer_word fw = true -> decimal_value fw = Some z ->
  exists r',
    extract_int {| rest := r; eofbit := false; failbit := false |} n0
    = (clamp_int z,
       {| rest := r'; eofbit := is_empty r'; failbit := negb (fits_int z) |}) /\
    words_from r' EmptyString = ws.
Proof.
  intros Hw Hint Hval.
  apply words_from_cons in Hw as (c & r0 & Es & Hc & Hw & Hws).
  pose proof (take_word_app (String c r0)) as Happ.
  pose proof (take_word_stops (String c r0)) as Hstop.
  destruct (take_word (String c r0)) as [w' r'] eqn:Et.
  cbn [fst snd] in Happ, Hstop, Hw, Hws. subst w'.
  exists r'. split; [| exact Hws].
  unfold extract_int, sentry. cbn [good rest eofbit failbit negb andb].
  rewrite Es. cbn [rest].
  destruct fw as [| d ds]; [discriminate |].
  cbn [append] in Happ. injection Happ as -> ->.
  unfold integer_word in Hint. unfold decimal_value in Hval.
  destruct (Ascii.eqb d "-") eqn:Ed.
  - apply andb_true_iff in Hint as [Hne Hd].
    destruct (is_empty ds) eqn:Eds; [discriminate |].
    destruct (digits_value ds 0) as [m |] eqn:Em; [| discriminate].
    injection Hval as <-.
    rewrite (take_digits_app ds r' 0 m false Em Hstop). rewrite Eds.
    cbn [orb negb]. apply extract_int_clamps.
  - pose proof Hint as Hdig. cbn [all_digits] in Hdig.
    apply andb_true_iff in Hdig as [Hdig _].
    rewrite (isdigit_not_plus d Hdig).
    change (String d (ds ++ r')) with (String d ds ++ r')%string.
    rewrite (take_digits_app (String d ds) r' 0 z false Hval Hstop).
    cbn [is_empty orb negb]. apply extract_int_clamps.
Qed.

Lemma fits_int_clamp (z : Z) : fits_int z = true -> clamp_int z = z.
Proof.
  unfold fits_int, clamp_int. intros H. apply andb_true_iff in H as [H1 H2].
  apply Z.leb_le in H1. apply Z.leb_le in H2.
  destruct (in_int_range z (conj H1 H2)) as [-> ->]. reflexivity.
Qed.

(** A line whose first word is [read] and whose second is an integer word
    gives a read of the nearest [int] to that integer. *)
Lemma parse_line_read_words (f0 v0 : Z) (line fw : string) (ws : list string) (n : Z) :
  words line = "read"%string :: fw :: ws ->
  integer_word fw = true -> decimal_value fw = Some n ->
  parse_line f0 v0 line = Some {| op := READ; field := clamp_int n; value := 0 |}.
Proof.
  intros Hw Hint Hval.
  apply extract_string_words in Hw as (r & Hx & Hws).
  unfold parse_line. rewrite Hx. cbn [String.eqb Ascii.eqb Bool.eqb].
  rewrite (words_from_nonempty r fw ws Hws).
  destruct (extract_int_word r fw ws f0 n Hws Hint Hval) as (r' & -> & _).
  reflexivity.
Qed.

(** A line whose first word is [write] and whose second is an integer word
    gives a write to the nearest [int] to that integer. *)
Lemma parse_line_write_field (f0 v0 : Z) (line fw : string) (ws : list string) (n : Z) :
  words line = "write"%string :: fw :: ws ->
  integer_word fw = true -> decimal_value fw = Some n ->
  exists v,
    parse_line f0 v0 line = Some {| op := WRITE; field := clamp_int n; value := v |}.
Proof.
  intros Hw Hint Hval.
  apply extract_string_words in Hw as (r & Hx & Hws).
  unfold parse_line. rewrite Hx. cbn [String.eqb Ascii.eqb Bool.eqb].
  rewrite (words_from_nonempty r fw ws Hws).
  destruct (extract_int_word r fw ws f0 n Hws Hint Hval) as (r' & -> & _).
  destruct (extract_int _ v0) as [v iss2]. eauto.
Qed.

(** When that integer is an [int] and the third word is an integer word
    too, the value written is the nearest [int] to the second integer. *)
Lemma parse_line_write_words (f0 v0 : Z) (line fw vw : string) (ws : list string)
  (n m : Z) :
  words line = "write"%string :: fw :: vw :: ws ->
  integer_word fw = true -> decimal_value fw = Some n -> fits_int n = true ->
  integer_word vw = true -> decimal_value vw = Some m ->
  parse_line f0 v0 line = Some {| op := WRITE; field := n; value := clamp_int m |}.
Proof.
  intros Hw Hint Hval Hfit Hintv Hvalv.
  apply extract_string_words in Hw as (r & Hx & Hws).
  unfold parse_line. rewrite Hx. cbn [String.eqb Ascii.eqb Bool.eqb].
  rewrite (words_from_nonempty r fw _ Hws).
  destruct (extract_int_word r fw _ f0 n Hws Hint Hval) as (r' & -> & Hws').
  rewrite Hfit. cbn [negb]. rewrite (words_from_nonempty r' vw ws Hws').
  destruct (extract_int_word r' vw ws v0 m Hws' Hintv Hvalv) as (r'' & -> & _).
  rewrite (fits_int_clamp n Hfit). reflexivity.
Qed.

(** A line whose first word is [string] gives a snapshot. *)
Lemma parse_line_string_words (f0 v0 : Z) (line : string) (ws : list string) :
  words line = "string"%string :: ws ->
  parse_line f0 v0 line = Some {| op := STR; field := -1; value := 0 |}.
Proof.
  intros Hw. apply extract_string_words in Hw as (r & Hx & _).
  unfold parse_line. rewrite Hx. reflexivity.
Qed.

Lemma int_operand_Some (w : string) (z : Z) :
  int_operand w = Some z -> decimal_value w = Some z /\ fits_int z = true.
Proof.
  unfold int_operand. destruct (decimal_value w) as [x |]; [| discriminate].
  destruct (fits_int x) eqn:E; [| discriminate]. intros [= <-]. auto.
Qed.

(** The parser reads a line of one of the three forms as what it spells. *)
Lemma parse_line_trace_action (f0 v0 : Z) (line : string) (a : Action) :
  trace_action line = Some a -> parse_line f0 v0 line = Some a.
Proof.
  unfold trace_action, trace_form.
  destruct (words line) as [| cmd [| fw [| vw [| x ws]]]] eqn:Hw; try discriminate.
  - destruct (String.eqb cmd "string") eqn:Ec; [| discriminate].
    apply String.eqb_eq in Ec. subst cmd. intros [= <-].
    exact (parse_line_string_words f0 v0 line [] Hw).
  - destruct (String.eqb cmd "read") eqn:Ec; [| discriminate].
    apply String.eqb_eq in Ec. subst cmd. simpl.
    destruct (integer_word fw) eqn:Hint; [| discriminate].
    destruct (int_operand fw) as [f |] eqn:Hf; [| discriminate].
    apply int_operand_Some in Hf as [Hval Hfit]. intros [= <-].
    rewrite (parse_line_read_words f0 v0 line fw [] f Hw Hint Hval).
    rewrite (fits_int_clamp f Hfit). reflexivity.
  - destruct (String.eqb cmd "write") eqn:Ec; [| discriminate].
    apply String.eqb_eq in Ec. subst cmd. simpl.
    destruct (integer_word fw) eqn:Hint; [| discriminate].
    destruct (integer_word vw) eqn:Hintv; [| discriminate]. simpl.
    destruct (int_operand fw) as [f |] eqn:Hf; [| discriminate].
    destruct (int_operand vw) as [v |] eqn:Hv; [| discriminate].
    apply int_operand_Some in Hf as [Hval Hfit].
    apply int_operand_Some in Hv as [Hvalv Hfitv]. intros [= <-].
    rewrite (parse_line_write_words f0 v0 line fw vw [] f v Hw Hint Hval Hfit Hintv Hvalv).
    rewrite (fits_int_clamp v Hfitv). reflexivity.
Qed.

(** A line of one of the three forms spells an operation unless an operand
    does not fit an [int]. *)
Lemma trace_form_action (line : string) :
  trace_form line = true ->
  (exists a, trace_action line = Some a) \/
  (exists w z, In w (words line) /\ decimal_value w = Some z /\ fits_int z = false).
Proof.
  intros Hform. unfold trace_action. rewrite Hform. unfold trace_form in Hform.
  destruct (words line) as [| cmd [| fw [| vw [| x ws]]]] eqn:Hw; try discriminate.
  - left. eauto.
  - apply andb_true_iff in Hform as [_ Hint].
    destruct (integer_word_value fw Hint) as [f Hf]. unfold int_operand. rewrite Hf.
    destruct (fits_int f) eqn:E; [left; eauto |].
    right. exists fw, f. simpl. auto.
  - apply andb_true_iff in Hform as [Hform Hintv].
    apply andb_true_iff in Hform as [_ Hint].
    destruct (integer_word_value fw Hint) as [f Hf].
    destruct (integer_word_value vw Hintv) as [v Hv].
    unfold int_operand. rewrite Hf, Hv.
    destruct (fits_int f) eqn:E; [| right; exists fw, f; simpl; auto].
    destruct (fits_int v) eqn:E'; [left; eauto |].
    right. exists vw, v. simpl. auto.
Qed.

(** C5, as the parser has it: a line gives an operation exactly when its
    first word is [read], [write] or [string], and the operation is of the
    kind that word names, whatever follows the word on the line; every
    other line is skipped, and nothing is ever reported.  So the kinds of
    the operations of a workload are the command words of the lines of its
    file, in order.  And a line of one of the three forms, its operands
    being [int]s, gives the operation it spells, operands included:
    [read <field>] a read of the field, [write <field> <value>] a write of
    the value to the field and [string] a snapshot, whatever the white space
    around its words and whatever the uninitialised locals hold. *)
Theorem parser_goes_by_first_word (f0 v0 : Z) (line : string)
  (junk : nat -> Z * Z) (n : nat) (lines : list string) :
  match command_word line with
  | Some o => exists a, parse_line f0 v0 line = Some a /\ op a = o
  | None => parse_line f0 v0 line = None
  end /\
  map op (parse_lines junk n lines) = omap command_word lines /\
  (forall a, trace_action line = Some a -> parse_line f0 v0 line = Some a).
Proof.
  split; [apply parse_line_command_word |].
  split; [apply parse_lines_ops | apply parse_line_trace_action].
Qed.

Lemma parser_goes_by_first_word_witness :
  parse_line 11 22 "read 5 " = Some {| op := READ; field := 5; value := 0 |} /\
  parse_line 11 22 "  write -3   007 "
  = Some {| op := WRITE; field := -3; value := 7 |} /\
  parse_line 11 22 " string " = Some {| op := STR; field := -1; value := 0 |}.
Proof.
  split; [| split].
  - apply (parser_goes_by_first_word 11 22 "read 5 " (fun _ => (0, 0)) 0 []).
    reflexivity.
  - apply (parser_goes_by_first_word 11 22 "  write -3   007 " (fun _ => (0, 0)) 0 []).
    reflexivity.
  - apply (parser_goes_by_first_word 11 22 " string " (fun _ => (0, 0)) 0 []).
    reflexivity.
Defined.

(** C5, as stated, fails: lines that are not of one of the three forms still
    give an operation when their first word is a command. *)
Lemma malformed_lines_give_operations :
  (trace_form "read x" = false /\
   parse_line 0 0 "read x" = Some {| op := READ; field := 0; value := 0 |}) /\
  (trace_form "string extra" = false /\
   parse_line 0 0 "string extra" = Some {| op := STR; field := -1; value := 0 |}) /\
  (trace_form "read 0 1 2" = false /\
   parse_line 0 0 "read 0 1 2" = Some {| op := READ; field := 0; value := 0 |}).
Proof. repeat split; reflexivity. Qed.

(** ** The timing harness *)

Section HarnessFacts.

Variable fs : string -> option string.
Variable junk : nat -> Z * Z.
Variable elapsed : nat -> SafeStruct -> list (list Action) -> float.
Variable tags : list string.
Variable repeats : Z.

Lemma durations_succ (action_lists : list (list Action)) (n0 R : nat) :
  durations elapsed action_lists n0 (S R)
  = elapsed n0 SafeStruct_init action_lists
    :: durations elapsed action_lists (S n0) R.
Proof.
  unfold durations. simpl. rewrite Nat.add_0_r. f_equal.
  rewrite <- seq_shift, map_map. apply map_ext. intros k. f_equal. lia.
Qed.

Lemma repeat_loop_fold (variant : nat) (t : Z) (l : list Z) (total : float) (n0 : nat) :
  fold_left
    (fun '(total_time, n) _ =>
       let action_lists := load_action_lists fs junk tags variant t in
       (PrimFloat.add total_time (measure_time elapsed n action_lists), S n))
    l (total, n0)
  = (fold_left PrimFloat.add
       (durations elapsed (load_action_lists fs junk tags variant t) n0 (length l))
       total,
     (n0 + length l)%nat).
Proof.
  revert total n0. induction l as [| x l IH]; intros total n0.
  - simpl. rewrite Nat.add_0_r. reflexivity.
  - cbn [fold_left length]. rewrite IH, durations_succ. cbn [fold_left].
    unfold measure_time. f_equal. lia.
Qed.

Lemma length_int_range (lo hi : Z) : length (int_range lo hi) = Z.to_nat (hi - lo).
Proof. unfold int_range. rewrite length_map, length_seq. reflexivity. Qed.

Lemma repeat_loop_spec (variant : nat) (t : Z) (n0 : nat) :
  repeat_loop fs junk elapsed tags variant t repeats n0
  = (fold_left PrimFloat.add
       (durations elapsed (load_action_lists fs junk tags variant t) n0
          (Z.to_nat repeats))
       PrimFloat.zero,
     (n0 + Z.to_nat repeats)%nat).
Proof.
  unfold repeat_loop. rewrite repeat_loop_fold, length_int_range, Z.sub_0_r.
  reflexivity.
Qed.

Lemma int_range_snoc (k : nat) :
  int_range 1 (Z.of_nat (S k) + 1) = int_range 1 (Z.of_nat k + 1) ++ [Z.of_nat (S k)].
Proof.
  unfold int_range.
  replace (Z.to_nat (Z.of_nat (S k) + 1 - 1)) with (S k) by lia.
  replace (Z.to_nat (Z.of_nat k + 1 - 1)) with k by lia.
  rewrite seq_S, map_app. simpl. do 2 f_equal. lia.
Qed.

(** The loop over [t], run for [t] from 1 to [k], fills the first [k] cells
    of row [variant] and nothing else. *)
Lemma thread_loop_spec (variant : nat) (results : list (list float))
  (row : list float) (n0 k : nat) :
  results !! variant = Some row ->
  (k <= length row)%nat ->
  exists row',
    thread_loop fs junk elapsed tags variant (Z.of_nat k) repeats results n0
    = (<[variant := row']> results, (n0 + k * Z.to_nat repeats)%nat) /\
    length row' = length row /\
    (forall j, (j < k)%nat ->
       row' !! j = Some (cell fs junk elapsed tags repeats variant (Z.of_nat (S j))
                           (n0 + j * Z.to_nat repeats))) /\
    (forall j, (k <= j)%nat -> row' !! j = row !! j).
Proof.
  intros Hrow. induction k as [| k IH]; intros Hk.
  - exists row. unfold thread_loop. simpl.
    rewrite list_insert_id by exact Hrow. rewrite Nat.add_0_r.
    split; [reflexivity |]. split; [reflexivity |].
    split; [intros j Hj; lia | reflexivity].
  - destruct IH as (row1 & Hloop & Hlen & Hdone & Hrest); [lia |].
    unfold thread_loop in *. rewrite int_range_snoc, fold_left_app, Hloop.
    cbn [fold_left]. rewrite repeat_loop_spec.
    unfold store_result.
    rewrite list_lookup_insert_eq by (eapply lookup_lt_Some; eauto).
    rewrite list_insert_insert_eq.
    replace (Z.to_nat (Z.of_nat (S k) - 1)) with k by lia.
    eexists. split; [f_equal; lia |]. split; [| split].
    + rewrite length_insert. exact Hlen.
    + intros j Hj. destruct (decide (j = k)) as [-> | Hne].
      * rewrite list_lookup_insert_eq by lia. reflexivity.
      * rewrite list_lookup_insert_ne by congruence. apply Hdone. lia.
    + intros j Hj. rewrite list_lookup_insert_ne by lia. apply Hrest. lia.
Qed.

End HarnessFacts.

Lemma table_rows (results : list (list float)) (variant : nat) :
  table_3x3 results -> (variant < 3)%nat ->
  exists row, results !! variant = Some row /\ length row = 3%nat.
Proof.
  intros [Hlen Hrows] Hv.
  destruct (lookup_lt_is_Some_2 results variant) as [row Hrow]; [lia |].
  exists row. split; [exact Hrow |].
  eapply Forall_lookup_1 in Hrows; eauto.
Qed.

(** [measure_all] is the loop over [t] run for the three variants in turn:
    its table, row by row, and the number of measurements it makes. *)
Lemma measure_all_rows (fs : string -> option string) (junk : nat -> Z * Z)
  (elapsed : nat -> SafeStruct -> list (list Action) -> float)
  (results : list (list float)) (tags : list string) (repeats : Z) (M : nat) :
  table_3x3 results -> (M <= 3)%nat ->
  exists row0 row1 row2,
    measure_all fs junk elapsed results (Z.of_nat M) tags repeats
    = (<[2%nat := row2]> (<[1%nat := row1]> (<[0%nat := row0]> results)),
       (3 * M * Z.to_nat repeats)%nat) /\
    (forall j, (j < M)%nat ->
       row0 !! j = Some (cell fs junk elapsed tags repeats 0 (Z.of_nat (S j))
                           ((0 * M + j) * Z.to_nat repeats)) /\
       row1 !! j = Some (cell fs junk elapsed tags repeats 1 (Z.of_nat (S j))
                           ((1 * M + j) * Z.to_nat repeats)) /\
       row2 !! j = Some (cell fs junk elapsed tags repeats 2 (Z.of_nat (S j))
                           ((2 * M + j) * Z.to_nat repeats))).
Proof.
  intros Htable HM.
  destruct (table_rows results 0 Htable ltac:(lia)) as (r0 & Hr0 & Hl0).
  destruct (table_rows results 1 Htable ltac:(lia)) as (r1 & Hr1 & Hl1).
  destruct (table_rows results 2 Htable ltac:(lia)) as (r2 & Hr2 & Hl2).
  destruct (thread_loop_spec fs junk elapsed tags repeats 0 results r0 0 M Hr0)
    as (row0 & Hloop0 & _ & Hcells0 & _); [lia |].
  destruct (thread_loop_spec fs junk elapsed tags repeats 1
              (<[0%nat := row0]> results) r1 (0 + M * Z.to_nat repeats) M)
    as (row1 & Hloop1 & _ & Hcells1 & _);
    [rewrite list_lookup_insert_ne by lia; exact Hr1 | lia |].
  destruct (thread_loop_spec fs junk elapsed tags repeats 2
              (<[1%nat := row1]> (<[0%nat := row0]> results)) r2
              (0 + M * Z.to_nat repeats + M * Z.to_nat repeats) M)
    as (row2 & Hloop2 & _ & Hcells2 & _);
    [rewrite !list_lookup_insert_ne by lia; exact Hr2 | lia |].
  exists row0, row1, row2. split.
  - unfold measure_all. cbn [seq fold_left].
    rewrite Hloop0, Hloop1, Hloop2. f_equal. lia.
  - intros j Hj. split; [| split].
    + rewrite (Hcells0 j Hj). do 2 f_equal; lia.
    + rewrite (Hcells1 j Hj). do 2 f_equal; lia.
    + rewrite (Hcells2 j Hj). do 2 f_equal; lia.
Qed.

(** C7, as the harness has it: for every configuration that fits the 3 by
    3 table, the cell for a variant and a thread count [t] is computed from
    [R] measurements, [R] being [repeats] (5 unless the caller says
    otherwise), each made on a new [SafeStruct]; the cell holds their mean as
    [double] arithmetic gives it: the total accumulated from 0.0 by rounded
    additions, divided by [R] with one more rounding. *)
Theorem measure_all_reports_rounded_mean
  (fs : string -> option string) (junk : nat -> Z * Z)
  (elapsed : nat -> SafeStruct -> list (list Action) -> float)
  (results : list (list float)) (max_threads : Z) (tags : list string)
  (repeats : Z) (variant : nat) (t : Z) :
  table_3x3 results -> 1 <= t <= max_threads -> max_threads <= 3 ->
  (variant < 3)%nat ->
  let R := Z.to_nat repeats in
  let n := ((variant * Z.to_nat max_threads + Z.to_nat (t - 1)) * R)%nat in
  let ds := durations elapsed (load_action_lists fs junk tags variant t) n R in
  length ds = R /\
  Forall (fun d => exists k, d = elapsed k SafeStruct_init
                                   (load_action_lists fs junk tags variant t)) ds /\
  result_at (fst (measure_all fs junk elapsed results max_threads tags repeats))
            variant t
  = Some (rounded_mean ds repeats) /\
  snd (measure_all fs junk elapsed results max_threads tags repeats)
  = (3 * Z.to_nat max_threads * R)%nat.
Proof.
  intros Htable Ht Hmax Hv R n ds.
  destruct (measure_all_rows fs junk elapsed results tags repeats
              (Z.to_nat max_threads) Htable ltac:(lia))
    as (row0 & row1 & row2 & Hall & Hcells).
  rewrite Z2Nat.id in Hall by lia. rewrite Hall. clear Hall.
  destruct Htable as [Hlen _].
  specialize (Hcells (Z.to_nat (t - 1)) ltac:(lia)).
  replace (Z.of_nat (S (Z.to_nat (t - 1)))) with t in Hcells by lia.
  destruct Hcells as (Hc0 & Hc1 & Hc2).
  split; [| split; [| split]].
  - unfold ds, durations. rewrite length_map, length_seq. reflexivity.
  - unfold ds, durations. apply Forall_forall. intros d Hd.
    apply list_elem_of_fmap in Hd as (k & -> & _). eauto.
  - unfold result_at. cbn [fst].
    destruct variant as [| [| [| variant]]]; [| | | lia].
    + rewrite !list_lookup_insert_ne by lia.
      rewrite list_lookup_insert_eq by lia. simpl. exact Hc0.
    + rewrite list_lookup_insert_ne by lia.
      rewrite list_lookup_insert_eq by (rewrite length_insert; lia). simpl. exact Hc1.
    + rewrite list_lookup_insert_eq by (rewrite !length_insert; lia). simpl. exact Hc2.
  - reflexivity.
Qed.

Lemma table_3x3_init : table_3x3 results_init.
Proof. split; [reflexivity | repeat constructor]. Qed.

Lemma measure_all_reports_rounded_mean_witness :
  result_at
    (fst (measure_all (fun _ => None) (fun _ => (0, 0)) first_run_one_second
            results_init 3 main_tags default_repeats))
    0 1
  = Some (rounded_mean (durations first_run_one_second [[]] 0 5) default_repeats).
Proof.
  refine (proj1 (proj2 (proj2
    (measure_all_reports_rounded_mean (fun _ => None) (fun _ => (0, 0))
       first_run_one_second results_init 3 main_tags default_repeats 0 1
       _ _ _ _)))).
  - apply table_3x3_init.
  - lia.
  - lia.
  - lia.
Defined.

(** C7, as stated, fails: five runs of 1, 0, 0, 0 and 0 seconds have the mean
    1/5, which no [double] equals; the table holds the [double] nearest to
    it. *)
Lemma reported_mean_is_not_the_exact_mean :
  exists (x : float) (q m : Q),
    result_at
      (fst (measure_all (fun _ => None) (fun _ => (0, 0)) first_run_one_second
              results_init 3 main_tags default_repeats))
      0 1 = Some x /\
    exact_value x = Some q /\
    exact_mean (durations first_run_one_second [[]] 0 5) = Some m /\
    Qeq_bool q m = false.
Proof.
  eexists _, _, _. split; [vm_compute; reflexivity |].
  split; [vm_compute; reflexivity |].
  split; [vm_compute; reflexivity |].
  vm_compute. reflexivity.
Qed.

(** * Further properties *)

(** ** Reading back what was written *)

(** X1: a [set] of a field of the record followed by a [get] of the same
    field returns the value set.  Only that field's mutex has to be free:
    the other may be held by anybody.  The other field and both mutexes are
    left as they were. *)
Theorem set_then_get (field value : Z) (s : SafeStruct) :
  valid_index field -> locked s field = false ->
  exists s',
    run (set field value ;; get field) s = Some (value, s') /\
    Array2.at_ (data s') field = value /\
    Array2.at_ (data s') (other field) = Array2.at_ (data s) (other field) /\
    mutexes s' = mutexes s.
Proof.
  intros Hv Hfree. exists (write field value s).
  rewrite run_bind, run_set_valid by assumption.
  rewrite run_get_valid by assumption.
  unfold write. simpl. rewrite at_assign_same.
  split; [reflexivity |]. split; [reflexivity |]. split; [| reflexivity].
  apply at_assign_other; [assumption | apply other_valid |].
  destruct Hv as [-> | ->]; discriminate.
Qed.

Lemma set_then_get_witness :
  exists s',
    run (set 1 9 ;; get 1) {| data := (3, 4); mutexes := (true, false) |}
    = Some (9, s') /\
    Array2.at_ (data s') 1 = 9 /\
    Array2.at_ (data s') (other 1) = 3 /\
    mutexes s' = (true, false).
Proof.
  apply (set_then_get 1 9 {| data := (3, 4); mutexes := (true, false) |}).
  - right. reflexivity.
  - reflexivity.
Defined.

(** X2: [set] and [get] on a field of the record wait for that field's
    mutex and for nothing else: alone on the record they return exactly when
    the mutex of their field is free. *)
Theorem set_get_block_on_own_mutex (field value : Z) (s : SafeStruct) :
  valid_index field ->
  (run (set field value) s = None <-> locked s field = true) /\
  (run (get field) s = None <-> locked s field = true).
Proof.
  intros Hv. destruct (locked s field) eqn:Hl.
  - rewrite run_get_blocked by assumption.
    unfold set. rewrite (proj2 (valid_index_guard field) Hv). simpl. rewrite Hl.
    split; split; reflexivity.
  - rewrite run_set_valid, run_get_valid by assumption.
    split; split; discriminate.
Qed.

Lemma set_get_block_on_own_mutex_witness :
  (run (set 0 7) {| data := (3, 4); mutexes := (false, true) |} = None
   <-> locked {| data := (3, 4); mutexes := (false, true) |} 0 = true) /\
  (run (get 0) {| data := (3, 4); mutexes := (false, true) |} = None
   <-> locked {| data := (3, 4); mutexes := (false, true) |} 0 = true).
Proof. apply set_get_block_on_own_mutex. left. reflexivity. Defined.

(** ** The trace player alone *)

Lemma run_execute_one (a : Action) (s : SafeStruct) :
  mutexes s = (false, false) ->
  run (execute_one a) s
  = Some (tt, {| data := apply_action (data s) a; mutexes := (false, false) |}).
Proof.
  intros Hfree. destruct s as [d ms]. simpl in Hfree. subst ms.
  unfold execute_one, apply_action. destruct (op a).
  - rewrite run_bind. unfold get.
    destruct ((field a <? 0) || (field a >=? Z.of_nat Array2.size)) eqn:E.
    + reflexivity.
    + apply valid_index_guard in E. destruct E as [-> | ->]; reflexivity.
  - unfold set.
    destruct ((field a <? 0) || (field a >=? Z.of_nat Array2.size)) eqn:E.
    + reflexivity.
    + apply valid_index_guard in E. destruct E as [-> | ->]; reflexivity.
  - rewrite run_bind, run_to_std_string. reflexivity.
Qed.

Lemma run_execute (actions : list Action) (s : SafeStruct) :
  mutexes s = (false, false) ->
  run (execute actions) s
  = Some (tt, {| data := fold_left apply_action actions (data s);
                 mutexes := (false, false) |}).
Proof.
  revert s. induction actions as [| a rest IH]; intros s Hfree.
  - destruct s as [d ms]. simpl in *. subst ms. reflexivity.
  - cbn [execute fold_left]. rewrite run_bind, run_execute_one by assumption.
    rewrite IH by reflexivity. reflexivity.
Qed.

(** X3: alone on a record whose mutexes are free, the trace player always
    returns, with the mutexes free again, and the fields it leaves are those
    obtained by applying the writes of the workload in order: reads,
    snapshots and writes to a field outside the record change nothing. *)
Theorem execute_applies_writes (actions : list Action) (d : Array2.t Z) :
  run (execute actions) {| data := d; mutexes := (false, false) |}
  = Some (tt, {| data := fold_left apply_action actions d;
                 mutexes := (false, false) |}).
Proof. apply (run_execute actions {| data := d; mutexes := (false, false) |}). reflexivity. Qed.

(** X4: a run of [run_once] with a single worker has one outcome whatever the
    scheduler does: it can complete, and the record it completes with is the
    one the workload's writes, applied in order, lead to. *)
Theorem single_worker_outcome (actions : list Action) (d : Array2.t Z)
  (s' : SafeStruct) :
  completes (run_once {| data := d; mutexes := (false, false) |} [actions]) s'
  <-> s' = {| data := fold_left apply_action actions d; mutexes := (false, false) |}.
Proof.
  split.
  - intros (c' & Hpath & Hjoined & Hs').
    destruct (single_thread_rtc _ c' Hpath _ eq_refl) as (p' & Hth & Hrun).
    unfold joined in Hjoined. rewrite Hth in Hjoined.
    apply Forall_cons in Hjoined as [-> _].
    simpl in Hrun. rewrite run_execute in Hrun by reflexivity.
    injection Hrun as <-. symmetry. exact Hs'.
  - intros ->.
    destruct (run_can_complete
                (run_once {| data := d; mutexes := (false, false) |} [actions])
                (lock_invariant_run_once d [actions]))
      as (s1 & c' & Hpath & Hjoined & Hs1).
    exists c'. split; [exact Hpath |]. split; [exact Hjoined |].
    destruct (single_thread_rtc _ c' Hpath _ eq_refl) as (p' & Hth & Hrun).
    unfold joined in Hjoined. rewrite Hth in Hjoined.
    apply Forall_cons in Hjoined as [-> _].
    simpl in Hrun. rewrite run_execute in Hrun by reflexivity.
    injection Hrun as <-. reflexivity.
Qed.

(** ** What the mutexes give *)

Lemma at_access_holds {A : Type} (h : Array2.t bool) (p : prog A) (f : Z) :
  disciplined h p -> at_access p f -> valid_index f /\ Array2.at_ h f = true.
Proof.
  intros Hp Hacc. destruct Hp; simpl in Hacc; try contradiction; subst; auto.
Qed.

(** X5: no two threads are ever at a load or a store of the same field at
    the same time, in any state a run of [run_once] can reach: the mutex of
    the field is held by the one that is. *)
Theorem one_thread_per_field (d : Array2.t Z) (action_lists : list (list Action))
  (c : config) (t1 t2 : nat) (p1 p2 : prog unit) (f : Z) :
  rtc step (run_once {| data := d; mutexes := (false, false) |} action_lists) c ->
  threads c !! t1 = Some p1 -> threads c !! t2 = Some p2 ->
  at_access p1 f -> at_access p2 f ->
  t1 = t2 /\ locked (shared c) f = true.
Proof.
  intros Hreach H1 H2 Ha1 Ha2.
  destruct (lock_invariant_rtc _ c (lock_invariant_run_once d action_lists) Hreach)
    as (owner & Hl & _ & Hd).
  destruct (at_access_holds _ p1 f (Hd t1 p1 H1) Ha1) as [Hf Hh1].
  destruct (at_access_holds _ p2 f (Hd t2 p2 H2) Ha2) as [_ Hh2].
  rewrite at_held_by in Hh1, Hh2.
  apply bool_decide_eq_true in Hh1. apply bool_decide_eq_true in Hh2.
  split; [congruence |].
  rewrite (Hl f Hf). apply bool_decide_eq_true. eauto.
Qed.

Lemma one_thread_per_field_witness :
  (0%nat = 0%nat) /\
  locked {| data := (0, 0); mutexes := (false, true) |} 1 = true.
Proof.
  refine (one_thread_per_field (0, 0)
            [ [ {| op := WRITE; field := 1; value := 5 |} ] ]
            {| shared := {| data := (0, 0); mutexes := (false, true) |};
               threads := [ Store 1 5 (Unlock 1 (execute [])) ] |}
            0 0 (Store 1 5 (Unlock 1 (execute [])))
            (Store 1 5 (Unlock 1 (execute []))) 1 _ eq_refl eq_refl eq_refl eq_refl).
  apply rtc_once.
  refine (step_thread {| data := (0, 0); mutexes := (false, false) |}
            {| data := (0, 0); mutexes := (false, true) |}
            (map execute [ [ {| op := WRITE; field := 1; value := 5 |} ] ])
            0 (execute [ {| op := WRITE; field := 1; value := 5 |} ])
            (Store 1 5 (Unlock 1 (execute []))) eq_refl _).
  simpl. apply list_elem_of_singleton. reflexivity.
Defined.

(** ** Where the values of the fields come from *)

Lemma stores_only_bind {A B : Type} (P : Z -> Z -> Prop) (p : prog A)
  (q : A -> prog B) :
  stores_only P p -> (forall a, stores_only P (q a)) -> stores_only P (bind p q).
Proof.
  intros Hp Hq. induction p as [a | m k IH | m k IH | ph k IH | f k IH | f v k IH];
    simpl in *; auto.
  destruct Hp as [HP Hk]. auto.
Qed.

Lemma stores_only_get (P : Z -> Z -> Prop) (field : Z) : stores_only P (get field).
Proof.
  unfold get. destruct ((field <? 0) || (field >=? Z.of_nat Array2.size)); simpl; auto.
Qed.

Lemma stores_only_to_std_string (P : Z -> Z -> Prop) : stores_only P to_std_string.
Proof. unfold to_std_string. simpl. auto. Qed.

Lemma stores_only_execute_one (P : Z -> Z -> Prop) (a : Action) :
  (op a = WRITE -> valid_index (field a) -> P (field a) (value a)) ->
  stores_only P (execute_one a).
Proof.
  intros HP. unfold execute_one. destruct (op a) eqn:Hop.
  - apply stores_only_bind; [apply stores_only_get | simpl; auto].
  - unfold set.
    destruct ((field a <? 0) || (field a >=? Z.of_nat Array2.size)) eqn:E;
      simpl; auto.
    apply valid_index_guard in E. auto.
  - apply stores_only_bind; [apply stores_only_to_std_string | simpl; auto].
Qed.

Lemma stores_only_execute (P : Z -> Z -> Prop) (actions : list Action) :
  (forall a, a ∈ actions -> op a = WRITE -> valid_index (field a) ->
             P (field a) (value a)) ->
  stores_only P (execute actions).
Proof.
  induction actions as [| a rest IH]; intros HP; simpl; [exact I |].
  apply stores_only_bind.
  - apply stores_only_execute_one. apply HP. apply elem_of_cons. left; reflexivity.
  - intros _. apply IH. intros b Hb. apply HP. apply elem_of_cons. right; exact Hb.
Qed.

(** A step of a thread leaves the fields alone or makes one of the stores of
    its program. *)
Lemma thread_step_stores {A : Type} (P : Z -> Z -> Prop) (s s' : SafeStruct)
  (p p' : prog A) :
  stores_only P p -> thread_step (s, p) (s', p') ->
  stores_only P p' /\
  (data s' = data s \/ exists f v, P f v /\ data s' = Array2.assign (data s) f v).
Proof.
  unfold thread_step. simpl. intros Hso Hin.
  destruct p as [a | m k | m k | [i | i] k | f k | f v k]; simpl in *.
  - apply elem_of_nil in Hin. contradiction.
  - destruct (locked s m); [apply elem_of_nil in Hin; contradiction |].
    apply list_elem_of_singleton in Hin. injection Hin as -> ->. auto.
  - apply list_elem_of_singleton in Hin. injection Hin as -> ->. auto.
  - destruct (locked s i); [apply elem_of_nil in Hin; contradiction |].
    apply list_elem_of_singleton in Hin. injection Hin as -> ->. auto.
  - destruct (locked s (other i)).
    + apply elem_of_cons in Hin. destruct Hin as [Hin | Hin].
      * injection Hin as -> ->. auto.
      * apply list_elem_of_singleton in Hin. injection Hin as -> ->. auto.
    + apply list_elem_of_singleton in Hin. injection Hin as -> ->. auto.
  - apply list_elem_of_singleton in Hin. injection Hin as -> ->. auto.
  - apply list_elem_of_singleton in Hin. injection Hin as -> ->.
    destruct Hso as [HP Hk]. split; [exact Hk |]. right. eauto.
Qed.

(** Along a run, every field holds its first value or one that some thread's
    program stores into it. *)
Lemma run_values (P : Z -> Z -> Prop) (c c' : config) :
  (forall f v, P f v -> valid_index f) ->
  rtc step c c' ->
  Forall (stores_only P) (threads c) ->
  Forall (stores_only P) (threads c') /\
  (forall f, valid_index f ->
     Array2.at_ (data (shared c')) f = Array2.at_ (data (shared c)) f \/
     P f (Array2.at_ (data (shared c')) f)).
Proof.
  intros HPv Hsteps. induction Hsteps as [c | c c1 c2 Hstep _ IH]; intros Hall.
  - split; [exact Hall | auto].
  - destruct Hstep as [s s1 ts t p p1 Hlook Hin]. simpl in *.
    assert (Hp : stores_only P p) by (eapply Forall_lookup_1; eauto).
    destruct (thread_step_stores P s s1 p p1 Hp Hin) as [Hp1 Hdata].
    destruct IH as [Hall2 Hvals].
    { apply Forall_insert; assumption. }
    split; [exact Hall2 |]. intros f Hf.
    destruct (Hvals f Hf) as [Hsame | HP]; [| right; exact HP].
    rewrite Hsame. destruct Hdata as [-> | (g & v & HPg & ->)]; [left; reflexivity |].
    destruct (valid_index_eq_dec g f (HPv g v HPg) Hf) as [-> | Hne].
    + right. rewrite at_assign_same. exact HPg.
    + left. apply at_assign_other; [eapply HPv; eauto | exact Hf | exact Hne].
Qed.

Lemma run_once_stores (s : SafeStruct) (action_lists : list (list Action)) :
  Forall (stores_only (written_by action_lists)) (threads (run_once s action_lists)).
Proof.
  unfold run_once. simpl. apply Forall_fmap, Forall_forall. intros actions Hin.
  apply stores_only_execute. intros a Ha Hop Hvalid.
  split; [exact Hvalid |]. exists actions, a. auto.
Qed.

(** X6: no value appears from nowhere.  In every state a run of [run_once]
    can reach, under any interleaving of any number of workers, each field
    holds either the value it had when the run started or the value of some
    write to that field in one of the workloads. *)
Theorem fields_hold_written_values (s : SafeStruct)
  (action_lists : list (list Action)) (c : config) (f : Z) :
  rtc step (run_once s action_lists) c ->
  valid_index f ->
  Array2.at_ (data (shared c)) f = Array2.at_ (data s) f \/
  written_by action_lists f (Array2.at_ (data (shared c)) f).
Proof.
  intros Hreach Hf.
  destruct (run_values (written_by action_lists) _ c
              (fun f v H => proj1 H) Hreach (run_once_stores s action_lists))
    as [_ Hvals].
  apply (Hvals f Hf).
Qed.

Lemma fields_hold_written_values_witness :
  Array2.at_ (data (acquire 1 {| data := (3, 4); mutexes := (false, false) |})) 1
  = Array2.at_ (data {| data := (3, 4); mutexes := (false, false) |}) 1 \/
  written_by [ [ {| op := WRITE; field := 1; value := 5 |} ] ] 1
    (Array2.at_ (data (acquire 1 {| data := (3, 4); mutexes := (false, false) |})) 1).
Proof.
  refine (fields_hold_written_values
            {| data := (3, 4); mutexes := (false, false) |}
            [ [ {| op := WRITE; field := 1; value := 5 |} ] ]
            {| shared := acquire 1 {| data := (3, 4); mutexes := (false, false) |};
               threads := [ Store 1 5 (Unlock 1 (execute [])) ] |}
            1 _ (or_intror eq_refl)).
  apply rtc_once.
  refine (step_thread {| data := (3, 4); mutexes := (false, false) |}
            (acquire 1 {| data := (3, 4); mutexes := (false, false) |})
            (map execute [ [ {| op := WRITE; field := 1; value := 5 |} ] ])
            0 (execute [ {| op := WRITE; field := 1; value := 5 |} ])
            (Store 1 5 (Unlock 1 (execute []))) eq_refl _).
  simpl. apply list_elem_of_singleton. reflexivity.
Defined.

(** X7: workloads without a write to a field of the record never change a
    field, however many workers replay them and however they interleave:
    reads and snapshots only read. *)
Theorem reads_and_snapshots_change_nothing (s : SafeStruct)
  (action_lists : list (list Action)) (c : config) :
  (forall actions a, actions ∈ action_lists -> a ∈ actions ->
     op a = WRITE -> ~ valid_index (field a)) ->
  rtc step (run_once s action_lists) c ->
  data (shared c) = data s.
Proof.
  intros Hnow Hreach.
  assert (Hsame : forall f, valid_index f ->
            Array2.at_ (data (shared c)) f = Array2.at_ (data s) f).
  { intros f Hf.
    destruct (run_values (written_by action_lists) _ c
                (fun f v H => proj1 H) Hreach (run_once_stores s action_lists))
      as [_ Hvals].
    destruct (Hvals f Hf) as [E | (_ & actions & a & H1 & H2 & Hop & Hfield & _)];
      [exact E |].
    exfalso. apply (Hnow actions a H1 H2 Hop). rewrite Hfield. exact Hf. }
  pose proof (Hsame 0 (or_introl eq_refl)) as E0.
  pose proof (Hsame 1 (or_intror eq_refl)) as E1.
  unfold Array2.at_ in E0, E1. simpl in E0, E1.
  destruct (data (shared c)), (data s). simpl in *. congruence.
Qed.

Lemma reads_and_snapshots_change_nothing_witness :
  data (acquire 0 {| data := (3, 4); mutexes := (false, false) |}) = (3, 4).
Proof.
  refine (reads_and_snapshots_change_nothing
            {| data := (3, 4); mutexes := (false, false) |}
            [ [ {| op := READ; field := 0; value := 0 |} ];
              [ {| op := WRITE; field := 2; value := 9 |} ] ]
            {| shared := acquire 0 {| data := (3, 4); mutexes := (false, false) |};
               threads := [ Load 0 (fun v => Unlock 0 (execute []));
                            execute [ {| op := WRITE; field := 2; value := 9 |} ] ] |}
            _ _).
  - intros actions a Hactions Ha Hop.
    apply elem_of_cons in Hactions as [-> | Hactions].
    + apply list_elem_of_singleton in Ha. subst a. discriminate.
    + apply list_elem_of_singleton in Hactions. subst actions.
      apply list_elem_of_singleton in Ha. subst a.
      unfold valid_index. simpl. lia.
  - apply rtc_once.
    refine (step_thread {| data := (3, 4); mutexes := (false, false) |}
              (acquire 0 {| data := (3, 4); mutexes := (false, false) |})
              (map execute [ [ {| op := READ; field := 0; value := 0 |} ];
                             [ {| op := WRITE; field := 2; value := 9 |} ] ])
              0 (execute [ {| op := READ; field := 0; value := 0 |} ])
              (Load 0 (fun v => Unlock 0 (execute []))) eq_refl _).
    simpl. apply list_elem_of_singleton. reflexivity.
Defined.

(** ** The snapshot reads one state *)

(** A thread that holds nothing cannot move while both mutexes are held. *)
Lemma empty_handed_blocked {A : Type} (h : Array2.t bool) (q : prog A)
  (s : SafeStruct) :
  disciplined h q -> h = none_held ->
  locked s 0 = true -> locked s 1 = true ->
  tsteps s q = [].
Proof.
  intros Hq Hh H0 H1.
  destruct Hq as [a | m k Hm Hk | h m k Hm Hheld Hk | i k Hi Hk | i k Hi Hk
                 | h f k Hf Hheld Hk | h f v k Hf Hheld Hk]; simpl.
  - reflexivity.
  - destruct Hm as [-> | ->]; [rewrite H0 | rewrite H1]; reflexivity.
  - subst h. destruct Hm as [-> | ->]; discriminate.
  - destruct Hi as [-> | ->]; [rewrite H0 | rewrite H1]; reflexivity.
  - destruct Hi as [-> | ->]; discriminate.
  - subst h. destruct Hf as [-> | ->]; discriminate.
  - subst h. destruct Hf as [-> | ->]; discriminate.
Qed.

(** While a thread holds both mutexes, the only steps of the run are its
    own. *)
Lemma holder_of_both_alone (owner : Array2.t (option nat)) (s : SafeStruct)
  (ts : list (prog unit)) (c' : config) (t : nat) (p : prog unit) :
  (forall m, valid_index m ->
     locked s m = bool_decide (is_Some (Array2.at_ owner m))) ->
  (forall t' q, ts !! t' = Some q -> disciplined (held_by owner t') q) ->
  ts !! t = Some p ->
  held_by owner t = both_held ->
  step {| shared := s; threads := ts |} c' ->
  exists s' p', (s', p') ∈ tsteps s p /\
                c' = {| shared := s'; threads := <[t := p']> ts |}.
Proof.
  intros Hl Hd Hp Hown Hstep.
  inversion Hstep as [s0 s' ts0 t' q q' Hq Hin]; subst.
  destruct (decide (t' = t)) as [-> | Hne].
  { rewrite Hp in Hq. injection Hq as <-. eauto. }
  exfalso.
  unfold held_by, both_held in Hown. injection Hown as E0 E1.
  apply bool_decide_eq_true in E0. apply bool_decide_eq_true in E1.
  assert (Hnone : held_by owner t' = none_held).
  { unfold held_by, none_held. rewrite E0, E1.
    rewrite !bool_decide_eq_false_2 by congruence. reflexivity. }
  assert (H0 : locked s 0 = true).
  { rewrite (Hl 0 (or_introl eq_refl)). apply bool_decide_eq_true.
    unfold Array2.at_. simpl. rewrite E0. eauto. }
  assert (H1 : locked s 1 = true).
  { rewrite (Hl 1 (or_intror eq_refl)). apply bool_decide_eq_true.
    unfold Array2.at_. simpl. rewrite E1. eauto. }
  rewrite (empty_handed_blocked _ q s (Hd t' q Hq) Hnone H0 H1) in Hin.
  apply elem_of_nil in Hin. exact Hin.
Qed.

(** A thread about to load field 0 and then field 1 holds both mutexes. *)
Lemma loads_both_holds_both {A : Type} (k0 : Z -> prog A) (k1 : Z -> Z -> prog A)
  (h : Array2.t bool) :
  (forall d0, k0 d0 = Load 1 (k1 d0)) ->
  disciplined h (Load 0 k0) ->
  h = both_held /\ forall d0, disciplined h (Load 1 (k1 d0)).
Proof.
  intros Hk0 Hd. inversion Hd as [| | | | | h' f k Hf Hheld Hk |]; subst.
  split; [| intros d0; rewrite <- Hk0; apply Hk].
  specialize (Hk 0). rewrite Hk0 in Hk.
  inversion Hk as [| | | | | h' f k Hf' Hheld' Hk' |]; subst.
  destruct h as [[|] [|]]; try discriminate. reflexivity.
Qed.

(** X8: the two loads of a snapshot read the two fields of one and the same
    state of the record.  From a state of a run in which a thread is at the
    load of field 0 that a load of field 1 follows, the next two steps of the
    run can only be these two loads: no other thread moves in between, the
    record stays as it is, and the thread goes on with the values the two
    fields have in that state. *)
Theorem snapshot_reads_one_state (d : Array2.t Z)
  (action_lists : list (list Action)) (c c1 c2 : config) (t : nat)
  (k0 : Z -> prog unit) (k1 : Z -> Z -> prog unit) :
  rtc step (run_once {| data := d; mutexes := (false, false) |} action_lists) c ->
  threads c !! t = Some (Load 0 k0) ->
  (forall d0, k0 d0 = Load 1 (k1 d0)) ->
  step c c1 -> step c1 c2 ->
  shared c2 = shared c /\
  threads c2
  = <[t := k1 (Array2.at_ (data (shared c)) 0) (Array2.at_ (data (shared c)) 1)]>
      (threads c).
Proof.
  intros Hreach Hp Hk0 Hstep1 Hstep2.
  destruct (lock_invariant_rtc _ c (lock_invariant_run_once d action_lists) Hreach)
    as (owner & Hl & _ & Hd).
  destruct c as [s ts]. simpl in *.
  assert (Hlt : (t < length ts)%nat) by (eapply lookup_lt_Some; eauto).
  destruct (loads_both_holds_both k0 k1 _ Hk0 (Hd t _ Hp)) as [Hown Hnext].
  destruct (holder_of_both_alone owner s ts c1 t _ Hl Hd Hp Hown Hstep1)
    as (s1 & p1 & Hin1 & ->).
  simpl in Hin1. apply list_elem_of_singleton in Hin1. injection Hin1 as -> ->.
  rewrite Hk0 in Hstep2.
  destruct (holder_of_both_alone owner s
              (<[t := Load 1 (k1 (Array2.at_ (data s) 0))]> ts) c2 t
              (Load 1 (k1 (Array2.at_ (data s) 0))) Hl)
    as (s2 & p2 & Hin2 & ->); [| | exact Hown | exact Hstep2 |].
  - intros t' q Hq. destruct (decide (t' = t)) as [-> | Hne].
    + rewrite list_lookup_insert_eq in Hq by exact Hlt. injection Hq as <-.
      apply Hnext.
    + rewrite list_lookup_insert_ne in Hq by congruence. apply Hd. exact Hq.
  - apply list_lookup_insert_eq. exact Hlt.
  - simpl in Hin2. apply list_elem_of_singleton in Hin2. injection Hin2 as -> ->.
    simpl. split; [reflexivity |]. apply list_insert_insert_eq.
Qed.

Lemma snapshot_reads_one_state_witness :
  shared {| shared := {| data := (3, 4); mutexes := (true, true) |};
            threads := [after_loads 3 4] |}
  = {| data := (3, 4); mutexes := (true, true) |} /\
  threads {| shared := {| data := (3, 4); mutexes := (true, true) |};
             threads := [after_loads 3 4] |}
  = <[0%nat := after_loads 3 4]> [Load 0 after_load0].
Proof.
  refine (snapshot_reads_one_state (3, 4)
            [ [ {| op := STR; field := -1; value := 0 |} ] ]
            {| shared := {| data := (3, 4); mutexes := (true, true) |};
               threads := [Load 0 after_load0] |}
            {| shared := {| data := (3, 4); mutexes := (true, true) |};
               threads := [after_load0 3] |}
            {| shared := {| data := (3, 4); mutexes := (true, true) |};
               threads := [after_loads 3 4] |}
            0 after_load0 after_loads _ eq_refl (fun _ => eq_refl) _ _).
  - eapply rtc_l; [| apply rtc_once].
    + refine (step_thread {| data := (3, 4); mutexes := (false, false) |}
                {| data := (3, 4); mutexes := (true, false) |}
                (map execute [ [ {| op := STR; field := -1; value := 0 |} ] ])
                0 (execute [ {| op := STR; field := -1; value := 0 |} ])
                (StdLock (Hold 0) (Load 0 after_load0)) eq_refl _).
      simpl. apply list_elem_of_singleton. reflexivity.
    + refine (step_thread {| data := (3, 4); mutexes := (true, false) |}
                {| data := (3, 4); mutexes := (true, true) |}
                [StdLock (Hold 0) (Load 0 after_load0)]
                0 (StdLock (Hold 0) (Load 0 after_load0))
                (Load 0 after_load0) eq_refl _).
      simpl. apply list_elem_of_singleton. reflexivity.
  - refine (step_thread {| data := (3, 4); mutexes := (true, true) |}
              {| data := (3, 4); mutexes := (true, true) |}
              [Load 0 after_load0] 0 (Load 0 after_load0) (after_load0 3) eq_refl _).
    simpl. apply list_elem_of_singleton. reflexivity.
  - refine (step_thread {| data := (3, 4); mutexes := (true, true) |}
              {| data := (3, 4); mutexes := (true, true) |}
              [after_load0 3] 0 (after_load0 3) (after_loads 3 4) eq_refl _).
    simpl. apply list_elem_of_singleton. reflexivity.
Defined.

(** ** What is generated is read back *)

Lemma getlines_generated_line (op_type : Z) (tail : string) :
  getlines (line_of_draw op_type ++ String newline tail) EmptyString
  = line_of_draw op_type :: getlines tail EmptyString.
Proof.
  unfold line_of_draw.
  destruct (op_type =? 0); [reflexivity |].
  destruct (op_type =? 1); [reflexivity |].
  destruct (op_type =? 2); [reflexivity |].
  destruct (op_type =? 3); reflexivity.
Qed.

Lemma parse_generated_line (f0 v0 op_type : Z) :
  parse_line f0 v0 (line_of_draw op_type) = Some (action_of_draw op_type).
Proof.
  unfold line_of_draw, action_of_draw.
  destruct (op_type =? 0); [reflexivity |].
  destruct (op_type =? 1); [reflexivity |].
  destruct (op_type =? 2); [reflexivity |].
  destruct (op_type =? 3); reflexivity.
Qed.

Lemma parse_generated_lines' (junk : nat -> Z * Z) (n : nat) (draws : list Z) :
  parse_lines junk n (getlines (generate_lines draws) EmptyString)
  = map action_of_draw draws.
Proof.
  revert n. induction draws as [| d rest IH]; intros n; [reflexivity |].
  cbn [generate_lines map]. rewrite getlines_generated_line.
  cbn [parse_lines]. rewrite parse_generated_line, IH. reflexivity.
Qed.

(** X9: a trace file is read back as it was generated.  After
    [generate_file] has written [num_ops] lines to a file it could open,
    [parse_file] on that file gives exactly [num_ops] actions, the [i]-th
    being the one the [i]-th draw stands for, whatever the uninitialised
    locals of the parser hold; the other files are as they were. *)
Theorem generated_file_reads_back (writable : string -> bool) (draw : nat -> Z)
  (fs : string -> option string) (junk : nat -> Z * Z)
  (filename : string) (num_ops : Z) :
  writable filename = true -> 0 <= num_ops ->
  let fs' := generate_file writable draw fs filename num_ops in
  parse_file fs' junk filename
  = map (fun i => action_of_draw (draw i)) (seq 0 (Z.to_nat num_ops)) /\
  Z.of_nat (length (parse_file fs' junk filename)) = num_ops /\
  (forall other_name, other_name <> filename -> fs' other_name = fs other_name).
Proof.
  intros Hw Hn fs'.
  assert (Hparse : parse_file fs' junk filename
                   = map (fun i => action_of_draw (draw i)) (seq 0 (Z.to_nat num_ops))).
  { unfold parse_file, fs', generate_file, write_file. rewrite Hw.
    rewrite String.eqb_refl, parse_generated_lines', map_map. reflexivity. }
  split; [exact Hparse |]. split.
  - rewrite Hparse, length_map, length_seq. lia.
  - intros other_name Hne. unfold fs', generate_file, write_file. rewrite Hw.
    destruct (String.eqb other_name filename) eqn:E; [| reflexivity].
    apply String.eqb_eq in E. contradiction.
Qed.

Lemma generated_file_reads_back_witness :
  parse_file
    (generate_file (fun _ => true) (fun i => Z.of_nat i) (fun _ => None)
       "input_A_variant_1_0.txt" 6)
    (fun _ => (0, 0)) "input_A_variant_1_0.txt"
  = [ {| op := READ; field := 0; value := 0 |};
      {| op := WRITE; field := 0; value := 1 |};
      {| op := READ; field := 1; value := 0 |};
      {| op := WRITE; field := 1; value := 1 |};
      {| op := STR; field := -1; value := 0 |};
      {| op := STR; field := -1; value := 0 |} ].
Proof.
  refine (proj1 (generated_file_reads_back (fun _ => true) (fun i => Z.of_nat i)
                   (fun _ => None) (fun _ => (0, 0)) "input_A_variant_1_0.txt" 6
                   eq_refl _)).
  lia.
Defined.

(** ** The names of the trace files *)

Lemma chars_app (a b : string) :
  list_ascii_of_string (a ++ b)
  = list_ascii_of_string a ++ list_ascii_of_string b.
Proof. induction a as [| c a IH]; simpl; [reflexivity | rewrite IH; reflexivity]. Qed.

Lemma chars_inj (a b : string) :
  list_ascii_of_string a = list_ascii_of_string b -> a = b.
Proof.
  intros H. apply (f_equal string_of_list_ascii) in H.
  rewrite !string_of_list_ascii_of_string in H. exact H.
Qed.

(** A list is cut at its first separator in one way only. *)
Lemma cut_at_separator (sep : ascii) (l1 l2 r1 r2 : list ascii) :
  sep ∉ l1 -> sep ∉ l2 ->
  l1 ++ sep :: r1 = l2 ++ sep :: r2 -> l1 = l2 /\ r1 = r2.
Proof.
  revert l2. induction l1 as [| x l1 IH]; intros l2 H1 H2 Heq.
  - destruct l2 as [| y l2]; simpl in Heq.
    + injection Heq as ->. auto.
    + injection Heq as <- _. exfalso. apply H2. apply elem_of_cons. left; reflexivity.
  - destruct l2 as [| y l2]; simpl in Heq.
    + injection Heq as -> _. exfalso. apply H1. apply elem_of_cons. left; reflexivity.
    + injection Heq as -> Heq.
      destruct (IH l2) as [-> ->]; auto.
      * intros Hin. apply H1. apply elem_of_cons. right; exact Hin.
      * intros Hin. apply H2. apply elem_of_cons. right; exact Hin.
Qed.

Lemma digits_value_chars (s : string) (acc v : Z) (c : ascii) :
  digits_value s acc = Some v -> c ∈ list_ascii_of_string s -> isdigit c = true.
Proof.
  revert acc. induction s as [| x s IH]; intros acc Hv Hin; simpl in *.
  - apply elem_of_nil in Hin. contradiction.
  - destruct (isdigit x) eqn:Hx; [| discriminate].
    apply elem_of_cons in Hin as [-> | Hin]; [exact Hx | eapply IH; eauto].
Qed.

(** [to_string] writes digits and at most a minus sign: no underscore. *)
Lemma to_string_no_underscore (z : Z) : "_"%char ∉ list_ascii_of_string (to_string z).
Proof.
  intros Hin. unfold to_string in Hin.
  destruct (z <? 0) eqn:Hneg.
  - apply Z.ltb_lt in Hneg. assert (Hnn : 0 <= - z) by lia.
    simpl in Hin. apply elem_of_cons in Hin as [Hin | Hin]; [discriminate |].
    pose proof (digits_of_value _ (- z) (conj Hnn (enough_fuel (- z) Hnn))) as Hval.
    pose proof (digits_value_chars _ _ _ _ Hval Hin). discriminate.
  - apply Z.ltb_ge in Hneg.
    pose proof (digits_of_value _ z (conj Hneg (enough_fuel z Hneg))) as Hval.
    pose proof (digits_value_chars _ _ _ _ Hval Hin). discriminate.
Qed.

Lemma to_string_inj (a b : Z) : to_string a = to_string b -> a = b.
Proof.
  intros H. destruct (to_string_decimal a) as [Ha _].
  destruct (to_string_decimal b) as [Hb _]. congruence.
Qed.

Lemma reverse_cut (l r : list ascii) (x : ascii) :
  reverse (l ++ x :: r) = reverse r ++ x :: reverse l.
Proof. rewrite reverse_app, reverse_cons, <- app_assoc. reflexivity. Qed.

(** A file name determines the tag and the two numbers it was made from. *)
Lemma filename_parts (tag tag' : string) (t i t' i' : Z) :
  ("input_" ++ tag ++ "_" ++ to_string t ++ "_" ++ to_string i ++ ".txt")%string
  = ("input_" ++ tag' ++ "_" ++ to_string t' ++ "_" ++ to_string i' ++ ".txt")%string ->
  tag = tag' /\ t = t' /\ i = i'.
Proof.
  intros Heq. apply (f_equal list_ascii_of_string) in Heq.
  rewrite !chars_app in Heq.
  apply app_inv_head in Heq.
  change (list_ascii_of_string "_") with ["_"%char] in Heq.
  cbn [app] in Heq.
  set (T := list_ascii_of_string (to_string t)) in *.
  set (I := list_ascii_of_string (to_string i)) in *.
  set (T' := list_ascii_of_string (to_string t')) in *.
  set (I' := list_ascii_of_string (to_string i')) in *.
  set (G := list_ascii_of_string tag) in *.
  set (G' := list_ascii_of_string tag') in *.
  set (X := list_ascii_of_string ".txt") in *.
  assert (Heq2 : (G ++ "_"%char :: T) ++ "_"%char :: I
                 = (G' ++ "_"%char :: T') ++ "_"%char :: I').
  { apply (app_inv_tail X). rewrite <- !app_assoc. cbn [app].
    rewrite <- ?app_assoc. exact Heq. }
  apply (f_equal reverse) in Heq2. rewrite !reverse_cut in Heq2.
  apply cut_at_separator in Heq2 as [HI Heq3];
    [| rewrite elem_of_reverse; apply to_string_no_underscore
     | rewrite elem_of_reverse; apply to_string_no_underscore].
  apply cut_at_separator in Heq3 as [HT HG];
    [| rewrite elem_of_reverse; apply to_string_no_underscore
     | rewrite elem_of_reverse; apply to_string_no_underscore].
  apply (inj reverse) in HI. apply (inj reverse) in HT. apply (inj reverse) in HG.
  split; [apply chars_inj; exact HG |].
  split; apply to_string_inj, chars_inj; assumption.
Qed.

Lemma filename_determines_piece (tags : list string) (variant variant' : nat)
  (t i t' i' : Z) :
  NoDup tags -> (variant < length tags)%nat -> (variant' < length tags)%nat ->
  trace_filename tags variant t i = trace_filename tags variant' t' i' ->
  variant = variant' /\ t = t' /\ i = i'.
Proof.
  intros Hnd Hv Hv' Heq. unfold trace_filename in Heq.
  apply filename_parts in Heq as (Htag & Ht & Hi).
  split; [| auto].
  destruct (lookup_lt_is_Some_2 tags variant Hv) as [x Hx].
  destruct (lookup_lt_is_Some_2 tags variant' Hv') as [y Hy].
  rewrite (nth_lookup_Some _ _ _ _ Hx), (nth_lookup_Some _ _ _ _ Hy) in Htag.
  subst y. eapply NoDup_lookup; eauto.
Qed.

(** X11: two trace files have the same name only when they are the same
    piece of the same variant for the same thread count, provided the tags
    of the variants differ: a reader never takes one piece's file for
    another's. *)
Theorem trace_filename_inj (tags : list string) (variant variant' : nat)
  (t i t' i' : Z) :
  NoDup tags -> (variant < length tags)%nat -> (variant' < length tags)%nat ->
  trace_filename tags variant t i = trace_filename tags variant' t' i' ->
  variant = variant' /\ t = t' /\ i = i'.
Proof. apply filename_determines_piece. Qed.

Lemma trace_filename_inj_witness :
  (1%nat = 1%nat) /\ 2 = 2 /\ 0 = 0.
Proof.
  apply (trace_filename_inj main_tags 1 1 2 0 2 0).
  - unfold main_tags. repeat constructor; intros Hin;
      repeat (apply elem_of_cons in Hin as [Hin | Hin]; [discriminate |]);
      apply elem_of_nil in Hin; exact Hin.
  - simpl. lia.
  - simpl. lia.
  - reflexivity.
Defined.

(** ** The files [generate_all_files] writes *)

Lemma elem_of_int_range (lo hi z : Z) : z ∈ int_range lo hi <-> lo <= z < hi.
Proof.
  unfold int_range. rewrite list_elem_of_fmap. split.
  - intros (k & -> & Hk). apply elem_of_seq in Hk. lia.
  - intros Hz. exists (Z.to_nat (z - lo)). split; [lia |]. apply elem_of_seq. lia.
Qed.

Lemma NoDup_int_range (lo hi : Z) : NoDup (int_range lo hi).
Proof.
  unfold int_range. apply NoDup_fmap_2_strong; [| apply NoDup_seq].
  intros x y _ _ H. lia.
Qed.

Lemma flat_map_bind {A B : Type} (f : A -> list B) (l : list A) :
  flat_map f l = l ≫= f.
Proof. induction l as [| x l IH]; [reflexivity |]. simpl. rewrite IH. reflexivity. Qed.

Lemma elem_of_generate_pieces (num_ops : Z) (tags : list string) (t : Z)
  (variant : nat) (c : generate_call) :
  c ∈ generate_pieces num_ops tags t variant <->
  exists i, 0 <= i < t /\
    c = {| call_filename := trace_filename tags variant t i;
           call_nops := piece_nops num_ops t i;
           call_variant := variant |}.
Proof.
  unfold generate_pieces. rewrite list_elem_of_fmap. split.
  - intros (i & -> & Hi). apply elem_of_int_range in Hi. eauto.
  - intros (i & Hi & ->). exists i. split; [reflexivity |].
    apply elem_of_int_range. exact Hi.
Qed.

Lemma elem_of_generate_all_files (num_ops max_threads : Z) (tags : list string)
  (c : generate_call) :
  c ∈ generate_all_files num_ops max_threads tags <->
  exists t variant i,
    1 <= t <= max_threads /\ (variant < 3)%nat /\ 0 <= i < t /\
    c = {| call_filename := trace_filename tags variant t i;
           call_nops := piece_nops num_ops t i;
           call_variant := variant |}.
Proof.
  unfold generate_all_files. rewrite flat_map_bind, list_elem_of_bind. split.
  - intros (t & Hc & Ht). rewrite flat_map_bind, list_elem_of_bind in Hc.
    destruct Hc as (variant & Hc & Hv).
    apply elem_of_generate_pieces in Hc as (i & Hi & ->).
    apply elem_of_int_range in Ht. apply elem_of_seq in Hv.
    exists t, variant, i. repeat split; try lia.
  - intros (t & variant & i & Ht & Hv & Hi & ->).
    exists t. split; [| apply elem_of_int_range; lia].
    rewrite flat_map_bind, list_elem_of_bind. exists variant.
    split; [| apply elem_of_seq; lia].
    apply elem_of_generate_pieces. eauto.
Qed.

Lemma generated_filenames_NoDup (num_ops max_threads : Z)
  (tags : list string) :
  NoDup tags -> (3 <= length tags)%nat ->
  NoDup (map call_filename (generate_all_files num_ops max_threads tags)).
Proof.
  intros Hnd Hlen. apply NoDup_fmap_2_strong.
  - intros x y Hx Hy Heq.
    apply elem_of_generate_all_files in Hx as (t & v & i & _ & Hv & _ & ->).
    apply elem_of_generate_all_files in Hy as (t' & v' & i' & _ & Hv' & _ & ->).
    cbn [call_filename] in Heq.
    apply filename_determines_piece in Heq as (-> & -> & ->); [reflexivity | assumption | lia ..].
  - unfold generate_all_files. rewrite flat_map_bind.
    apply NoDup_bind; [| | apply NoDup_int_range].
    + intros t1 t2 c _ _ H1 H2.
      rewrite flat_map_bind, list_elem_of_bind in H1, H2.
      destruct H1 as (v1 & H1 & Hv1). destruct H2 as (v2 & H2 & Hv2).
      apply elem_of_generate_pieces in H1 as (i1 & _ & ->).
      apply elem_of_generate_pieces in H2 as (i2 & _ & Heq).
      apply elem_of_seq in Hv1. apply elem_of_seq in Hv2.
      apply (f_equal call_filename) in Heq. cbn [call_filename] in Heq.
      apply filename_determines_piece in Heq as (_ & -> & _); [reflexivity | assumption | lia ..].
    + intros t _. rewrite flat_map_bind.
      apply NoDup_bind; [| | apply NoDup_seq].
      * intros v1 v2 c Hv1 Hv2 H1 H2.
        apply elem_of_generate_pieces in H1 as (i1 & _ & ->).
        apply elem_of_generate_pieces in H2 as (i2 & _ & Heq).
        apply (f_equal call_variant) in Heq. exact Heq.
      * intros v Hv. unfold generate_pieces.
        apply NoDup_fmap_2_strong; [| apply NoDup_int_range].
        intros i1 i2 _ _ Heq.
        apply (f_equal call_filename) in Heq. cbn [call_filename] in Heq.
        apply elem_of_seq in Hv.
        apply filename_determines_piece in Heq as (_ & _ & ->); [reflexivity | assumption | lia ..].
Qed.

(** X12: [generate_all_files] never writes a file twice: the names of the
    files it asks [generate_file] for are all different, when the three tags
    are. *)
Theorem generated_files_distinct (num_ops max_threads : Z) (tags : list string) :
  NoDup tags -> (3 <= length tags)%nat ->
  NoDup (map call_filename (generate_all_files num_ops max_threads tags)).
Proof. apply generated_filenames_NoDup. Qed.

Lemma generated_files_distinct_witness :
  NoDup (map call_filename (generate_all_files 400000 3 main_tags)).
Proof.
  apply generated_files_distinct.
  - unfold main_tags. repeat constructor; intros Hin;
      repeat (apply elem_of_cons in Hin as [Hin | Hin]; [discriminate |]);
      apply elem_of_nil in Hin; exact Hin.
  - simpl. lia.
Defined.

(** ** From the generator to the workloads *)

Lemma generate_file_other (writable : string -> bool) (draw : nat -> Z)
  (fs : string -> option string) (filename name : string) (num_ops : Z) :
  name <> filename ->
  generate_file writable draw fs filename num_ops name = fs name.
Proof.
  intros Hne. unfold generate_file, write_file.
  destruct (writable filename); [| reflexivity].
  destruct (String.eqb name filename) eqn:E; [| reflexivity].
  apply String.eqb_eq in E. contradiction.
Qed.

Lemma write_all_other (writable : string -> bool) (rng : nat -> nat -> Z)
  (calls : list generate_call) (k : nat) (fs : string -> option string)
  (name : string) :
  name ∉ map call_filename calls ->
  write_all writable rng k fs calls name = fs name.
Proof.
  revert k fs. induction calls as [| c rest IH]; intros k fs Hnot; [reflexivity |].
  simpl in *. rewrite IH.
  - apply generate_file_other. intros ->. apply Hnot. apply elem_of_cons. left; reflexivity.
  - intros Hin. apply Hnot. apply elem_of_cons. right; exact Hin.
Qed.

(** After all the calls, a file holds what the one call for it wrote. *)
Lemma write_all_lookup (writable : string -> bool) (rng : nat -> nat -> Z)
  (calls : list generate_call) (k j : nat) (fs : string -> option string)
  (c : generate_call) :
  NoDup (map call_filename calls) ->
  calls !! j = Some c ->
  writable (call_filename c) = true ->
  write_all writable rng k fs calls (call_filename c)
  = Some (generate_lines (map (rng (k + j)%nat) (seq 0 (Z.to_nat (call_nops c))))).
Proof.
  revert k j fs. induction calls as [| c0 rest IH]; intros k j fs Hnd Hj Hw;
    [discriminate |].
  simpl in Hnd. apply NoDup_cons in Hnd as [Hnot Hnd].
  destruct j as [| j]; simpl in Hj.
  - injection Hj as ->. simpl. rewrite write_all_other by exact Hnot.
    unfold generate_file, write_file. rewrite Hw, String.eqb_refl, Nat.add_0_r.
    reflexivity.
  - simpl. rewrite (IH (S k) j) by assumption. do 4 f_equal. lia.
Qed.

(** The file of a piece, once everything is generated, read back. *)
Lemma generated_piece_reads_back (writable : string -> bool) (rng : nat -> nat -> Z)
  (fs : string -> option string) (junk : nat -> Z * Z)
  (num_ops max_threads : Z) (tags : list string) (variant : nat) (t i : Z) :
  (forall name, writable name = true) ->
  NoDup tags -> (3 <= length tags)%nat ->
  1 <= t <= max_threads -> (variant < 3)%nat -> 0 <= i < t ->
  exists j,
    parse_file
      (write_all writable rng 0 fs (generate_all_files num_ops max_threads tags))
      junk (trace_filename tags variant t i)
    = map (fun n => action_of_draw (rng j n))
          (seq 0 (Z.to_nat (piece_nops num_ops t i))).
Proof.
  intros Hw Hnd Hlen Ht Hv Hi.
  set (c := {| call_filename := trace_filename tags variant t i;
               call_nops := piece_nops num_ops t i;
               call_variant := variant |}).
  assert (Hc : c ∈ generate_all_files num_ops max_threads tags).
  { apply elem_of_generate_all_files. exists t, variant, i. auto. }
  apply list_elem_of_lookup in Hc as [j Hj].
  exists j. unfold parse_file.
  pose proof (write_all_lookup writable rng _ 0 j fs c
                (generated_filenames_NoDup num_ops max_threads tags Hnd Hlen)
                Hj (Hw _)) as Hfile.
  cbn [call_filename call_nops c] in Hfile. rewrite Hfile.
  rewrite parse_generated_lines', map_map. reflexivity.
Qed.

Lemma piece_nops_nonneg (num_ops t i : Z) : 0 <= piece_nops num_ops t i.
Proof. unfold piece_nops, to_size_t. apply Z.mod_pos_bound. reflexivity. Qed.

Lemma length_concat_pieces (writable : string -> bool) (rng : nat -> nat -> Z)
  (fs : string -> option string) (junk : nat -> Z * Z)
  (num_ops max_threads : Z) (tags : list string) (variant : nat) (t : Z)
  (pieces : list Z) :
  (forall name, writable name = true) ->
  NoDup tags -> (3 <= length tags)%nat ->
  1 <= t <= max_threads -> (variant < 3)%nat ->
  (forall i, i ∈ pieces -> 0 <= i < t) ->
  Z.of_nat
    (length
       (concat
          (map (fun i =>
                  parse_file
                    (write_all writable rng 0 fs
                       (generate_all_files num_ops max_threads tags))
                    junk (trace_filename tags variant t i))
               pieces)))
  = sum_nops
      (map (fun i => {| call_filename := trace_filename tags variant t i;
                        call_nops := piece_nops num_ops t i;
                        call_variant := variant |})
           pieces).
Proof.
  intros Hw Hnd Hlen Ht Hv. induction pieces as [| i rest IH]; intros Hin.
  - reflexivity.
  - cbn [map concat]. rewrite length_app, Nat2Z.inj_add, IH.
    + destruct (generated_piece_reads_back writable rng fs junk num_ops max_threads
                  tags variant t i Hw Hnd Hlen Ht Hv) as [j ->].
      { apply Hin. apply elem_of_cons. left; reflexivity. }
      rewrite length_map, length_seq, Z2Nat.id by apply piece_nops_nonneg.
      reflexivity.
    + intros i' Hi'. apply Hin. apply elem_of_cons. right; exact Hi'.
Qed.

Lemma generated_workloads_spec (writable : string -> bool) (rng : nat -> nat -> Z)
  (fs : string -> option string) (junk : nat -> Z * Z)
  (num_ops max_threads : Z) (tags : list string) (variant : nat) (t : Z) :
  (forall name, writable name = true) ->
  NoDup tags -> (3 <= length tags)%nat ->
  0 <= num_ops < 2 ^ 64 -> 1 <= t <= max_threads -> max_threads < 2 ^ 31 ->
  (variant < 3)%nat ->
  let fs' := write_all writable rng 0 fs
               (generate_all_files num_ops max_threads tags) in
  let workloads := load_action_lists fs' junk tags variant t in
  length workloads = Z.to_nat t /\
  (forall (i : nat) (w : list Action),
     workloads !! i = Some w ->
     Z.of_nat (length w)
     = if Z.of_nat i <? num_ops mod t then num_ops / t + 1 else num_ops / t) /\
  Z.of_nat (length (concat workloads)) = num_ops /\
  Forall (Forall (fun a => exists op_type, a = action_of_draw op_type)) workloads.
Proof.
  intros Hw Hnd Hlen Hn Ht Hmax Hv fs' workloads.
  unfold workloads, load_action_lists.
  split; [| split; [| split]].
  - rewrite length_map, length_int_range. f_equal. lia.
  - intros i w Hlook.
    apply list_lookup_fmap_Some in Hlook as (z & -> & Hz).
    assert (Hzi : z = Z.of_nat i /\ 0 <= z < t).
    { unfold int_range in Hz. apply list_lookup_fmap_Some in Hz as (k & -> & Hk).
      apply lookup_seq in Hk as [-> Hlt]. lia. }
    destruct Hzi as [-> Hrange].
    destruct (generated_piece_reads_back writable rng fs junk num_ops max_threads
                tags variant t (Z.of_nat i) Hw Hnd Hlen Ht Hv Hrange) as [j Hj].
    fold fs' in Hj. rewrite Hj, length_map, length_seq.
    rewrite Z2Nat.id by apply piece_nops_nonneg.
    rewrite piece_nops_spec by lia.
    destruct (Z.of_nat i <? num_ops mod t); lia.
  - unfold fs'. rewrite (length_concat_pieces writable rng fs junk num_ops
                           max_threads tags variant t) by
      (try assumption; intros i Hi; apply elem_of_int_range in Hi; exact Hi).
    unfold int_range. rewrite Z.sub_0_r, sum_nops_pieces by lia.
    pose proof (Z.mod_pos_bound num_ops t ltac:(lia)) as Hrem.
    pose proof (Z.div_mod num_ops t ltac:(lia)) as Hdm.
    rewrite Z2Nat.id by lia. lia.
  - apply Forall_fmap, Forall_forall. intros i Hi. apply elem_of_int_range in Hi.
    destruct (generated_piece_reads_back writable rng fs junk num_ops max_threads
                tags variant t i Hw Hnd Hlen Ht Hv Hi) as [j Hj].
    change (Forall (fun a => exists op_type, a = action_of_draw op_type)
              (parse_file
                 (write_all writable rng 0 fs
                    (generate_all_files num_ops max_threads tags))
                 junk (trace_filename tags variant t i))).
    rewrite Hj. apply Forall_fmap, Forall_forall.
    intros n _. simpl. eauto.
Qed.

(** X13: what the generator writes is what the harness measures.  Once
    [generate_all_files] has written its files, all of which could be
    opened, the workloads [measure_all] loads for a variant and a thread
    count [t] are [t] in number; the first [num_ops mod t] have
    [num_ops / t + 1] operations and the others [num_ops / t], so together
    exactly [num_ops]; and every operation is one of the five the generator
    writes. *)
Theorem generated_workloads (writable : string -> bool) (rng : nat -> nat -> Z)
  (fs : string -> option string) (junk : nat -> Z * Z)
  (num_ops max_threads : Z) (tags : list string) (variant : nat) (t : Z) :
  (forall name, writable name = true) ->
  NoDup tags -> (3 <= length tags)%nat ->
  0 <= num_ops < 2 ^ 64 -> 1 <= t <= max_threads -> max_threads < 2 ^ 31 ->
  (variant < 3)%nat ->
  let fs' := write_all writable rng 0 fs
               (generate_all_files num_ops max_threads tags) in
  let workloads := load_action_lists fs' junk tags variant t in
  length workloads = Z.to_nat t /\
  (forall (i : nat) (w : list Action),
     workloads !! i = Some w ->
     Z.of_nat (length w)
     = if Z.of_nat i <? num_ops mod t then num_ops / t + 1 else num_ops / t) /\
  Z.of_nat (length (concat workloads)) = num_ops /\
  Forall (Forall (fun a => exists op_type, a = action_of_draw op_type)) workloads.
Proof. apply generated_workloads_spec. Qed.

Lemma NoDup_main_tags : NoDup main_tags.
Proof.
  unfold main_tags. repeat constructor; intros Hin;
    repeat (apply elem_of_cons in Hin as [Hin | Hin]; [discriminate |]);
    apply elem_of_nil in Hin; exact Hin.
Qed.

Lemma generated_workloads_witness :
  Z.of_nat
    (length
       (concat
          (load_action_lists
             (write_all (fun _ => true) (fun k n => Z.of_nat (k + n)) 0 (fun _ => None)
                (generate_all_files 10 3 main_tags))
             (fun _ => (0, 0)) main_tags 1 3)))
  = 10.
Proof.
  refine (proj1 (proj2 (proj2
    (generated_workloads (fun _ => true) (fun k n => Z.of_nat (k + n)) (fun _ => None)
       (fun _ => (0, 0)) 10 3 main_tags 1 3 (fun _ => eq_refl) NoDup_main_tags
       _ _ _ _ _)))).
  - simpl. lia.
  - lia.
  - lia.
  - lia.
  - lia.
Defined.

(** ** The cells [measure_all] does not compute *)

Lemma measure_all_frame (fs : string -> option string) (junk : nat -> Z * Z)
  (elapsed : nat -> SafeStruct -> list (list Action) -> float)
  (results : list (list float)) (tags : list string) (repeats : Z) (M : nat) :
  table_3x3 results -> (M <= 3)%nat ->
  exists r0 r1 r2 row0 row1 row2,
    results !! 0%nat = Some r0 /\ results !! 1%nat = Some r1 /\
    results !! 2%nat = Some r2 /\
    fst (measure_all fs junk elapsed results (Z.of_nat M) tags repeats)
    = <[2%nat := row2]> (<[1%nat := row1]> (<[0%nat := row0]> results)) /\
    (length row0 = 3 /\ length row1 = 3 /\ length row2 = 3)%nat /\
    (forall j, (M <= j)%nat ->
       row0 !! j = r0 !! j /\ row1 !! j = r1 !! j /\ row2 !! j = r2 !! j).
Proof.
  intros Htable HM.
  destruct (table_rows results 0 Htable ltac:(lia)) as (r0 & Hr0 & Hl0).
  destruct (table_rows results 1 Htable ltac:(lia)) as (r1 & Hr1 & Hl1).
  destruct (table_rows results 2 Htable ltac:(lia)) as (r2 & Hr2 & Hl2).
  destruct (thread_loop_spec fs junk elapsed tags repeats 0 results r0 0 M Hr0)
    as (row0 & Hloop0 & Hlen0 & _ & Hrest0); [lia |].
  destruct (thread_loop_spec fs junk elapsed tags repeats 1
              (<[0%nat := row0]> results) r1 (0 + M * Z.to_nat repeats) M)
    as (row1 & Hloop1 & Hlen1 & _ & Hrest1);
    [rewrite list_lookup_insert_ne by lia; exact Hr1 | lia |].
  destruct (thread_loop_spec fs junk elapsed tags repeats 2
              (<[1%nat := row1]> (<[0%nat := row0]> results)) r2
              (0 + M * Z.to_nat repeats + M * Z.to_nat repeats) M)
    as (row2 & Hloop2 & Hlen2 & _ & Hrest2);
    [rewrite !list_lookup_insert_ne by lia; exact Hr2 | lia |].
  exists r0, r1, r2, row0, row1, row2.
  split; [exact Hr0 |]. split; [exact Hr1 |]. split; [exact Hr2 |]. split.
  - unfold measure_all. cbn [seq fold_left].
    rewrite Hloop0, Hloop1, Hloop2. reflexivity.
  - split; [lia |]. intros j Hj. auto.
Qed.

(** X14: [measure_all] writes the cells for the thread counts 1 to
    [max_threads] and no other: a cell for a larger thread count still holds
    what the caller put there, and the table keeps its 3 by 3 shape. *)
Theorem measure_all_keeps_other_cells
  (fs : string -> option string) (junk : nat -> Z * Z)
  (elapsed : nat -> SafeStruct -> list (list Action) -> float)
  (results : list (list float)) (max_threads : Z) (tags : list string)
  (repeats : Z) (variant : nat) (t : Z) :
  table_3x3 results -> 0 <= max_threads <= 3 -> (variant < 3)%nat ->
  max_threads < t <= 3 ->
  result_at (fst (measure_all fs junk elapsed results max_threads tags repeats))
            variant t
  = result_at results variant t /\
  table_3x3 (fst (measure_all fs junk elapsed results max_threads tags repeats)).
Proof.
  intros Htable Hmax Hv Ht.
  destruct (measure_all_frame fs junk elapsed results tags repeats
              (Z.to_nat max_threads) Htable ltac:(lia))
    as (r0 & r1 & r2 & row0 & row1 & row2 & Hr0 & Hr1 & Hr2 & Hall & Hlens & Hrest).
  rewrite Z2Nat.id in Hall by lia. rewrite Hall. clear Hall.
  destruct Htable as [Hlen Hrows].
  destruct Hlens as (Hl0 & Hl1 & Hl2).
  specialize (Hrest (Z.to_nat (t - 1)) ltac:(lia)). destruct Hrest as (H0 & H1 & H2).
  split.
  - unfold result_at. destruct variant as [| [| [| variant]]]; [| | | lia].
    + rewrite !list_lookup_insert_ne by lia.
      rewrite list_lookup_insert_eq by lia. rewrite Hr0. simpl. exact H0.
    + rewrite list_lookup_insert_ne by lia.
      rewrite list_lookup_insert_eq by (rewrite length_insert; lia).
      rewrite Hr1. simpl. exact H1.
    + rewrite list_lookup_insert_eq by (rewrite !length_insert; lia).
      rewrite Hr2. simpl. exact H2.
  - split; [rewrite !length_insert; exact Hlen |].
    repeat apply Forall_insert; assumption.
Qed.

Lemma measure_all_keeps_other_cells_witness :
  result_at
    (fst (measure_all (fun _ => None) (fun _ => (0, 0)) first_run_one_second
            results_init 2 main_tags default_repeats))
    1 3
  = result_at results_init 1 3.
Proof.
  refine (proj1 (measure_all_keeps_other_cells (fun _ => None) (fun _ => (0, 0))
                   first_run_one_second results_init 2 main_tags default_repeats
                   1 3 table_3x3_init _ _ _)).
  - lia.
  - lia.
  - lia.
Defined.

(** ** The whole program *)

Lemma measure_all_cell (fs : string -> option string) (junk : nat -> Z * Z)
  (elapsed : nat -> SafeStruct -> list (list Action) -> float)
  (results : list (list float)) (max_threads : Z) (tags : list string)
  (repeats : Z) (variant : nat) (t : Z) :
  table_3x3 results -> 1 <= t <= max_threads -> max_threads <= 3 ->
  (variant < 3)%nat ->
  result_at (fst (measure_all fs junk elapsed results max_threads tags repeats))
            variant t
  = Some (cell fs junk elapsed tags repeats variant t
            ((variant * Z.to_nat max_threads + Z.to_nat (t - 1)) * Z.to_nat repeats)).
Proof.
  intros Htable Ht Hmax Hv.
  destruct (measure_all_rows fs junk elapsed results tags repeats
              (Z.to_nat max_threads) Htable ltac:(lia))
    as (row0 & row1 & row2 & Hall & Hcells).
  rewrite Z2Nat.id in Hall by lia. rewrite Hall. clear Hall.
  destruct Htable as [Hlen _].
  specialize (Hcells (Z.to_nat (t - 1)) ltac:(lia)).
  replace (Z.of_nat (S (Z.to_nat (t - 1)))) with t in Hcells by lia.
  destruct Hcells as (Hc0 & Hc1 & Hc2).
  unfold result_at. cbn [fst].
  destruct variant as [| [| [| variant]]]; [| | | lia].
  - rewrite !list_lookup_insert_ne by lia.
    rewrite list_lookup_insert_eq by lia. simpl. exact Hc0.
  - rewrite list_lookup_insert_ne by lia.
    rewrite list_lookup_insert_eq by (rewrite length_insert; lia). simpl. exact Hc1.
  - rewrite list_lookup_insert_eq by (rewrite !length_insert; lia). simpl. exact Hc2.
Qed.

(** X15: what [main] hands to [print_results].  When its eighteen trace
    files can all be written, every one of the nine cells of the table, for a
    variant and a thread count [t] from 1 to 3, is the rounded mean of five
    measurements, each made on a new record with the [t] workloads generated
    for that cell, which hold 400000 operations between them. *)
Theorem main_fills_the_table (writable : string -> bool) (rng : nat -> nat -> Z)
  (fs : string -> option string) (junk : nat -> Z * Z)
  (elapsed : nat -> SafeStruct -> list (list Action) -> float)
  (variant : nat) (t : Z) :
  (forall name, writable name = true) -> (variant < 3)%nat -> 1 <= t <= 3 ->
  let fs' := write_all writable rng 0 fs (generate_all_files 400000 3 main_tags) in
  let workloads := load_action_lists fs' junk main_tags variant t in
  let n := ((variant * 3 + Z.to_nat (t - 1)) * 5)%nat in
  length (generate_all_files 400000 3 main_tags) = 18%nat /\
  length workloads = Z.to_nat t /\
  Z.of_nat (length (concat workloads)) = 400000 /\
  result_at (main_table writable rng fs junk elapsed) variant t
  = Some (rounded_mean (durations elapsed workloads n 5) 5).
Proof.
  intros Hw Hv Ht fs' workloads n.
  destruct (generated_workloads_spec writable rng fs junk 400000 3 main_tags
              variant t Hw NoDup_main_tags)
    as (Hlen & _ & Htotal & _); try (simpl; lia).
  split; [reflexivity |]. split; [exact Hlen |]. split; [exact Htotal |].
  change (main_table writable rng fs junk elapsed)
    with (fst (measure_all fs' junk elapsed results_init 3 main_tags 5)).
  rewrite (measure_all_cell fs' junk elapsed results_init 3 main_tags 5 variant t
             table_3x3_init) by lia.
  reflexivity.
Qed.

Lemma main_fills_the_table_witness :
  result_at
    (main_table (fun _ => true) (fun k n => Z.of_nat (k + n)) (fun _ => None)
       (fun _ => (0, 0)) first_run_one_second) 2 3
  = Some
      (rounded_mean
         (durations first_run_one_second
            (load_action_lists
               (write_all (fun _ => true) (fun k n => Z.of_nat (k + n)) 0
                  (fun _ => None) (generate_all_files 400000 3 main_tags))
               (fun _ => (0, 0)) main_tags 2 3)
            40 5)
         5).
Proof.
  refine (proj2 (proj2 (proj2
    (main_fills_the_table (fun _ => true) (fun k n => Z.of_nat (k + n))
       (fun _ => None) (fun _ => (0, 0)) first_run_one_second 2 3
       (fun _ => eq_refl) _ _)))).
  - lia.
  - lia.
Defined.

(** ** More on the parser *)

(** X16: a line in the trace format is read back as the operation it
    spells: [read f] gives a read of field [f] and [write f v] a write of
    [v] to field [f], for all [int] values written in decimal, and [string]
    gives a snapshot, whatever the uninitialised locals hold. *)
Theorem trace_lines_read_back (f0 v0 f v : Z) :
  INT_MIN <= f <= INT_MAX -> INT_MIN <= v <= INT_MAX ->
  parse_line f0 v0 ("read " ++ to_string f)
  = Some {| op := READ; field := f; value := 0 |} /\
  parse_line f0 v0 ("write " ++ to_string f ++ " " ++ to_string v)
  = Some {| op := WRITE; field := f; value := v |} /\
  parse_line f0 v0 "string" = Some {| op := STR; field := -1; value := 0 |}.
Proof.
  intros Hf Hv. split; [| split].
  - apply parse_line_read. exact Hf.
  - apply parse_line_write; assumption.
  - reflexivity.
Qed.

Lemma trace_lines_read_back_witness :
  parse_line 11 22 ("read " ++ to_string (-7))
  = Some {| op := READ; field := -7; value := 0 |} /\
  parse_line 11 22 ("write " ++ to_string (-7) ++ " " ++ to_string 2147483647)
  = Some {| op := WRITE; field := -7; value := 2147483647 |} /\
  parse_line 11 22 "string" = Some {| op := STR; field := -1; value := 0 |}.
Proof.
  apply trace_lines_read_back; unfold INT_MIN, INT_MAX; lia.
Defined.

Lemma extract_int_range (st : istream) (n : Z) :
  INT_MIN <= n <= INT_MAX ->
  INT_MIN <= fst (extract_int st n) <= INT_MAX.
Proof.
  intros Hn. unfold extract_int.
  destruct (sentry st) as [[|] st1]; [| exact Hn].
  destruct (match rest st1 with
            | EmptyString => (false, EmptyString)
            | String c r =>
                if Ascii.eqb c "-" then (true, r)
                else if Ascii.eqb c "+" then (false, r) else (false, rest st1)
            end) as [neg r1].
  destruct (take_digits r1 0 false) as [[mag seen] r2].
  destruct (negb seen); [simpl; unfold INT_MIN, INT_MAX; lia |].
  destruct (_ >? INT_MAX) eqn:E1; [simpl; unfold INT_MIN, INT_MAX; lia |].
  destruct (_ <? INT_MIN) eqn:E2; [simpl; unfold INT_MIN, INT_MAX; lia |].
  simpl. apply Z.ltb_ge in E2.
  assert (Hle : ~ (if neg then - mag else mag) > INT_MAX)
    by (rewrite <- Z.gtb_gt; congruence).
  lia.
Qed.

(** X17: the parser never produces a number outside the range of [int],
    the uninitialised locals being [int]s themselves: the field and the
    value of every action it pushes are [int]s.  A number too large or too
    small on a line is replaced by the nearest end of the range: the field
    of a [read] or [write] line whose second word is an integer is
    [INT_MAX] when the integer is above it, [INT_MIN] when it is below, and
    the integer itself otherwise; and so is the value of a [write] line
    whose third word is an integer, the second being an [int]. *)
Theorem parsed_numbers_are_ints (f0 v0 : Z) (line : string) :
  INT_MIN <= f0 <= INT_MAX -> INT_MIN <= v0 <= INT_MAX ->
  (forall a, parse_line f0 v0 line = Some a ->
     INT_MIN <= field a <= INT_MAX /\ INT_MIN <= value a <= INT_MAX) /\
  (forall cmd fw ws z,
     words line = cmd :: fw :: ws -> cmd = "read"%string \/ cmd = "write"%string ->
     integer_word fw = true -> decimal_value fw = Some z ->
     exists a, parse_line f0 v0 line = Some a /\
       field a = (if z >? INT_MAX then INT_MAX
                  else if z <? INT_MIN then INT_MIN else z)) /\
  (forall fw vw ws z1 z2,
     words line = "write"%string :: fw :: vw :: ws ->
     integer_word fw = true -> decimal_value fw = Some z1 ->
     INT_MIN <= z1 <= INT_MAX ->
     integer_word vw = true -> decimal_value vw = Some z2 ->
     exists a, parse_line f0 v0 line = Some a /\
       value a = (if z2 >? INT_MAX then INT_MAX
                  else if z2 <? INT_MIN then INT_MIN else z2)).
Proof.
  intros Hf0 Hv0. split; [| split].
  - intros a. unfold parse_line.
    destruct (extract_string _ EmptyString) as [cmd iss].
    destruct (String.eqb cmd "read").
    + pose proof (extract_int_range iss f0 Hf0) as Hf.
      destruct (extract_int iss f0) as [f iss1]. intros [= <-]. simpl in *.
      split; [exact Hf | unfold INT_MIN, INT_MAX; lia].
    + destruct (String.eqb cmd "write").
      * pose proof (extract_int_range iss f0 Hf0) as Hf.
        destruct (extract_int iss f0) as [f iss1].
        pose proof (extract_int_range iss1 v0 Hv0) as Hv.
        destruct (extract_int iss1 v0) as [v iss2]. intros [= <-]. simpl in *. auto.
      * destruct (String.eqb cmd "string"); [| discriminate].
        intros [= <-]. simpl. unfold INT_MIN, INT_MAX. lia.
  - intros cmd fw ws z Hw [-> | ->] Hint Hval.
    + rewrite (parse_line_read_words f0 v0 line fw ws z Hw Hint Hval).
      eexists. split; reflexivity.
    + destruct (parse_line_write_field f0 v0 line fw ws z Hw Hint Hval) as [v ->].
      eexists. split; reflexivity.
  - intros fw vw ws z1 z2 Hw Hint Hval Hfit Hintv Hvalv.
    assert (Hfit' : fits_int z1 = true).
    { unfold fits_int. apply andb_true_iff. split; apply Z.leb_le; lia. }
    rewrite (parse_line_write_words f0 v0 line fw vw ws z1 z2 Hw Hint Hval Hfit' Hintv Hvalv).
    eexists. split; reflexivity.
Qed.

Lemma parsed_numbers_are_ints_witness :
  (exists a, parse_line 0 0 "read 99999999999" = Some a /\ field a = INT_MAX) /\
  (exists a, parse_line 0 0 "write 1 -99999999999 " = Some a /\ value a = INT_MIN).
Proof.
  assert (H0 : INT_MIN <= 0 <= INT_MAX) by (unfold INT_MIN, INT_MAX; lia).
  split.
  - apply (proj1 (proj2 (parsed_numbers_are_ints 0 0 "read 99999999999" H0 H0))
             "read"%string "99999999999"%string [] 99999999999);
      [reflexivity | left; reflexivity | reflexivity | reflexivity].
  - apply (proj2 (proj2 (parsed_numbers_are_ints 0 0 "write 1 -99999999999 " H0 H0))
             "1"%string "-99999999999"%string [] 1 (-99999999999));
      [reflexivity | reflexivity | reflexivity | unfold INT_MIN, INT_MAX; lia
      | reflexivity | reflexivity].
Defined.

(** ** Replaying a workload in two parts *)

(** X18: replaying a workload is replaying its first part and then, on the
    record that leaves, the rest; and when the first part blocks, so does the
    whole.  This holds in every state of the record, mutexes held or not. *)
Theorem execute_in_two_parts (actions1 actions2 : list Action) (s : SafeStruct) :
  run (execute (actions1 ++ actions2)) s =
  match run (execute actions1) s with
  | Some (_, s1) => run (execute actions2) s1
  | None => None
  end.
Proof.
  revert s. induction actions1 as [| a rest IH]; intros s; [reflexivity |].
  cbn [app execute]. rewrite !run_bind.
  destruct (run (execute_one a) s) as [[[] s1] |]; [apply IH | reflexivity].
Qed.

(** ** A field with a single writer *)

Lemma writes_bind {A B : Type} (p : prog A) (q : A -> prog B) (w : list (Z * Z)) :
  (forall a, writes (q a) = w) -> writes (bind p q) = writes p ++ w.
Proof.
  intros Hq. induction p as [a | m k IH | m k IH | ph k IH | f k IH | f v k IH];
    simpl; auto.
  rewrite IH. reflexivity.
Qed.

Lemma load_blind_bind {A B : Type} (p : prog A) (q : A -> prog B) (w : list (Z * Z)) :
  load_blind p -> (forall a, load_blind (q a)) -> (forall a, writes (q a) = w) ->
  load_blind (bind p q).
Proof.
  intros Hp Hq Hw. induction p as [a | m k IH | m k IH | ph k IH | f k IH | f v k IH];
    simpl in *; auto.
  intros x. destruct (Hp x) as [Hwx Hbx].
  split; [| apply IH; exact Hbx].
  rewrite !(writes_bind _ q w Hw), Hwx. reflexivity.
Qed.

(** The stores of one action: a write to a field of the record, if it is
    one. *)
Lemma writes_execute_one (a : Action) :
  load_blind (execute_one a) /\
  forall d, fold_left apply_write (writes (execute_one a)) d = apply_action d a.
Proof.
  unfold execute_one, apply_action. destruct (op a).
  - unfold get.
    destruct ((field a <? 0) || (field a >=? Z.of_nat Array2.size)); simpl; auto.
  - unfold set.
    destruct ((field a <? 0) || (field a >=? Z.of_nat Array2.size)); simpl; auto.
  - simpl. auto.
Qed.

Lemma writes_execute (actions : list Action) :
  load_blind (execute actions) /\
  forall d, fold_left apply_write (writes (execute actions)) d
            = fold_left apply_action actions d.
Proof.
  induction actions as [| a rest [IHb IHw]]; [simpl; auto |].
  destruct (writes_execute_one a) as [Hb Hw]. cbn [execute]. split.
  - apply (load_blind_bind _ _ (writes (execute rest))); auto.
  - intros d. rewrite (writes_bind _ _ (writes (execute rest))) by reflexivity.
    rewrite fold_left_app, Hw, IHw. reflexivity.
Qed.

(** What a field ends up with depends on that field alone. *)
Lemma fold_writes_slot (ws : list (Z * Z)) (d d' : Array2.t Z) (f : Z) :
  Array2.at_ d f = Array2.at_ d' f ->
  Array2.at_ (fold_left apply_write ws d) f
  = Array2.at_ (fold_left apply_write ws d') f.
Proof.
  revert d d'. induction ws as [| [g v] ws IH]; intros d d' Heq; [exact Heq |].
  simpl. apply IH. unfold apply_write, Array2.at_, Array2.assign in *. simpl.
  destruct (g =? 0), (f =? 0); simpl; auto.
Qed.

(** A step of the thread makes the first of its stores, or none. *)
Lemma thread_step_writes {A : Type} (s s' : SafeStruct) (p p' : prog A) :
  load_blind p -> thread_step (s, p) (s', p') ->
  load_blind p' /\
  fold_left apply_write (writes p') (data s')
  = fold_left apply_write (writes p) (data s).
Proof.
  unfold thread_step. simpl. intros Hb Hin.
  destruct p as [a | m k | m k | [i | i] k | f k | f v k]; simpl in *.
  - apply elem_of_nil in Hin. contradiction.
  - destruct (locked s m); [apply elem_of_nil in Hin; contradiction |].
    apply list_elem_of_singleton in Hin. injection Hin as -> ->. auto.
  - apply list_elem_of_singleton in Hin. injection Hin as -> ->. auto.
  - destruct (locked s i); [apply elem_of_nil in Hin; contradiction |].
    apply list_elem_of_singleton in Hin. injection Hin as -> ->. auto.
  - destruct (locked s (other i)).
    + apply elem_of_cons in Hin. destruct Hin as [Hin | Hin].
      * injection Hin as -> ->. auto.
      * apply list_elem_of_singleton in Hin. injection Hin as -> ->. auto.
    + apply list_elem_of_singleton in Hin. injection Hin as -> ->. auto.
  - apply list_elem_of_singleton in Hin. injection Hin as -> ->.
    destruct (Hb (Array2.at_ (data s) f)) as [Hw Hb']. rewrite Hw. auto.
  - apply list_elem_of_singleton in Hin. injection Hin as -> ->. auto.
Qed.

Lemma single_writer_invariant (P : Z -> Z -> Prop) (k : nat) (f final : Z)
  (c c' : config) :
  valid_index f ->
  (forall g v, P g v -> valid_index g /\ g <> f) ->
  rtc step c c' ->
  (exists p, threads c !! k = Some p /\ load_blind p /\
     Array2.at_ (fold_left apply_write (writes p) (data (shared c))) f = final) ->
  (forall j p, j <> k -> threads c !! j = Some p -> stores_only P p) ->
  exists p', threads c' !! k = Some p' /\
    Array2.at_ (fold_left apply_write (writes p') (data (shared c'))) f = final.
Proof.
  intros Hf HP Hsteps. induction Hsteps as [c | c c1 c2 Hstep _ IH];
    intros (p & Hp & Hb & Hfinal) Hothers.
  - eauto.
  - destruct Hstep as [s s1 ts t q q1 Hq Hin]. simpl in *.
    assert (Hlt : (t < length ts)%nat) by (eapply lookup_lt_Some; eauto).
    destruct (decide (t = k)) as [-> | Hne].
    + rewrite Hp in Hq. injection Hq as <-.
      destruct (thread_step_writes s s1 p q1 Hb Hin) as [Hb1 Hw1].
      apply IH.
      * exists q1. rewrite list_lookup_insert_eq by exact Hlt.
        split; [reflexivity |]. split; [exact Hb1 |]. rewrite Hw1. exact Hfinal.
      * intros j p' Hj Hp'. rewrite list_lookup_insert_ne in Hp' by congruence.
        eapply Hothers; eauto.
    + destruct (thread_step_stores P s s1 q q1 (Hothers t q Hne Hq) Hin)
        as [Hq1 Hdata].
      apply IH.
      * exists p. rewrite list_lookup_insert_ne by congruence.
        split; [exact Hp |]. split; [exact Hb |]. rewrite <- Hfinal.
        apply fold_writes_slot.
        destruct Hdata as [-> | (g & v & HPg & ->)]; [reflexivity |].
        destruct (HP g v HPg) as [Hg Hgf].
        apply at_assign_other; assumption.
      * intros j p' Hj Hp'. destruct (decide (j = t)) as [-> | Hjt].
        -- rewrite list_lookup_insert_eq in Hp' by exact Hlt.
           injection Hp' as <-. exact Hq1.
        -- rewrite list_lookup_insert_ne in Hp' by congruence. eapply Hothers; eauto.
Qed.

(** X10: a field written by a single worker ends as that worker leaves it.
    When all the writes to a field are in one workload, then however many
    other workers read, take snapshots or write the other field, and however
    the run interleaves them, once every worker has returned the field holds
    what that one workload, replayed alone, would have left in it. *)
Theorem single_writer_decides (s : SafeStruct) (action_lists : list (list Action))
  (k : nat) (actions : list Action) (f : Z) (c : config) :
  valid_index f ->
  action_lists !! k = Some actions ->
  (forall j other a, j <> k -> action_lists !! j = Some other -> a ∈ other ->
     op a = WRITE -> field a <> f) ->
  rtc step (run_once s action_lists) c -> joined c ->
  Array2.at_ (data (shared c)) f
  = Array2.at_ (fold_left apply_action actions (data s)) f.
Proof.
  intros Hf Hk Hsingle Hreach Hjoined.
  destruct (single_writer_invariant (fun g v => valid_index g /\ g <> f) k f
              (Array2.at_ (fold_left apply_action actions (data s)) f)
              _ c Hf (fun g v H => H) Hreach) as (p' & Hp' & Hfinal).
  - exists (execute actions). unfold run_once. simpl.
    rewrite list_lookup_fmap, Hk. split; [reflexivity |].
    destruct (writes_execute actions) as [Hb Hw]. split; [exact Hb |].
    rewrite Hw. reflexivity.
  - intros j p Hj Hp. unfold run_once in Hp. simpl in Hp.
    apply list_lookup_fmap_Some in Hp as (other & -> & Hother).
    apply stores_only_execute. intros a Ha Hop Hvalid. split; [exact Hvalid |].
    eapply Hsingle; eauto.
  - unfold joined in Hjoined.
    rewrite (Forall_lookup_1 _ _ _ _ Hjoined Hp') in Hfinal. simpl in Hfinal.
    exact Hfinal.
Qed.

Lemma single_writer_decides_witness :
  Array2.at_ (data {| data := (7, 0); mutexes := (false, false) |}) 0
  = Array2.at_
      (fold_left apply_action [ {| op := WRITE; field := 0; value := 7 |} ]
         (data SafeStruct_init)) 0.
Proof.
  refine (single_writer_decides SafeStruct_init
            [ [ {| op := WRITE; field := 0; value := 7 |} ]; [] ]
            0 [ {| op := WRITE; field := 0; value := 7 |} ] 0
            {| shared := {| data := (7, 0); mutexes := (false, false) |};
               threads := [Ret tt; Ret tt] |}
            (or_introl eq_refl) eq_refl _ _ _).
  - intros j other a Hj Hother Ha.
    destruct j as [| [| j]]; [congruence | | discriminate].
    injection Hother as <-. apply elem_of_nil in Ha. contradiction.
  - eapply rtc_l; [| eapply rtc_l; [| apply rtc_once]].
    + refine (step_thread SafeStruct_init
                {| data := (0, 0); mutexes := (true, false) |}
                (map execute [ [ {| op := WRITE; field := 0; value := 7 |} ]; [] ])
                0 (execute [ {| op := WRITE; field := 0; value := 7 |} ])
                (Store 0 7 (Unlock 0 (Ret tt))) eq_refl _).
      simpl. apply list_elem_of_singleton. reflexivity.
    + refine (step_thread {| data := (0, 0); mutexes := (true, false) |}
                {| data := (7, 0); mutexes := (true, false) |}
                [Store 0 7 (Unlock 0 (Ret tt)); Ret tt]
                0 (Store 0 7 (Unlock 0 (Ret tt))) (Unlock 0 (Ret tt)) eq_refl _).
      simpl. apply list_elem_of_singleton. reflexivity.
    + refine (step_thread {| data := (7, 0); mutexes := (true, false) |}
                {| data := (7, 0); mutexes := (false, false) |}
                [Unlock 0 (Ret tt); Ret tt]
                0 (Unlock 0 (Ret tt)) (Ret tt) eq_refl _).
      simpl. apply list_elem_of_singleton. reflexivity.
  - repeat constructor.
Defined.
